(** * gors: a small HTTP request helper (Go), verified against its specification

    The development embeds [gors.go] shallowly.

    - Go strings are byte sequences and are modelled by [string]; the
      byte-level algorithms work on [list ascii].
    - A Go map is a reference: the map objects live in a heap of [gmap]s and
      a struct field holds the location of one, or nil.  A [*Request] is a
      location in a heap of [Request] structs.
    - A call of the package is a computation in a state monad whose outcome
      is a return or a panic.  Go's [error] results are ordinary values.
    - The network, the clock, the response body streams and the iteration
      order of maps are oracles of an environment [Env]; the transport is
      handed the outgoing request and holds no reference to the [Request].
    - What the package calls in the Go standard library ([path], [strings],
      [net/url], [net/http], [context], [fmt], [encoding/json]) is not part
      of the repository; it is modelled here after the library's sources
      (Go 1.21), function by function and under the library's names. *)

From Stdlib Require Import Ascii.
From stdpp Require Import gmap strings list fin_maps sorting pretty.

(** ** Bytes and strings *)

Abbreviation bytes := (list ascii).

(** The bytes of a string, and the string of a byte sequence. *)
Definition B (s : string) : bytes := String.list_ascii_of_string s.
Definition str (l : bytes) : string := String.string_of_list_ascii l.

Definition byte_val (c : ascii) : nat := nat_of_ascii c.

Definition byte_in (lo hi c : ascii) : bool :=
  (byte_val lo <=? byte_val c)%nat && (byte_val c <=? byte_val hi)%nat.

Definition isLower (c : ascii) : bool := byte_in "a" "z" c.
Definition isUpper (c : ascii) : bool := byte_in "A" "Z" c.
Definition isDigit (c : ascii) : bool := byte_in "0" "9" c.
Definition isAlnum (c : ascii) : bool := isLower c || isUpper c || isDigit c.

Definition byte_mem (c : ascii) (set : string) : bool :=
  existsb (Ascii.eqb c) (B set).

Definition bytes_eqb (a b : bytes) : bool := bool_decide (a = b).

(** ** Package [strings] *)

Module strings.

(** [len(s) >= len(prefix) && s[:len(prefix)] == prefix] *)
Definition hasPrefix (s prefix : bytes) : bool :=
  (length prefix <=? length s)%nat && bytes_eqb (take (length prefix) s) prefix.

(** [len(s) >= len(suffix) && s[len(s)-len(suffix):] == suffix] *)
Definition hasSuffix (s suffix : bytes) : bool :=
  (length suffix <=? length s)%nat
  && bytes_eqb (drop (length s - length suffix) s) suffix.

Definition HasPrefix (s prefix : string) : bool := hasPrefix (B s) (B prefix).
Definition HasSuffix (s suffix : string) : bool := hasSuffix (B s) (B suffix).

(** [strings.IndexByte]: position of the first [c], if any. *)
Fixpoint indexByte (s : bytes) (c : ascii) : option nat :=
  match s with
  | [] => None
  | x :: s' => if Ascii.eqb x c then Some 0%nat else S <$> indexByte s' c
  end.

(** [strings.LastIndexByte]. *)
Fixpoint lastIndexByte (s : bytes) (c : ascii) : option nat :=
  match s with
  | [] => None
  | x :: s' =>
      match lastIndexByte s' c with
      | Some i => Some (S i)
      | None => if Ascii.eqb x c then Some 0%nat else None
      end
  end.

(** [strings.Cut(s, sep)] for a one-byte separator: before, after, found. *)
Definition cutByte (s : bytes) (c : ascii) : bytes * bytes * bool :=
  match indexByte s c with
  | Some i => (take i s, drop (S i) s, true)
  | None => (s, [], false)
  end.

Definition containsByte (s : bytes) (c : ascii) : bool :=
  bool_decide (is_Some (indexByte s c)).

Definition countByte (s : bytes) (c : ascii) : nat :=
  length (filter (λ x, x = c) s).

(** [strings.Index(s, sub)]: first position where [sub] occurs. *)
Fixpoint index (s sub : bytes) : option nat :=
  if hasPrefix s sub then Some 0%nat
  else match s with
       | [] => None
       | _ :: s' => S <$> index s' sub
       end.

Definition toLowerByte (c : ascii) : ascii :=
  if isUpper c then ascii_of_nat (byte_val c + 32) else c.
Definition toUpperByte (c : ascii) : ascii :=
  if isLower c then ascii_of_nat (byte_val c - 32) else c.

(** [strings.TrimSuffix] for a one-byte suffix. *)
Definition trimSuffixByte (s : bytes) (c : ascii) : bytes :=
  if hasSuffix s [c] then take (length s - 1) s else s.

End strings.

(** ** Package [path] *)

Module path.

(** The lazily built output buffer of [Clean] ([lazybuf]) denotes the
    bytes [buf[:w]].  The model keeps exactly those bytes, most recent
    first, so that [out.w] is [length out], [out.append(c)] is [c :: out]
    and [out.w--] drops the head. *)

(** [for ; r < n && path[r] != '/'; r++ { out.append(path[r]) }] *)
Fixpoint copy_element (rest out : bytes) : bytes * bytes :=
  match rest with
  | c :: rest' =>
      if Ascii.eqb c "/" then (rest, out) else copy_element rest' (c :: out)
  | [] => ([], out)
  end.

(** [out.w--; for out.w > dotdot && out.index(out.w) != '/' { out.w-- }] *)
Fixpoint backtrack (dotdot : nat) (out : bytes) : bytes :=
  match out with
  | [] => []
  | c :: out' =>
      if (dotdot <? length out')%nat && negb (Ascii.eqb c "/")
      then backtrack dotdot out'
      else out'
  end.

(** [r+k == n || path[r+k] == '/'], on the unread rest [path[r+k:]]. *)
Definition end_or_slash (rest : bytes) : bool :=
  match rest with
  | [] => true
  | c :: _ => Ascii.eqb c "/"
  end.

(** The main loop [for r < n { switch ... }] of [Clean]; [rest] is
    [path[r:]].  Every iteration consumes at least one byte, so
    [length rest] iterations always suffice ([clean_loop_total]). *)
Fixpoint clean_loop (fuel : nat) (rooted : bool) (rest out : bytes)
    (dotdot : nat) : option bytes :=
  match rest with
  | [] => Some out
  | c :: rest1 =>
      match fuel with
      | O => None
      | S fuel =>
          if Ascii.eqb c "/" then
            (* empty path element *)
            clean_loop fuel rooted rest1 out dotdot
          else if Ascii.eqb c "." && end_or_slash rest1 then
            (* . element *)
            clean_loop fuel rooted rest1 out dotdot
          else if Ascii.eqb c "."
                  && match rest1 with
                     | c1 :: rest2 => Ascii.eqb c1 "." && end_or_slash rest2
                     | [] => false
                     end then
            (* .. element: remove to last / *)
            let rest2 := tail rest1 in
            if (dotdot <? length out)%nat then
              (* can backtrack *)
              clean_loop fuel rooted rest2 (backtrack dotdot out) dotdot
            else if negb rooted then
              (* cannot backtrack, but not rooted, so append .. element *)
              let out1 := if (0 <? length out)%nat then "/"%char :: out else out in
              let out2 := "."%char :: "."%char :: out1 in
              clean_loop fuel rooted rest2 out2 (length out2)
            else
              clean_loop fuel rooted rest2 out dotdot
          else
            (* real path element: add slash if needed, copy element *)
            let out1 :=
              if (rooted && negb (length out =? 1)%nat)
                 || (negb rooted && negb (length out =? 0)%nat)
              then "/"%char :: out else out in
            let '(rest', out2) := copy_element rest out1 in
            clean_loop fuel rooted rest' out2 dotdot
      end
  end.

Definition clean (p : bytes) : bytes :=
  match p with
  | [] => B "."
  | c0 :: p' =>
      let rooted := Ascii.eqb c0 "/" in
      let '(rest, out, dotdot) :=
        if rooted then (p', ["/"%char], 1%nat) else (p, [], 0%nat) in
      match clean_loop (length rest) rooted rest out dotdot with
      | Some [] => B "."          (* turn empty string into "." *)
      | Some out => reverse out
      | None => B "."             (* not reached: [clean_loop_total] *)
      end
  end.

(** [path.Clean] *)
Definition Clean (p : string) : string := str (clean (B p)).

(** The body of [Join]'s loop: one element appended to [buf]. *)
Definition join_step (buf e : bytes) : bytes :=
  if (0 <? length buf)%nat || negb (bytes_eqb e []) then
    (if (0 <? length buf)%nat then buf ++ ["/"%char] else buf) ++ e
  else buf.

Definition join (elem : list bytes) : bytes :=
  if (sum_list (length <$> elem) =? 0)%nat then []
  else clean (foldl join_step [] elem).

(** [path.Join] *)
Definition Join (elem : list string) : string :=
  str (join ((λ e, B e) <$> elem)).

End path.

(** ** Errors

    A Go [error] value is modelled by its message (for the errors of the
    standard library, by the fixed part of it).  [result] is the pair
    "value, error" of a Go function that returns either. *)

Definition error := string.

Inductive result (A : Type) : Type :=
  | Ok (a : A)
  | Err (e : error).
Arguments Ok {A} a.
Arguments Err {A} e.

#[global] Instance result_ret : MRet result := λ A a, Ok a.
#[global] Instance result_bind : MBind result := λ A B f r,
  match r with
  | Ok a => f a
  | Err e => Err e
  end.

(** ** Package [net/url] *)

Module url.

Inductive encoding :=
  | encodePath | encodePathSegment | encodeHost | encodeZone
  | encodeUserPassword | encodeQueryComponent | encodeFragment.

#[global] Instance encoding_eq_dec : EqDecision encoding.
Proof. solve_decision. Defined.

Definition ishex (c : ascii) : bool :=
  isDigit c || byte_in "a" "f" c || byte_in "A" "F" c.

Definition unhex (c : ascii) : nat :=
  if isDigit c then byte_val c - 48
  else if byte_in "a" "f" c then byte_val c - 97 + 10
  else if byte_in "A" "F" c then byte_val c - 65 + 10
  else 0.

(** [shouldEscape(c, mode)]: whether the byte is escaped when it appears
    in the given part of a URL. *)
Definition shouldEscape (c : ascii) (mode : encoding) : bool :=
  if isAlnum c then false
  else if (bool_decide (mode = encodeHost) || bool_decide (mode = encodeZone))
          && (byte_mem c "!$&'()*+,;=:[]<>" || Ascii.eqb c "034")
  then false
  else if byte_mem c "-_.~" then false
  else if byte_mem c "$&+,/:;=?@" then
    match mode with
    | encodePath => Ascii.eqb c "?"
    | encodePathSegment => byte_mem c "/;,?"
    | encodeUserPassword => byte_mem c "@/?:"
    | encodeQueryComponent => true
    | encodeFragment => false
    | encodeHost | encodeZone => true
    end
  else if bool_decide (mode = encodeFragment) && byte_mem c "!()*" then false
  else true.

(** First loop of [unescape]: every [%] is followed by two hex digits and
    the host restrictions hold. *)
Fixpoint unescape_check (mode : encoding) (s : bytes) : option error :=
  match s with
  | [] => None
  | c :: rest =>
      if Ascii.eqb c "%" then
        match rest with
        | h1 :: h2 :: rest' =>
            if negb (ishex h1 && ishex h2) then Some "invalid URL escape"
            else if bool_decide (mode = encodeHost) && (unhex h1 <? 8)%nat
                    && negb (bytes_eqb [c; h1; h2] (B "%25"))
            then Some "invalid URL escape"
            else if bool_decide (mode = encodeZone)
                    && negb (bytes_eqb [c; h1; h2] (B "%25"))
                    && negb (unhex h1 * 16 + unhex h2 =? 32)%nat
                    && shouldEscape (ascii_of_nat (unhex h1 * 16 + unhex h2)) encodeHost
            then Some "invalid URL escape"
            else unescape_check mode rest'
        | _ => Some "invalid URL escape"
        end
      else if Ascii.eqb c "+" then unescape_check mode rest
      else if (bool_decide (mode = encodeHost) || bool_decide (mode = encodeZone))
              && (byte_val c <? 128)%nat && shouldEscape c encodeHost
      then Some "invalid character in host name"
      else unescape_check mode rest
  end.

(** Second loop of [unescape]: the decoded bytes. *)
Fixpoint unescape_decode (mode : encoding) (s : bytes) : bytes :=
  match s with
  | [] => []
  | c :: rest =>
      if Ascii.eqb c "%" then
        match rest with
        | h1 :: h2 :: rest' =>
            ascii_of_nat (unhex h1 * 16 + unhex h2) :: unescape_decode mode rest'
        | _ => []
        end
      else if Ascii.eqb c "+" then
        (if bool_decide (mode = encodeQueryComponent) then " "%char else "+"%char)
          :: unescape_decode mode rest
      else c :: unescape_decode mode rest
  end.

Definition unescape (s : bytes) (mode : encoding) : result bytes :=
  match unescape_check mode s with
  | Some e => Err e
  | None => Ok (unescape_decode mode s)
  end.

Definition upperhex (n : nat) : ascii :=
  default "0"%char (B "0123456789ABCDEF" !! n).

Definition escape_byte (mode : encoding) (c : ascii) : bytes :=
  if shouldEscape c mode then
    if Ascii.eqb c " " && bool_decide (mode = encodeQueryComponent)
    then ["+"%char]
    else ["%"%char; upperhex (byte_val c / 16); upperhex (byte_val c mod 16)]
  else [c].

Definition escape (s : bytes) (mode : encoding) : bytes :=
  concat (escape_byte mode <$> s).

Definition QueryEscape (s : string) : string :=
  str (escape (B s) encodeQueryComponent).

Definition QueryUnescape (s : bytes) : result bytes :=
  unescape s encodeQueryComponent.

(** [validEncoded(s, mode)] *)
Definition validEncoded (s : bytes) (mode : encoding) : bool :=
  forallb (λ c, byte_mem c "!$&'()*+,;=:@[]%" || negb (shouldEscape c mode)) s.

Record Userinfo := {
  username : string;
  password : string;
  passwordSet : bool;
}.

Record URL := {
  Scheme : string;
  Opaque : string;          (* encoded opaque data *)
  User : option Userinfo;   (* nil when absent *)
  Host : string;            (* host or host:port *)
  Path : string;            (* path (relative paths may omit leading slash) *)
  RawPath : string;         (* encoded path hint *)
  OmitHost : bool;
  ForceQuery : bool;
  RawQuery : string;        (* encoded query values, without '?' *)
  Fragment : string;
  RawFragment : string;
}.

Definition empty_URL : URL :=
  {| Scheme := ""; Opaque := ""; User := None; Host := ""; Path := "";
     RawPath := ""; OmitHost := false; ForceQuery := false; RawQuery := "";
     Fragment := ""; RawFragment := "" |}.

Definition set_Path (u : URL) (p : string) : URL :=
  {| Scheme := Scheme u; Opaque := Opaque u; User := User u; Host := Host u;
     Path := p; RawPath := RawPath u; OmitHost := OmitHost u;
     ForceQuery := ForceQuery u; RawQuery := RawQuery u;
     Fragment := Fragment u; RawFragment := RawFragment u |}.

Definition set_RawQuery (u : URL) (q : string) : URL :=
  {| Scheme := Scheme u; Opaque := Opaque u; User := User u; Host := Host u;
     Path := Path u; RawPath := RawPath u; OmitHost := OmitHost u;
     ForceQuery := ForceQuery u; RawQuery := q;
     Fragment := Fragment u; RawFragment := RawFragment u |}.

Definition set_Host (u : URL) (h : string) : URL :=
  {| Scheme := Scheme u; Opaque := Opaque u; User := User u; Host := h;
     Path := Path u; RawPath := RawPath u; OmitHost := OmitHost u;
     ForceQuery := ForceQuery u; RawQuery := RawQuery u;
     Fragment := Fragment u; RawFragment := RawFragment u |}.

(** [stringContainsCTLByte] *)
Definition stringContainsCTLByte (s : bytes) : bool :=
  existsb (λ b, (byte_val b <? 32)%nat || (byte_val b =? 127)%nat) s.

(** [getScheme]: the loop over [rawURL], [i] being the current index. *)
Fixpoint getScheme_loop (i : nat) (rest rawURL : bytes) : result (bytes * bytes) :=
  match rest with
  | [] => Ok ([], rawURL)
  | c :: rest' =>
      if isLower c || isUpper c then getScheme_loop (S i) rest' rawURL
      else if isDigit c || byte_mem c "+-." then
        if (i =? 0)%nat then Ok ([], rawURL) else getScheme_loop (S i) rest' rawURL
      else if Ascii.eqb c ":" then
        if (i =? 0)%nat then Err "missing protocol scheme"
        else Ok (take i rawURL, rest')
      else Ok ([], rawURL)
  end.

Definition getScheme (rawURL : bytes) : result (bytes * bytes) :=
  getScheme_loop 0 rawURL rawURL.

Definition validOptionalPort (port : bytes) : bool :=
  match port with
  | [] => true
  | c :: digits => Ascii.eqb c ":" && forallb isDigit digits
  end.

(** [validUserinfo]; the Go loop ranges over runes, and every rune outside
    ASCII is refused, which is what refusing every byte above 127 does. *)
Definition validUserinfo (s : bytes) : bool :=
  forallb (λ c, isAlnum c || byte_mem c "-._:~!$&'()*+,;=%@") s.

Definition parseHost (host : bytes) : result bytes :=
  if strings.hasPrefix host (B "[") then
    match strings.lastIndexByte host "]" with
    | None => Err "missing ']' in host"
    | Some i =>
        let colonPort := drop (S i) host in
        if negb (validOptionalPort colonPort) then Err "invalid port after host"
        else
          match strings.index (take i host) (B "%25") with
          | Some zone =>
              host1 ← unescape (take zone host) encodeHost;
              host2 ← unescape (drop zone (take i host)) encodeZone;
              host3 ← unescape (drop i host) encodeHost;
              Ok (host1 ++ host2 ++ host3)
          | None => unescape host encodeHost
          end
    end
  else
    match strings.lastIndexByte host ":" with
    | Some i =>
        if negb (validOptionalPort (drop i host)) then Err "invalid port after host"
        else unescape host encodeHost
    | None => unescape host encodeHost
    end.

Definition parseAuthority (authority : bytes) : result (option Userinfo * bytes) :=
  match strings.lastIndexByte authority "@" with
  | None => host ← parseHost authority; Ok (None, host)
  | Some i =>
      host ← parseHost (drop (S i) authority);
      let userinfo := take i authority in
      if negb (validUserinfo userinfo) then Err "net/url: invalid userinfo"
      else if negb (strings.containsByte userinfo ":") then
        u ← unescape userinfo encodeUserPassword;
        Ok (Some {| username := str u; password := ""; passwordSet := false |}, host)
      else
        let '(name, pass, _) := strings.cutByte userinfo ":" in
        u ← unescape name encodeUserPassword;
        p ← unescape pass encodeUserPassword;
        Ok (Some {| username := str u; password := str p; passwordSet := true |}, host)
  end.

(** [URL.setPath]: the decoded path and, when the default encoding of it
    differs from what was written, the raw path. *)
Definition setPath (p : bytes) : result (bytes * bytes) :=
  path ← unescape p encodePath;
  Ok (path, if bytes_eqb p (escape path encodePath) then [] else p).

(** [URL.setFragment] *)
Definition setFragment (f : bytes) : result (bytes * bytes) :=
  frag ← unescape f encodeFragment;
  Ok (frag, if bytes_eqb f (escape frag encodeFragment) then [] else f).

(** [parse(rawURL, viaRequest)]: a URL without its fragment. *)
Definition parse (rawURL : bytes) (viaRequest : bool) : result URL :=
  if stringContainsCTLByte rawURL then
    Err "net/url: invalid control character in URL"
  else if bytes_eqb rawURL [] && viaRequest then Err "empty url"
  else if bytes_eqb rawURL (B "*") then Ok (set_Path empty_URL "*")
  else
    '(scheme0, rest0) ← getScheme rawURL;
    let scheme := strings.toLowerByte <$> scheme0 in
    let '(rest, rawQuery, forceQuery) :=
      if strings.hasSuffix rest0 (B "?") && (strings.countByte rest0 "?" =? 1)%nat
      then (take (length rest0 - 1) rest0, [], true)
      else let '(before, after, _) := strings.cutByte rest0 "?" in
           (before, after, false) in
    let finish (user : option Userinfo) (host rest : bytes) (omitHost : bool) :=
      '(p, rawp) ← setPath rest;
      Ok {| Scheme := str scheme; Opaque := ""; User := user; Host := str host;
            Path := str p; RawPath := str rawp; OmitHost := omitHost;
            ForceQuery := forceQuery; RawQuery := str rawQuery;
            Fragment := ""; RawFragment := "" |} in
    let authority_and_path (_ : unit) :=
      if (negb (bytes_eqb scheme [])
          || (negb viaRequest && negb (strings.hasPrefix rest (B "///"))))
         && strings.hasPrefix rest (B "//")
      then
        let authority0 := drop 2 rest in
        let '(authority, rest') :=
          match strings.indexByte authority0 "/" with
          | Some i => (take i authority0, drop i authority0)
          | None => (authority0, [])
          end in
        '(user, host) ← parseAuthority authority;
        finish user host rest' false
      else if negb (bytes_eqb scheme []) && strings.hasPrefix rest (B "/")
      then finish None [] rest true
      else finish None [] rest false in
    if negb (strings.hasPrefix rest (B "/")) then
      if negb (bytes_eqb scheme []) then
        (* rootless paths are opaque *)
        Ok {| Scheme := str scheme; Opaque := str rest; User := None; Host := "";
              Path := ""; RawPath := ""; OmitHost := false;
              ForceQuery := forceQuery; RawQuery := str rawQuery;
              Fragment := ""; RawFragment := "" |}
      else if viaRequest then Err "invalid URI for request"
      else if strings.containsByte (strings.cutByte rest "/").1.1 ":" then
        Err "first path segment in URL cannot contain colon"
      else authority_and_path ()
    else authority_and_path ().

(** [url.Parse]: [nil, err] is [Err], a URL is [Ok]. *)
Definition Parse (rawURL : string) : result URL :=
  let '(u, frag, _) := strings.cutByte (B rawURL) "#" in
  url ← parse u false;
  if bytes_eqb frag [] then Ok url
  else
    '(f, rawf) ← setFragment frag;
    Ok {| Scheme := Scheme url; Opaque := Opaque url; User := User url;
          Host := Host url; Path := Path url; RawPath := RawPath url;
          OmitHost := OmitHost url; ForceQuery := ForceQuery url;
          RawQuery := RawQuery url; Fragment := str f; RawFragment := str rawf |}.

(** [Userinfo.String] *)
Definition Userinfo_String (u : Userinfo) : bytes :=
  escape (B (username u)) encodeUserPassword
  ++ (if passwordSet u then ":"%char :: escape (B (password u)) encodeUserPassword
      else []).

(** [URL.EscapedPath] *)
Definition EscapedPath (u : URL) : bytes :=
  let raw := B (RawPath u) in
  if negb (bytes_eqb raw []) && validEncoded raw encodePath
     && match unescape raw encodePath with
        | Ok p => bytes_eqb p (B (Path u))
        | Err _ => false
        end
  then raw
  else if bytes_eqb (B (Path u)) (B "*") then B "*"
  else escape (B (Path u)) encodePath.

(** [URL.EscapedFragment] *)
Definition EscapedFragment (u : URL) : bytes :=
  let raw := B (RawFragment u) in
  if negb (bytes_eqb raw []) && validEncoded raw encodeFragment
     && match unescape raw encodeFragment with
        | Ok f => bytes_eqb f (B (Fragment u))
        | Err _ => false
        end
  then raw
  else escape (B (Fragment u)) encodeFragment.

(** [URL.String]: the URL reassembled, in the order the Go code writes
    to its buffer. *)
Definition String_ (u : URL) : string :=
  let buf0 := if negb (bytes_eqb (B (Scheme u)) []) then B (Scheme u) ++ B ":" else [] in
  let buf1 :=
    if negb (bytes_eqb (B (Opaque u)) []) then buf0 ++ B (Opaque u)
    else
      let has_auth := negb (bytes_eqb (B (Scheme u)) [])
                      || negb (bytes_eqb (B (Host u)) [])
                      || bool_decide (is_Some (User u)) in
      let buf :=
        if has_auth then
          if OmitHost u && bytes_eqb (B (Host u)) [] && bool_decide (User u = None)
          then buf0
          else
            let b1 := if negb (bytes_eqb (B (Host u)) [])
                         || negb (bytes_eqb (B (Path u)) [])
                         || bool_decide (is_Some (User u))
                      then buf0 ++ B "//" else buf0 in
            let b2 := match User u with
                      | Some ui => b1 ++ Userinfo_String ui ++ B "@"
                      | None => b1
                      end in
            if negb (bytes_eqb (B (Host u)) [])
            then b2 ++ escape (B (Host u)) encodeHost else b2
        else buf0 in
      let path := EscapedPath u in
      let buf :=
        if negb (bytes_eqb path []) && negb (strings.hasPrefix path (B "/"))
           && negb (bytes_eqb (B (Host u)) [])
        then buf ++ B "/" else buf in
      let buf :=
        if bytes_eqb buf []
           && strings.containsByte (strings.cutByte path "/").1.1 ":"
        then buf ++ B "./" else buf in
      buf ++ path in
  let buf2 :=
    if ForceQuery u || negb (bytes_eqb (B (RawQuery u)) [])
    then buf1 ++ B "?" ++ B (RawQuery u) else buf1 in
  let buf3 :=
    if negb (bytes_eqb (B (Fragment u)) [])
    then buf2 ++ B "#" ++ EscapedFragment u else buf2 in
  str buf3.

(** *** Query values: [url.Values] is [map[string][]string] *)

Abbreviation Values := (gmap string (list string)).

(** [v[key] = append(v[key], value)] *)
Definition Add (v : Values) (key value : string) : Values :=
  <[key := default [] (v !! key) ++ [value]]> v.

(** The pieces of [s] between occurrences of [sep]. *)
Fixpoint split_byte (sep : ascii) (s : bytes) : list bytes :=
  match s with
  | [] => [[]]
  | c :: s' =>
      if Ascii.eqb c sep then [] :: split_byte sep s'
      else match split_byte sep s' with
           | seg :: segs => (c :: seg) :: segs
           | [] => [[c]]
           end
  end.

(** One turn of [parseQuery]'s loop, on the piece [key] cut off at the
    next [&]; the first error met is kept. *)
Definition parseQuery_step (acc : Values * option error) (key : bytes)
    : Values * option error :=
  let '(m, err) := acc in
  let keep (e : error) := match err with Some _ => err | None => Some e end in
  if strings.containsByte key ";" then
    (m, Some "invalid semicolon separator in query")
  else if bytes_eqb key [] then (m, err)
  else
    let '(k, value, _) := strings.cutByte key "=" in
    match QueryUnescape k with
    | Err e1 => (m, keep e1)
    | Ok k1 =>
        match QueryUnescape value with
        | Err e1 => (m, keep e1)
        | Ok v1 => (Add m (str k1) (str v1), err)
        end
    end.

(** [url.ParseQuery]: [for query != "" { key, query, _ = Cut(query, "&"); ... }]
    visits the pieces between the [&]s in order. *)
Definition ParseQuery (query : string) : Values * option error :=
  foldl parseQuery_step (∅, None) (split_byte "&" (B query)).

(** [URL.Query]: [v, _ := ParseQuery(u.RawQuery); return v] *)
Definition Query (u : URL) : Values := (ParseQuery (RawQuery u)).1.

Definition str_le (a b : string) : Prop := String.leb a b.

(** The keys of [v] in increasing byte order ([slices.Sort(keys)]). *)
Definition sorted_keys (v : Values) : list string :=
  merge_sort str_le (map_to_list v).*1.

(** The inner loop of [Encode]: the values of one key appended to [buf]. *)
Definition encode_key (v : Values) (buf : bytes) (k : string) : bytes :=
  foldl (λ buf value,
           (if (0 <? length buf)%nat then buf ++ B "&" else buf)
           ++ B (QueryEscape k) ++ B "=" ++ B (QueryEscape value))
        buf (default [] (v !! k)).

(** [Values.Encode]: "URL encoded" form, sorted by key. *)
Definition Encode (v : Values) : string :=
  str (foldl (encode_key v) [] (sorted_keys v)).

End url.

(** ** Package [context] *)

Module context.

(** A context is observed through its deadline; one made by [WithTimeout]
    also carries the identity of its timer, which [cancel] releases.
    Instants and durations are integers (nanoseconds). *)
Record Context := {
  deadline : option Z;
  timer : option nat;
}.

Definition Background : Context := {| deadline := None; timer := None |}.

End context.

(** ** Package [net/http] *)

Module http.

Abbreviation Header := (gmap string (list string)).

(** The bytes of an HTTP token ([httpguts.IsTokenRune],
    [validHeaderFieldByte]). *)
Definition isToken (c : ascii) : bool :=
  isAlnum c || byte_mem c "!#$%&'*+-.^_`|~".

(** [len(method) > 0 && strings.IndexFunc(method, isNotToken) == -1] *)
Definition validMethod (method : string) : bool :=
  (0 <? length (B method))%nat && forallb isToken (B method).

(** The second loop of [canonicalMIMEHeaderKey]: first letter and letters
    after a dash in upper case, the others in lower case. *)
Fixpoint canon (upper : bool) (a : bytes) : bytes :=
  match a with
  | [] => []
  | c :: a' =>
      let c' := if upper && isLower c then strings.toUpperByte c
                else if negb upper && isUpper c then strings.toLowerByte c
                else c in
      c' :: canon (Ascii.eqb c' "-") a'
  end.

(** [textproto.CanonicalMIMEHeaderKey]: a key with a byte that is no token
    byte is returned as it is. *)
Definition CanonicalMIMEHeaderKey (s : string) : string :=
  if forallb isToken (B s) then str (canon true (B s)) else s.

(** [Header.Set] *)
Definition Set_ (h : Header) (key value : string) : Header :=
  <[CanonicalMIMEHeaderKey key := [value]]> h.

(** [*http.Request], the outgoing request. *)
Record Request := {
  ctx : context.Context;
  Method : string;
  URL : url.URL;
  Header_ : Header;
  Body : string;
  Host : string;
}.

Definition set_Header (r : Request) (h : Header) : Request :=
  {| ctx := ctx r; Method := Method r; URL := URL r; Header_ := h;
     Body := Body r; Host := Host r |}.

Definition set_URL (r : Request) (u : url.URL) : Request :=
  {| ctx := ctx r; Method := Method r; URL := u; Header_ := Header_ r;
     Body := Body r; Host := Host r |}.

(** [hasPort]: [strings.LastIndex(s, ":") > strings.LastIndex(s, "]")],
    a missing byte counting as -1. *)
Definition hasPort (s : bytes) : bool :=
  match strings.lastIndexByte s ":", strings.lastIndexByte s "]" with
  | Some i, Some j => (j <? i)%nat
  | Some _, None => true
  | None, _ => false
  end.

Definition removeEmptyPort (host : string) : string :=
  if hasPort (B host) then str (strings.trimSuffixByte (B host) ":") else host.

(** [http.NewRequestWithContext(ctx, method, url, body)], the body being
    the [bytes.Buffer] over the payload; a nil context is [None]. *)
Definition NewRequestWithContext (c : option context.Context)
    (method urlStr : string) (body : string) : result Request :=
  let method := if bool_decide (method = "") then "GET" else method in
  if negb (validMethod method) then Err "net/http: invalid method"
  else match c with
       | None => Err "net/http: nil Context"
       | Some c =>
           u ← url.Parse urlStr;
           let u := url.set_Host u (removeEmptyPort (url.Host u)) in
           Ok {| ctx := c; Method := method; URL := u; Header_ := ∅;
                 Body := body; Host := url.Host u |}
       end.

(** [*http.Response]: the status and the body stream, a resource of the
    transport named by its identity. *)
Record Response := {
  StatusCode : Z;
  RespBody : nat;
}.

(** What [client.Do] returns: a response and no error, or an error (with
    which a response may come, to be ignored). *)
Inductive DoResult :=
  | DoResponse (res : Response)
  | DoError (res : option Response) (e : error).

End http.

(** ** Package [fmt]: the verb [%v] *)

Class Fmt (T : Type) := Sprint_v : T → string.

#[global] Instance fmt_string : Fmt string := λ s, s.
#[global] Instance fmt_int : Fmt Z := λ n, pretty n.
#[global] Instance fmt_bool : Fmt bool := λ b, if b then "true" else "false".

(** ** Package [encoding/json], as the package uses it

    A Go type that goes through the codec comes with its zero value,
    [json.Marshal] and [json.Unmarshal]; the latter receives the value the
    target holds and returns what it holds afterwards, with the error. *)

Class Codec (T : Type) := {
  zero : T;
  Marshal : T → result string;
  Unmarshal : string → T → T * option error;
}.

(** ** The environment: network, clock, streams

    What the package does not decide is an oracle over an abstract [World]:
    the wall clock, the round trip of [http.Client.Do], reading and closing a
    response body, and the order in which [range] visits a map (Go leaves it
    unspecified; whatever it is, every entry is visited once). *)

Class Env := {
  World : Type;
  time_Now : World → Z;
  client_Do : http.Request → World → http.DoResult * World;
  io_ReadAll : nat → World → (string * option error) * World;
  body_Close : nat → World → World;
  range_order : gmap string string → World → list (string * string);
  range_order_perm : ∀ m w, range_order m w ≡ₚ map_to_list m;
}.

(** ** The package [gors] *)

(** HTTP method string constants to use with [Request.Method]. *)
Definition GET : string := "GET".
Definition POST : string := "POST".
Definition PUT : string := "PUT".
Definition DELETE : string := "DELETE".
Definition HEAD : string := "HEAD".
Definition PATCH : string := "PATCH".
Definition OPTIONS : string := "OPTIONS".

(** [time.Second], in nanoseconds. *)
Definition Second : Z := 1000000000.

(** [type Request struct]; a map field holds the location of the map object
    in the heap, or nil. *)
Record Request := {
  baseURL : string;
  Method : string;
  Path : string;
  Query : option nat;
  Body : string;
  Headers : option nat;
  Timeout : Z;
}.

(** [type Client struct] *)
Record Client := {
  BaseURL : string;
  DefaultHeaders : option nat;
}.

Definition set_Body (r : Request) (b : string) : Request :=
  {| baseURL := baseURL r; Method := Method r; Path := Path r; Query := Query r;
     Body := b; Headers := Headers r; Timeout := Timeout r |}.

Definition set_Timeout (r : Request) (d : Z) : Request :=
  {| baseURL := baseURL r; Method := Method r; Path := Path r; Query := Query r;
     Body := Body r; Headers := Headers r; Timeout := d |}.

(** Calls that leave the package, in the order they are made. *)
Inductive Event :=
  | EvWithDeadline (id : nat) (d : Z)
  | EvCancel (id : nat)
  | EvDo (req : http.Request)
  | EvReadAll (body : nat)
  | EvClose (body : nat)
  | EvUnmarshal (data : string).

Section gors.
Context `{env : Env}.

(** The state a call runs in: the heap of map objects and of [Request]
    structs reached through pointers, the world, the calls made so far
    (latest first) and the next timer identity. *)
Record State := {
  maps : gmap nat (gmap string string);
  reqs : gmap nat Request;
  world : World;
  trace : list Event;
  next_timer : nat;
}.

Definition set_maps (s : State) (m : gmap nat (gmap string string)) : State :=
  {| maps := m; reqs := reqs s; world := world s; trace := trace s;
     next_timer := next_timer s |}.

Definition set_reqs (s : State) (r : gmap nat Request) : State :=
  {| maps := maps s; reqs := r; world := world s; trace := trace s;
     next_timer := next_timer s |}.

Definition set_world (s : State) (w : World) : State :=
  {| maps := maps s; reqs := reqs s; world := w; trace := trace s;
     next_timer := next_timer s |}.

Definition log (e : Event) (s : State) : State :=
  {| maps := maps s; reqs := reqs s; world := world s; trace := e :: trace s;
     next_timer := next_timer s |}.

(** A call returns, or panics; either way it leaves a state. *)
Inductive Outcome (A : Type) : Type :=
  | Done (a : A) (s : State)
  | Panic (msg : string) (s : State).
Arguments Done {A} a s.
Arguments Panic {A} msg s.

Definition M (A : Type) : Type := State → Outcome A.

#[global] Instance M_ret : MRet M := λ A a s, Done a s.
#[global] Instance M_bind : MBind M := λ A B f m s,
  match m s with
  | Done a s' => f a s'
  | Panic msg s' => Panic msg s'
  end.

Definition panic {A} (msg : string) : M A := λ s, Panic msg s.

(** [defer d(); body]: [d] runs when the function returns or panics. *)
Definition defer {A} (d : State → State) (body : M A) : M A := λ s,
  match body s with
  | Done a s' => Done a (d s')
  | Panic msg s' => Panic msg (d s')
  end.

Definition final_state {A} (o : Outcome A) : State :=
  match o with
  | Done _ s => s
  | Panic _ s => s
  end.

Definition nil_dereference : string :=
  "runtime error: invalid memory address or nil pointer dereference".
Definition nil_map_write : string := "assignment to entry in nil map".

(** [make(map[string]string)] *)
Definition make_map : M nat := λ s,
  let l := fresh (dom (maps s)) in
  Done l (set_maps s (<[l := ∅]> (maps s))).

(** The entries of a map value; a nil map has none. *)
Definition map_entries (s : State) (m : option nat) : gmap string string :=
  default ∅ (m ≫= λ l, maps s !! l).

(** [m[key] = value] *)
Definition map_store (m : option nat) (key value : string) : M unit := λ s,
  match m ≫= λ l, (λ mm, (l, mm)) <$> maps s !! l with
  | Some (l, mm) => Done () (set_maps s (<[l := <[key := value]> mm]> (maps s)))
  | None => Panic nil_map_write s
  end.

(** [for k, v := range m]: the entries in the order of this iteration. *)
Definition range (m : option nat) : M (list (string * string)) := λ s,
  Done (range_order (map_entries s m) (world s)) s.

Fixpoint for_each {A} (l : list A) (body : A → M unit) : M unit :=
  match l with
  | [] => mret ()
  | x :: l' => body x ;; for_each l' body
  end.

(** [&request]: the struct moves to the heap. *)
Definition new_req (r : Request) : M nat := λ s,
  let p := fresh (dom (reqs s)) in
  Done p (set_reqs s (<[p := r]> (reqs s))).

(** [*r] for reading a field; a pointer to nothing is nil. *)
Definition load_req (p : nat) : M Request := λ s,
  match reqs s !! p with
  | Some r => Done r s
  | None => Panic nil_dereference s
  end.

Definition store_req (p : nat) (r : Request) : M unit := λ s,
  Done () (set_reqs s (<[p := r]> (reqs s))).

(** [func (c *Client) SetDefaultHeaders(h map[string]string)]: the map is
    stored as passed, the client afterwards is returned. *)
Definition SetDefaultHeaders (c : Client) (h : option nat) : Client :=
  {| BaseURL := BaseURL c; DefaultHeaders := h |}.

(** [func (c *Client) AddDefaultHeader(key string, value interface{})] *)
Definition AddDefaultHeader {T} `{Fmt T} (c : Client) (key : string) (value : T)
    : M Client :=
  c' ← match DefaultHeaders c with
       | None => l ← make_map; mret (SetDefaultHeaders c (Some l))
       | Some _ => mret c
       end;
  map_store (DefaultHeaders c') key (Sprint_v value) ;;
  mret c'.

(** [func (r *Request) SetHeader(key string, value interface{})] *)
Definition SetHeader {T} `{Fmt T} (r : nat) (key : string) (value : T) : M unit :=
  req ← load_req r;
  map_store (Headers req) key (Sprint_v value).

(** [func (r *Request) SetQuery(key string, value interface{})] *)
Definition SetQuery {T} `{Fmt T} (r : nat) (key : string) (value : T) : M unit :=
  req ← load_req r;
  map_store (Query req) key (Sprint_v value).

(** [func (c Client) NewRequest(method string, path string) *Request] *)
Definition NewRequest (c : Client) (method path : string) : M nat :=
  q ← make_map;
  h ← make_map;
  request ← new_req {| baseURL := BaseURL c; Method := method; Path := path;
                       Query := Some q; Body := ""; Headers := Some h;
                       Timeout := 10 * Second |};
  defaults ← range (DefaultHeaders c);
  for_each defaults (λ kv, SetHeader request kv.1 kv.2) ;;
  mret request.

(** [func (r *Request) SetTimeout(d time.Duration)] *)
Definition SetTimeout (r : nat) (d : Z) : M unit :=
  req ← load_req r;
  store_req r (set_Timeout req d).

(** [func (r *Request) SetBody(body []byte)] *)
Definition SetBody (r : nat) (body : string) : M unit :=
  req ← load_req r;
  store_req r (set_Body req body).

(** [func (r *Request) SetJSONBody(v interface{}) error] *)
Definition SetJSONBody {T} `{Codec T} (r : nat) (v : T) : M (option error) :=
  match Marshal v with
  | Err err => mret (Some err)
  | Ok j =>
      req ← load_req r;
      store_req r (set_Body req j) ;;
      SetHeader r "Content-Type" "application/json" ;;
      mret None
  end.

(** [client.Do(req)] *)
Definition Do (req : http.Request) : M http.DoResult := λ s,
  let '(res, w) := client_Do req (world s) in
  Done res (set_world (log (EvDo req) s) w).

(** The URL of the outgoing request: lines 133-138 of [SendWithCtx], for a
    base URL that parsed. *)
Definition join_URL (apiURL : url.URL) (p : string) : url.URL :=
  let apiURL := url.set_Path apiURL (path.Join [url.Path apiURL; p]) in
  if strings.HasSuffix p "/"
  then url.set_Path apiURL (url.Path apiURL +:+ "/")
  else apiURL.

(** The header and query loops, lines 149-159. *)
Definition apply_headers (req : http.Request) (hs : list (string * string))
    : http.Request :=
  http.set_Header req (foldl (λ h kv, http.Set_ h kv.1 kv.2) (http.Header_ req) hs).

Definition apply_query (req : http.Request) (qs : list (string * string))
    : http.Request :=
  let q := foldl (λ q kv, url.Add q kv.1 kv.2) (url.Query (http.URL req)) qs in
  http.set_URL req (url.set_RawQuery (http.URL req) (url.Encode q)).

(** [func (r *Request) SendWithCtx(ctx context.Context)], returning the
    response and the error.
    The error of [url.Parse] is dropped; when there is one the URL is nil
    and the assignment to its [Path] dereferences it. *)
Definition SendWithCtx (r : nat) (ctx : option context.Context)
    : M (option http.Response * option error) :=
  this ← load_req r;
  match url.Parse (baseURL this) with
  | Err _ => panic nil_dereference
  | Ok apiURL =>
      let apiURL := join_URL apiURL (Path this) in
      match http.NewRequestWithContext ctx (Method this) (url.String_ apiURL)
              (Body this) with
      | Err err => mret (None, Some err)
      | Ok req =>
          hs ← range (Headers this);
          let req := apply_headers req hs in
          qs ← range (Query this);
          let req := apply_query req qs in
          res ← Do req;
          match res with
          | http.DoError _ err => mret (None, Some err)
          | http.DoResponse res => mret (Some res, None)
          end
      end
  end.

(** [context.WithDeadline(parent, d)]: the earlier of the parent's
    deadline and [d], and the timer that [cancel] stops. *)
Definition WithDeadline (parent : context.Context) (d : Z)
    : M (context.Context * nat) := λ s,
  let id := next_timer s in
  let dl := match context.deadline parent with
            | Some cur => if (cur <? d)%Z then cur else d
            | None => d
            end in
  Done ({| context.deadline := Some dl; context.timer := Some id |}, id)
       {| maps := maps s; reqs := reqs s; world := world s;
          trace := EvWithDeadline id dl :: trace s; next_timer := S id |}.

(** [context.WithTimeout(parent, timeout)] is
    [WithDeadline(parent, time.Now().Add(timeout))]. *)
Definition WithTimeout (parent : context.Context) (timeout : Z)
    : M (context.Context * nat) := λ s,
  WithDeadline parent (time_Now (world s) + timeout) s.

(** The [cancel] function of the context with timer [id]. *)
Definition cancel (id : nat) : State → State := log (EvCancel id).

(** [func (r *Request) Send()], returning the response and the error. *)
Definition Send (r : nat) : M (option http.Response * option error) :=
  this ← load_req r;
  '(ctx, id) ← WithTimeout context.Background (Timeout this);
  defer (cancel id) (SendWithCtx r (Some ctx)).

(** [io.ReadAll(res.Body)] *)
Definition ReadAll (body : nat) : M (string * option error) := λ s,
  let '(res, w) := io_ReadAll body (world s) in
  Done res (set_world (log (EvReadAll body) s) w).

(** [res.Body.Close()], as a deferred call. *)
Definition Close (body : nat) : State → State := λ s,
  set_world (log (EvClose body) s) (body_Close body (world s)).

(** [json.Unmarshal(body, &j)] *)
Definition unmarshal {T} `{Codec T} (body : string) (j : T) : M (T * option error) :=
  λ s, Done (Unmarshal body j) (log (EvUnmarshal body) s).

(** [func SendWithJSONResponse[T any](r *Request)], returning the value, the
    response and the error. *)
Definition SendWithJSONResponse (T : Type) `{Codec T} (r : nat)
    : M (T * option http.Response * option error) :=
  '(res, err) ← Send r;
  let j : T := zero in
  match err with
  | Some err => mret (j, res, Some err)
  | None =>
      match res with
      | None => panic nil_dereference
      | Some resp =>
          '(body, err) ← ReadAll (http.RespBody resp);
          defer (Close (http.RespBody resp))
            match err with
            | Some err => mret (j, res, Some err)
            | None =>
                '(j, err) ← unmarshal body j;
                match err with
                | Some err => mret (j, res, Some err)
                | None => mret (j, res, None)
                end
            end
      end
  end.

(** [func NewClient(baseUrl string) Client] *)
Definition NewClient (baseUrl : string) : Client :=
  {| BaseURL := baseUrl; DefaultHeaders := None |}.

End gors.

Arguments Done {env A} a s.
Arguments Panic {env A} msg s.

(** ** A model of [encoding/json] for the types used below

    The scanner follows the grammar [json.Valid] accepts; strings are kept
    as written between their quotes.  The decoders follow the rules of
    [json.Unmarshal]: a value that does not fit its target is skipped, the
    first such mismatch is reported once the input has been decoded as far
    as it goes, and a syntax error leaves the target alone. *)

Module json.

#[warnings="-register-all"]
Inductive Value :=
  | Null
  | Bool (b : bool)
  | Number (lit : bytes)
  | String_ (raw : bytes)
  | Array (items : list Value)
  | Object (members : list (bytes * Value)).

Definition quote : ascii := "034".
Definition backslash : ascii := "092".

Definition isSpace (c : ascii) : bool :=
  Ascii.eqb c " " || Ascii.eqb c "009" || Ascii.eqb c "010" || Ascii.eqb c "013".

Fixpoint skip_ws (s : bytes) : bytes :=
  match s with
  | c :: s' => if isSpace c then skip_ws s' else s
  | [] => []
  end.

Fixpoint span_digits (s : bytes) : bytes * bytes :=
  match s with
  | c :: s' =>
      if isDigit c then let '(ds, rest) := span_digits s' in (c :: ds, rest)
      else ([], s)
  | [] => ([], [])
  end.

(** A number: an optional minus sign; a zero, or a digit that is not zero
    followed by digits; optionally a point and digits; optionally an
    exponent, which is e or E, an optional sign and digits. *)
Definition scan_number (s : bytes) : option (bytes * bytes) :=
  let '(sign, s1) := match s with
                     | c :: s' => if Ascii.eqb c "-" then ([c], s') else ([], s)
                     | [] => ([], s)
                     end in
  int_part ← match s1 with
             | c :: s2 =>
                 if Ascii.eqb c "0" then Some ([c], s2)
                 else if isDigit c then
                   let '(ds, rest) := span_digits s2 in Some (c :: ds, rest)
                 else None
             | [] => None
             end;
  let '(int, s3) := int_part in
  frac_part ← match s3 with
              | c :: s4 =>
                  if Ascii.eqb c "." then
                    let '(ds, rest) := span_digits s4 in
                    if bytes_eqb ds [] then None else Some (c :: ds, rest)
                  else Some ([], s3)
              | [] => Some ([], s3)
              end;
  let '(frac, s5) := frac_part in
  exp_part ← match s5 with
             | c :: s6 =>
                 if Ascii.eqb c "e" || Ascii.eqb c "E" then
                   let '(esign, s7) :=
                     match s6 with
                     | d :: s' => if Ascii.eqb d "+" || Ascii.eqb d "-"
                                  then ([d], s') else ([], s6)
                     | [] => ([], s6)
                     end in
                   let '(ds, rest) := span_digits s7 in
                   if bytes_eqb ds [] then None else Some (c :: esign ++ ds, rest)
                 else Some ([], s5)
             | [] => Some ([], s5)
             end;
  let '(exp, rest) := exp_part in
  Some (sign ++ int ++ frac ++ exp, rest).

(** A string after its opening quote: what stands before the closing
    quote, and the rest. *)
Fixpoint scan_string (s : bytes) : option (bytes * bytes) :=
  match s with
  | [] => None
  | c :: s' =>
      if Ascii.eqb c quote then Some ([], s')
      else if Ascii.eqb c backslash then
        match s' with
        | e :: s'' =>
            if byte_mem e "bfnrt/" || Ascii.eqb e backslash || Ascii.eqb e quote then
              '(raw, rest) ← scan_string s''; Some (c :: e :: raw, rest)
            else if Ascii.eqb e "u" then
              match s'' with
              | h1 :: h2 :: h3 :: h4 :: s3 =>
                  if forallb url.ishex [h1; h2; h3; h4] then
                    '(raw, rest) ← scan_string s3;
                    Some (c :: e :: h1 :: h2 :: h3 :: h4 :: raw, rest)
                  else None
              | _ => None
              end
            else None
        | [] => None
        end
      else if (byte_val c <? 32)%nat then None
      else '(raw, rest) ← scan_string s'; Some (c :: raw, rest)
  end.

Definition scan_literal (lit : string) (v : Value) (s : bytes)
    : option (Value * bytes) :=
  if strings.hasPrefix s (B lit) then Some (v, drop (length (B lit)) s) else None.

(** Recursive descent; every call is made after one more byte was read,
    so [length s + 1] levels are enough. *)
Fixpoint scan_value (fuel : nat) (s : bytes) : option (Value * bytes) :=
  match fuel with
  | O => None
  | S fuel =>
      match skip_ws s with
      | [] => None
      | c :: s' =>
          if Ascii.eqb c "{" then
            match skip_ws s' with
            | c1 :: s1 =>
                if Ascii.eqb c1 "}" then Some (Object [], s1)
                else '(ms, rest) ← scan_members fuel (c1 :: s1); Some (Object ms, rest)
            | [] => None
            end
          else if Ascii.eqb c "[" then
            match skip_ws s' with
            | c1 :: s1 =>
                if Ascii.eqb c1 "]" then Some (Array [], s1)
                else '(vs, rest) ← scan_elements fuel (c1 :: s1); Some (Array vs, rest)
            | [] => None
            end
          else if Ascii.eqb c quote then
            '(raw, rest) ← scan_string s'; Some (String_ raw, rest)
          else if Ascii.eqb c "t" then scan_literal "true" (Bool true) (c :: s')
          else if Ascii.eqb c "f" then scan_literal "false" (Bool false) (c :: s')
          else if Ascii.eqb c "n" then scan_literal "null" Null (c :: s')
          else '(lit, rest) ← scan_number (c :: s'); Some (Number lit, rest)
      end
  end
with scan_members (fuel : nat) (s : bytes) : option (list (bytes * Value) * bytes) :=
  match fuel with
  | O => None
  | S fuel =>
      match skip_ws s with
      | c :: s' =>
          if Ascii.eqb c quote then
            '(key, s1) ← scan_string s';
            match skip_ws s1 with
            | c1 :: s2 =>
                if Ascii.eqb c1 ":" then
                  '(v, s3) ← scan_value fuel s2;
                  match skip_ws s3 with
                  | c2 :: s4 =>
                      if Ascii.eqb c2 "," then
                        '(ms, rest) ← scan_members fuel s4; Some ((key, v) :: ms, rest)
                      else if Ascii.eqb c2 "}" then Some ([(key, v)], s4)
                      else None
                  | [] => None
                  end
                else None
            | [] => None
            end
          else None
      | [] => None
      end
  end
with scan_elements (fuel : nat) (s : bytes) : option (list Value * bytes) :=
  match fuel with
  | O => None
  | S fuel =>
      '(v, s1) ← scan_value fuel s;
      match skip_ws s1 with
      | c :: s2 =>
          if Ascii.eqb c "," then
            '(vs, rest) ← scan_elements fuel s2; Some (v :: vs, rest)
          else if Ascii.eqb c "]" then Some ([v], s2)
          else None
      | [] => None
      end
  end.

(** The whole input is one value between white space. *)
Definition scan (data : string) : option Value :=
  '(v, rest) ← scan_value (S (length (B data))) (B data);
  if bytes_eqb (skip_ws rest) [] then Some v else None.

Definition syntax_error : error := "json: syntax error".
Definition type_error (value target : string) : error :=
  "json: cannot unmarshal " +:+ value +:+ " into Go " +:+ target.

Definition kind (v : Value) : string :=
  match v with
  | Null => "null"
  | Bool _ => "bool"
  | Number _ => "number"
  | String_ _ => "string"
  | Array _ => "array"
  | Object _ => "object"
  end.

Definition first_error (a b : option error) : option error :=
  match a with
  | Some _ => a
  | None => b
  end.

(** [strconv.ParseInt(lit, 10, 64)] on a number as JSON writes it: digits
    after an optional minus sign, within 64 bits. *)
Definition parseInt (lit : bytes) : option Z :=
  let '(neg, ds) := match lit with
                    | c :: ds => if Ascii.eqb c "-" then (true, ds) else (false, lit)
                    | [] => (false, [])
                    end in
  if bytes_eqb ds [] || negb (forallb isDigit ds) then None
  else
    let n := foldl (λ acc d, acc * 10 + Z.of_nat (byte_val d - 48))%Z 0%Z ds in
    let n := if neg then (- n)%Z else n in
    if ((- 2 ^ 63 <=? n) && (n <? 2 ^ 63))%Z then Some n else None.

(** Decoding into an [int] that holds [cur]; [target] says what is being
    filled, for the error. *)
Definition decode_int (target : string) (v : Value) (cur : Z) : Z * option error :=
  match v with
  | Null => (cur, None)
  | Number lit =>
      match parseInt lit with
      | Some n => (n, None)
      | None => (cur, Some (type_error ("number " +:+ str lit) target))
      end
  | _ => (cur, Some (type_error (kind v) target))
  end.

(** Decoding into a [[]int] that holds [cur] (nil is [None]): the slice is
    refilled from its first element on and cut to the number of elements
    read; an element that is new starts at zero. *)
Definition decode_ints (v : Value) (cur : option (list Z))
    : option (list Z) * option error :=
  match v with
  | Null => (None, None)
  | Array items =>
      let old := default [] cur in
      let step (acc : list Z * option error) (item : Value) :=
        let '(n, e) := decode_int "value of type int" item
                                  (default 0%Z (old !! length acc.1)) in
        (acc.1 ++ [n], first_error acc.2 e) in
      let '(l, err) := foldl step ([], None) items in
      (Some l, err)
  | _ => (cur, Some (type_error (kind v) "value of type []int"))
  end.

Definition hex_val (h1 h2 h3 h4 : ascii) : N :=
  N.of_nat (((url.unhex h1 * 16 + url.unhex h2) * 16 + url.unhex h3) * 16
            + url.unhex h4).

(** [utf8.EncodeRune], a surrogate or a value out of range giving U+FFFD. *)
Definition encodeRune (r : N) : bytes :=
  let b (n : N) := ascii_of_N n in
  if (r <? 128)%N then [b r]
  else if (r <? 2048)%N then [b (192 + r / 64)%N; b (128 + r mod 64)%N]
  else if ((55296 <=? r) && (r <? 57344) || (1114111 <? r))%N
  then [b 239%N; b 191%N; b 189%N]
  else if (r <? 65536)%N
  then [b (224 + r / 4096)%N; b (128 + r / 64 mod 64)%N; b (128 + r mod 64)%N]
  else [b (240 + r / 262144)%N; b (128 + r / 4096 mod 64)%N;
        b (128 + r / 64 mod 64)%N; b (128 + r mod 64)%N].

(** [utf16.DecodeRune] of a pair, when it is one. *)
Definition surrogate_pair (r1 r2 : N) : option N :=
  if ((55296 <=? r1) && (r1 <? 56320) && (56320 <=? r2) && (r2 <? 57344))%N
  then Some ((r1 - 55296) * 1024 + (r2 - 56320) + 65536)%N
  else None.

Definition simple_escape (e : ascii) : ascii :=
  if Ascii.eqb e "b" then "008"
  else if Ascii.eqb e "f" then "012"
  else if Ascii.eqb e "n" then "010"
  else if Ascii.eqb e "r" then "013"
  else if Ascii.eqb e "t" then "009"
  else e.

(** [unquote] on the inside of a scanned string: escapes are decoded.
    (Bytes that are not UTF-8 are copied as they are, where Go puts
    U+FFFD; the difference shows only outside ASCII.) *)
Fixpoint unquote (raw : bytes) : bytes :=
  match raw with
  | [] => []
  | c :: raw' =>
      if Ascii.eqb c backslash then
        match raw' with
        | [] => []
        | e :: rest1 =>
            if Ascii.eqb e "u" then
              match rest1 with
              | h1 :: h2 :: h3 :: h4 :: rest =>
                  let r1 := hex_val h1 h2 h3 h4 in
                  match rest with
                  | c' :: e' :: k1 :: k2 :: k3 :: k4 :: rest' =>
                      match (if Ascii.eqb c' backslash && Ascii.eqb e' "u"
                             then surrogate_pair r1 (hex_val k1 k2 k3 k4)
                             else None) with
                      | Some r => encodeRune r ++ unquote rest'
                      | None => encodeRune r1 ++ unquote rest
                      end
                  | _ => encodeRune r1 ++ unquote rest
                  end
              | _ => []
              end
            else simple_escape e :: unquote rest1
        end
      else c :: unquote raw'
  end.

(** A key names a field when it is the field's name, also in another case
    (names here are ASCII, for which Go's folding is that of letters). *)
Definition key_is (field : string) (raw_key : bytes) : bool :=
  bytes_eqb (strings.toUpperByte <$> unquote raw_key)
            (strings.toUpperByte <$> B field).

(** [json.Unmarshal(data, &j)] through a decoder of the target's type:
    the input is checked first, and a syntax error leaves [j] alone. *)
Definition unmarshal_with {T} (decode : Value → T → T * option error)
    (data : string) (cur : T) : T * option error :=
  match scan data with
  | Some v => decode v cur
  | None => (cur, Some syntax_error)
  end.

End json.

(** *** Three Go types with their codecs *)

(** [[]int]; nil is [None]. *)
Definition Ints : Type := option (list Z).

Definition marshal_Ints (v : Ints) : string :=
  match v with
  | None => "null"
  | Some l =>
      "[" +:+ foldl (λ acc n, (if bool_decide (acc = "") then acc else acc +:+ ",")
                               +:+ pretty n) "" l +:+ "]"
  end.

#[global] Instance codec_Ints : Codec Ints := {
  zero := None;
  Marshal v := Ok (marshal_Ints v);
  Unmarshal := json.unmarshal_with json.decode_ints;
}.

(** [type Item struct { X int `json:"x"` }] *)
Record Item := { X : Z }.

Definition decode_Item (v : json.Value) (cur : Item) : Item * option error :=
  match v with
  | json.Null => (cur, None)
  | json.Object members =>
      foldl (λ (acc : Item * option error) (m : bytes * json.Value),
               if json.key_is "x" m.1 then
                 let '(n, e) := json.decode_int "struct field Item.x of type int"
                                  m.2 (X acc.1) in
                 ({| X := n |}, json.first_error acc.2 e)
               else acc)
            (cur, None) members
  | _ => (cur, Some (json.type_error (json.kind v) "value of type Item"))
  end.

#[global] Instance codec_Item : Codec Item := {
  zero := {| X := 0 |};
  Marshal v := Ok ("{" +:+ str [json.quote] +:+ "x" +:+ str [json.quote] +:+ ":"
                   +:+ pretty (X v) +:+ "}");
  Unmarshal := json.unmarshal_with decode_Item;
}.

(** [type Sealed struct { secret int }]: the only field is unexported, and
    the codec neither writes nor fills it. *)
Record Sealed := { secret : Z }.

Definition decode_Sealed (v : json.Value) (cur : Sealed) : Sealed * option error :=
  match v with
  | json.Null | json.Object _ => (cur, None)
  | _ => (cur, Some (json.type_error (json.kind v) "value of type Sealed"))
  end.

#[global] Instance codec_Sealed : Codec Sealed := {
  zero := {| secret := 0 |};
  Marshal v := Ok "{}";
  Unmarshal := json.unmarshal_with decode_Sealed;
}.

(** [chan int]: a type [json.Marshal] refuses. *)
Inductive Chan := MkChan.

#[global] Instance codec_Chan : Codec Chan := {
  zero := MkChan;
  Marshal v := Err "json: unsupported type: chan int";
  Unmarshal data cur :=
    json.unmarshal_with
      (λ v cur, match v with
                | json.Null => (cur, None)
                | _ => (cur, Some (json.type_error (json.kind v) "value of type chan int"))
                end) data cur;
}.

(** *** Scripted environments

    The world is the clock; a round trip takes one tick and gives what [do]
    says, reading a body gives [read], and [range] visits a map in the order
    of its keys. *)

Definition scripted (do : http.Request → http.DoResult)
    (read : string * option error) : Env := {|
  World := Z;
  time_Now := λ w, w;
  client_Do := λ req w, (do req, (w + 1)%Z);
  io_ReadAll := λ _ w, (read, w);
  body_Close := λ _ w, w;
  range_order := λ m _, map_to_list m;
  range_order_perm := λ m _, reflexivity (map_to_list m);
|}.

(** No server answers. *)
Definition refusing : Env :=
  scripted (λ _, http.DoError None "dial tcp: connection refused") ("", None).

(** The server answers 200 with [payload]. *)
Definition serving (payload : string) : Env :=
  scripted (λ _, http.DoResponse {| http.StatusCode := 200; http.RespBody := 0 |})
           (payload, None).

(** The server answers 200 and the body breaks off while it is read. *)
Definition breaking : Env :=
  scripted (λ _, http.DoResponse {| http.StatusCode := 200; http.RespBody := 0 |})
           ("", Some "unexpected EOF").

(** An empty heap at instant [w]. *)
Definition start `{env : Env} (w : World) : State :=
  {| maps := ∅; reqs := ∅; world := w; trace := []; next_timer := 0 |}.

(** ** Notions used in the statements *)

(** A value passed as [interface{}] to a setter. *)
Record Any := { any_type : Type; any_fmt : Fmt any_type; any_val : any_type }.

(** The calls that change headers: on the client, or on a request. *)
Inductive Op :=
  | OpSetDefaultHeaders (h : option nat)
  | OpAddDefaultHeader (key : string) (value : Any)
  | OpSetHeader (key : string) (value : Any).

Definition is_client_op (o : Op) : Prop :=
  match o with
  | OpSetHeader _ _ => False
  | _ => True
  end.

Definition is_request_op (o : Op) : Prop :=
  match o with
  | OpSetHeader _ _ => True
  | _ => False
  end.

(** No two slashes in a row. *)
Fixpoint no_double (l : bytes) : Prop :=
  match l with
  | c :: l' =>
      match l' with
      | c' :: _ => ¬ (c = "/"%char ∧ c' = "/"%char)
      | [] => True
      end ∧ no_double l'
  | [] => True
  end.

(** The last byte written is no slash, unless the buffer is the root. *)
Definition ends_ok (rooted : bool) (out : bytes) : Prop :=
  match out with
  | [] => True
  | c :: out' => c ≠ "/"%char ∨ (rooted = true ∧ out' = [])
  end.

(** The invariant of [Clean]'s loop on its buffer [out] (latest byte first)
    and on the mark [dotdot]. *)
Definition tidy (rooted : bool) (out : bytes) (dotdot : nat) : Prop :=
  no_double out ∧ ends_ok rooted out ∧ dotdot ≤ length out
  ∧ ends_ok rooted (drop (length out - dotdot) out).

(** Whether an event is the closing of the body [b], a round trip, a decoding. *)
Definition is_close (b : nat) (e : Event) : bool :=
  match e with
  | EvClose b' => bool_decide (b' = b)
  | _ => false
  end.

Definition is_unmarshal (e : Event) : bool :=
  match e with
  | EvUnmarshal _ => true
  | _ => false
  end.

(** How often the body [b] is closed in a run of events. *)
Definition closes (b : nat) (t : list Event) : nat :=
  length (filter (λ e, is_close b e) t).

(** The values a key has in query values; none when the key is absent. *)
Definition values_of (q : url.Values) (k : string) : list string :=
  default [] (q !! k).

(** All entries of a list added to query values, as the loop over
    [r.Query] does. *)
Definition add_all (q : url.Values) (kvs : list (string * string)) : url.Values :=
  foldl (λ q kv, url.Add q kv.1 kv.2) q kvs.

(** A string that ends with one slash and not with two. *)
Definition one_trailing_slash (s : string) : Prop :=
  ∃ l, B s = l ++ ["/"%char] ∧ strings.hasSuffix l (B "/") = false.

(** The URLs of the round trips among the calls, latest first. *)
Definition sent_urls (t : list Event) : list string :=
  omap (λ e, match e with
             | EvDo req => Some (url.String_ (http.URL req))
             | _ => None
             end) t.

Section notions.
Context `{env : Env}.

(** A computation that leaves the heap as it found it, however it ends. *)
Definition heap_kept {A} (m : M A) : Prop :=
  ∀ s, maps (final_state (m s)) = maps s ∧ reqs (final_state (m s)) = reqs s.

Definition heap_kept_fun (d : State → State) : Prop :=
  ∀ s, maps (d s) = maps s ∧ reqs (d s) = reqs s.

(** Writing the entries of a list into a map, as [range] with [SetHeader]
    in its body does. *)
Definition store_all (mm : gmap string string) (kvs : list (string * string))
    : gmap string string :=
  foldl (λ m kv, <[kv.1 := kv.2]> m) mm kvs.

(** One call, on the client [c] or on the request [r]; the client
    afterwards is returned. *)
Definition run_op (r : nat) (c : Client) (o : Op) : M Client :=
  match o with
  | OpSetDefaultHeaders h => mret (SetDefaultHeaders c h)
  | OpAddDefaultHeader k v => @AddDefaultHeader _ _ (any_fmt v) c k (any_val v)
  | OpSetHeader k v => @SetHeader _ _ (any_fmt v) r k (any_val v) ;; mret c
  end.

Fixpoint run_ops (r : nat) (c : Client) (ops : list Op) : M Client :=
  match ops with
  | [] => mret c
  | o :: ops' => c' ← run_op r c o; run_ops r c' ops'
  end.

(** The header map [lh] of a request is an object of the heap and not the
    client's default map. *)
Definition apart (s : State) (c : Client) (lh : nat) : Prop :=
  lh ∈ dom (maps s) ∧ DefaultHeaders c ≠ Some lh.

(** What a call returned, if it did. *)
Definition returned {A} (o : Outcome A) : option A :=
  match o with
  | Done a _ => Some a
  | Panic _ _ => None
  end.

(** The message of the panic, if the call panicked. *)
Definition panicked {A} (o : Outcome A) : option string :=
  match o with
  | Done _ _ => None
  | Panic msg _ => Some msg
  end.

(** [Send] as the specification words it: the dispatch of [SendWithCtx]
    under a signal of the package's own, whose deadline lies the Request's
    timeout after the instant the dispatch begins, and which is released
    when the dispatch returns. *)
Definition Send_spec (r : nat) : M (option http.Response * option error) := λ s,
  match reqs s !! r with
  | None => Panic nil_dereference s
  | Some this =>
      let begins := time_Now (world s) in
      let id := next_timer s in
      let signal := {| context.deadline := Some (begins + Timeout this)%Z;
                       context.timer := Some id |} in
      let armed := {| maps := maps s; reqs := reqs s; world := world s;
                      trace := EvWithDeadline id (begins + Timeout this) :: trace s;
                      next_timer := S id |} in
      match SendWithCtx r (Some signal) armed with
      | Done res s' => Done res (log (EvCancel id) s')
      | Panic msg s' => Panic msg (log (EvCancel id) s')
      end
  end.

End notions.

(** Unfolding the monad and the calls that only read or log. *)
Ltac munfold :=
  unfold mbind, M_bind, mret, M_ret, panic, defer, load_req, store_req, range,
    Do, ReadAll, unmarshal, Close, cancel, WithTimeout, WithDeadline in *;
  simpl in *.

(** *** Sample data *)

Definition example_base : string := "https://api.example.com".

(** The base URL with a line feed after it, as read from a file. *)
Definition base_with_newline : string := example_base +:+ String "010" "".

Definition ok200 : http.Response := {| http.StatusCode := 200; http.RespBody := 0 |}.

Definition qt : string := String json.quote "".

(** The body [{"x": "not-a-number"}] *)
Definition not_a_number_body : string :=
  "{" +:+ qt +:+ "x" +:+ qt +:+ ": " +:+ qt +:+ "not-a-number" +:+ qt +:+ "}".

(** A client with one default header, and the heap that holds its map. *)
Definition bearer_client : Client :=
  {| BaseURL := example_base; DefaultHeaders := Some 0 |}.

Definition bearer_state `{env : Env} (w : World) : State :=
  {| maps := {[0 := {["Authorization" := "Bearer t"]}]}; reqs := ∅; world := w;
     trace := []; next_timer := 0 |}.

Definition a_string (s : string) : Any :=
  {| any_type := string; any_fmt := fmt_string; any_val := s |}.

(** The state after [NewClient(base).NewRequest(method, path)] at instant 0,
    the Request being at location 0. *)
Definition fresh_request `{env : Env} (w : World) (base method path : string) : State :=
  final_state (NewRequest (NewClient base) method path (start w)).


(** ** Sequences of calls on a Request *)

(** A value passed as [interface{}] to [SetJSONBody], with its codec. *)
Record AnyJSON := { json_type : Type; json_codec : Codec json_type; json_val : json_type }.

(** The calls that fill in a Request. *)
Inductive Setter :=
  | CallSetHeader (key : string) (value : Any)
  | CallSetQuery (key : string) (value : Any)
  | CallSetBody (body : string)
  | CallSetTimeout (d : Z)
  | CallSetJSONBody (v : AnyJSON).

(** The string stored for a value: [fmt.Sprintf("%v", value)]. *)
Definition formatted (x : Any) : string := @Sprint_v _ (any_fmt x) (any_val x).

(** A Request as its reader sees it: the fields of the struct, with the
    entries of the two maps in place of the references to them. *)
Record View := {
  view_baseURL : string;
  view_Method : string;
  view_Path : string;
  view_Query : gmap string string;
  view_Body : string;
  view_Headers : gmap string string;
  view_Timeout : Z;
}.

(** What a call is expected to do to that view: one field, or one key of one
    map, is written; [SetJSONBody] writes the body and the content type, or
    nothing when the value cannot be marshaled. *)
Definition after_call (v : View) (c : Setter) : View :=
  match c with
  | CallSetHeader k x =>
      {| view_baseURL := view_baseURL v; view_Method := view_Method v;
         view_Path := view_Path v; view_Query := view_Query v;
         view_Body := view_Body v;
         view_Headers := <[k := formatted x]> (view_Headers v);
         view_Timeout := view_Timeout v |}
  | CallSetQuery k x =>
      {| view_baseURL := view_baseURL v; view_Method := view_Method v;
         view_Path := view_Path v;
         view_Query := <[k := formatted x]> (view_Query v);
         view_Body := view_Body v; view_Headers := view_Headers v;
         view_Timeout := view_Timeout v |}
  | CallSetBody b =>
      {| view_baseURL := view_baseURL v; view_Method := view_Method v;
         view_Path := view_Path v; view_Query := view_Query v;
         view_Body := b; view_Headers := view_Headers v;
         view_Timeout := view_Timeout v |}
  | CallSetTimeout d =>
      {| view_baseURL := view_baseURL v; view_Method := view_Method v;
         view_Path := view_Path v; view_Query := view_Query v;
         view_Body := view_Body v; view_Headers := view_Headers v;
         view_Timeout := d |}
  | CallSetJSONBody x =>
      match @Marshal _ (json_codec x) (json_val x) with
      | Ok j =>
          {| view_baseURL := view_baseURL v; view_Method := view_Method v;
             view_Path := view_Path v; view_Query := view_Query v;
             view_Body := j;
             view_Headers := <["Content-Type" := "application/json"]> (view_Headers v);
             view_Timeout := view_Timeout v |}
      | Err _ => v
      end
  end.

Section calls.
Context `{env : Env}.

(** One call on the Request [r]; the error of [SetJSONBody] is dropped. *)
Definition call (r : nat) (c : Setter) : M unit :=
  match c with
  | CallSetHeader k x => @SetHeader _ _ (any_fmt x) r k (any_val x)
  | CallSetQuery k x => @SetQuery _ _ (any_fmt x) r k (any_val x)
  | CallSetBody b => SetBody r b
  | CallSetTimeout d => SetTimeout r d
  | CallSetJSONBody x =>
      @SetJSONBody _ _ (json_codec x) r (json_val x) ;; mret ()
  end.

Definition calls (r : nat) (cs : list Setter) : M unit := for_each cs (call r).

(** The view of the Request behind the pointer [r]. *)
Definition view (s : State) (r : nat) : option View :=
  this ← reqs s !! r;
  Some {| view_baseURL := baseURL this; view_Method := Method this;
          view_Path := Path this; view_Query := map_entries s (Query this);
          view_Body := Body this; view_Headers := map_entries s (Headers this);
          view_Timeout := Timeout this |}.

(** The Request [r] with its two maps, which are objects of the heap. *)
Definition owns (s : State) (r : nat) (lq lh : nat) : Prop :=
  ∃ this, reqs s !! r = Some this ∧ Query this = Some lq ∧ Headers this = Some lh
          ∧ lq ∈ dom (maps s) ∧ lh ∈ dom (maps s).

(** [AddDefaultHeader] for each entry of a list, in order. *)
Fixpoint add_defaults (c : Client) (kvs : list (string * Any)) : M Client :=
  match kvs with
  | [] => mret c
  | kv :: kvs' =>
      c' ← @AddDefaultHeader _ _ (any_fmt kv.2) c kv.1 (any_val kv.2);
      add_defaults c' kvs'
  end.

(** The Request cannot be dispatched: the pointer is nil, or [url.Parse]
    rejects the base URL. *)
Definition undispatchable (s : State) (r : nat) : Prop :=
  reqs s !! r = None
  ∨ ∃ this e, reqs s !! r = Some this ∧ url.Parse (baseURL this) = Err e.

End calls.

(** The value [Header.Set] leaves under the canonical key [K] after the loop
    over the entries [hs]: that of the last entry whose key has this
    canonical form. *)
Definition sent_header (hs : list (string * string)) (K : string)
    : option (list string) :=
  (λ kv, [kv.2]) <$> last (filter (λ kv, http.CanonicalMIMEHeaderKey kv.1 = K) hs).

(** ** The URL as it is written and read *)

(** The cut of [parse] at the query: what is left of the URL after its
    scheme, split into the part before the first question mark, the raw
    query after it, and whether the query is there but empty. *)
Definition cut_query (rest0 : bytes) : bytes * bytes * bool :=
  if strings.hasSuffix rest0 (B "?") && (strings.countByte rest0 "?" =? 1)%nat
  then (take (length rest0 - 1) rest0, [], true)
  else let '(before, after, _) := strings.cutByte rest0 "?" in
       (before, after, false).

(** The bytes a scheme is made of. *)
Definition scheme_byte (c : ascii) : bool :=
  isLower c || isUpper c || isDigit c || byte_mem c "+-.".

(** The question mark and the number sign, which end the path of a URL. *)
Definition ends_path (c : ascii) : Prop := c = "?"%char ∨ c = "#"%char.

(** The bytes [Encode] writes for one value of one key, and the buffer
    after one more pair. *)
Definition pair_bytes (kv : string * string) : bytes :=
  B (url.QueryEscape kv.1) ++ B "=" ++ B (url.QueryEscape kv.2).

Definition write_pair (buf : bytes) (kv : string * string) : bytes :=
  (if (0 <? length buf)%nat then buf ++ B "&" else buf) ++ pair_bytes kv.

(** The pairs of query values in the order [Encode] writes them. *)
Definition pairs_of (q : url.Values) : list (string * string) :=
  url.sorted_keys q ≫= λ k, (λ v, (k, v)) <$> default [] (q !! k).

(** ** Plain base URLs *)

(** The bytes of a plain host name, and of a plain path. *)
Definition host_byte (c : ascii) : bool := isAlnum c || byte_mem c ".-".
Definition path_byte (c : ascii) : bool := isAlnum c || byte_mem c "/._-~".

(** A plain base URL: [http] or [https], a host name of letters, digits,
    dots and dashes, and a path that is empty or starts with a slash and
    is made of letters, digits, slashes, dots, dashes, underscores and
    tildes. *)
Definition plain_base (scheme host path : string) : Prop :=
  (scheme = "http" ∨ scheme = "https")
  ∧ forallb host_byte (B host) = true
  ∧ forallb path_byte (B path) = true
  ∧ (path = "" ∨ strings.HasPrefix path "/" = true).

Definition plain_URL (scheme host path : string) : url.URL :=
  {| url.Scheme := scheme; url.Opaque := ""; url.User := None; url.Host := host;
     url.Path := path; url.RawPath := ""; url.OmitHost := false;
     url.ForceQuery := false; url.RawQuery := ""; url.Fragment := "";
     url.RawFragment := "" |}.

(** The path as [URL.String] writes it behind a host: with a slash before
    it when it is not empty and starts with none. *)
Definition sent_path (path : string) : string :=
  if bool_decide (path = "") then ""
  else if strings.HasPrefix path "/" then path else "/" +:+ path.

(** *** More sample data *)

(** A Request written as a literal, its two maps nil, at location 0. *)
Definition literal_request : Request :=
  {| baseURL := ""; Method := GET; Path := "/items"; Query := None; Body := "";
     Headers := None; Timeout := 0 |}.

Definition literal_state `{env : Env} (w : World) : State :=
  {| maps := ∅; reqs := {[0 := literal_request]}; world := w; trace := [];
     next_timer := 0 |}.

Definition an_int (n : Z) : Any := {| any_type := Z; any_fmt := fmt_int; any_val := n |}.

(** * Properties *)

(** ** The heap under the calls of the package *)

Section frame.
Context `{env : Env}.

Lemma heap_kept_ret {A} (a : A) : heap_kept (mret a).
Proof. by intros s. Qed.

Lemma heap_kept_panic {A} msg : heap_kept (@panic env A msg).
Proof. by intros s. Qed.

Lemma heap_kept_bind {A B} (m : M A) (f : A → M B) :
  heap_kept m → (∀ a, heap_kept (f a)) → heap_kept (m ≫= f).
Proof.
  intros Hm Hf s. unfold mbind, M_bind.
  specialize (Hm s). destruct (m s) as [a s'|msg s']; simpl in *; [|done].
  destruct (Hf a s') as [-> ->]. done.
Qed.

Lemma heap_kept_defer {A} d (m : M A) :
  heap_kept_fun d → heap_kept m → heap_kept (defer d m).
Proof.
  intros Hd Hm s. unfold defer. specialize (Hm s).
  destruct (m s) as [a s'|msg s']; simpl in *;
    destruct (Hd s') as [-> ->]; done.
Qed.

Lemma heap_kept_load_req p : heap_kept (load_req p).
Proof. intros s. unfold load_req. by destruct (reqs s !! p). Qed.

Lemma heap_kept_range m : heap_kept (range m).
Proof. by intros s. Qed.

Lemma heap_kept_Do req : heap_kept (Do req).
Proof. intros s. unfold Do. by destruct (client_Do req (world s)). Qed.

Lemma heap_kept_ReadAll b : heap_kept (ReadAll b).
Proof. intros s. unfold ReadAll. by destruct (io_ReadAll b (world s)). Qed.

Lemma heap_kept_unmarshal {T} `{Codec T} data (j : T) : heap_kept (unmarshal data j).
Proof. by intros s. Qed.

Lemma heap_kept_WithTimeout parent d : heap_kept (WithTimeout parent d).
Proof. by intros s. Qed.

Lemma heap_kept_cancel id : heap_kept_fun (cancel id).
Proof. by intros s. Qed.

Lemma heap_kept_Close b : heap_kept_fun (Close b).
Proof. by intros s. Qed.

Lemma heap_kept_SendWithCtx r ctx : heap_kept (SendWithCtx r ctx).
Proof.
  unfold SendWithCtx.
  apply heap_kept_bind; [apply heap_kept_load_req|intros this].
  destruct (url.Parse (baseURL this)) as [apiURL|e]; [|apply heap_kept_panic].
  destruct (http.NewRequestWithContext _ _ _ _) as [req|e]; [|apply heap_kept_ret].
  apply heap_kept_bind; [apply heap_kept_range|intros hs].
  apply heap_kept_bind; [apply heap_kept_range|intros qs].
  apply heap_kept_bind; [apply heap_kept_Do|intros [res|res e]];
    apply heap_kept_ret.
Qed.

Lemma heap_kept_Send r : heap_kept (Send r).
Proof.
  unfold Send.
  apply heap_kept_bind; [apply heap_kept_load_req|intros this].
  apply heap_kept_bind; [apply heap_kept_WithTimeout|intros [ctx id]].
  apply heap_kept_defer; [apply heap_kept_cancel|apply heap_kept_SendWithCtx].
Qed.

Lemma heap_kept_SendWithJSONResponse T `{Codec T} r :
  heap_kept (SendWithJSONResponse T r).
Proof.
  unfold SendWithJSONResponse.
  apply heap_kept_bind; [apply heap_kept_Send|intros [res [e|]]];
    [apply heap_kept_ret|].
  destruct res as [resp|]; [|apply heap_kept_panic].
  apply heap_kept_bind; [apply heap_kept_ReadAll|intros [body err]].
  apply heap_kept_defer; [apply heap_kept_Close|].
  destruct err; [apply heap_kept_ret|].
  apply heap_kept_bind; [apply heap_kept_unmarshal|intros [j [e|]]];
    apply heap_kept_ret.
Qed.

(** C9: dispatching a Request, through [SendWithCtx] or through [Send],
    leaves the Request as it was: the struct behind the pointer (base URL,
    method, path, body, timeout and the two map references) and the
    entries of its query and header maps are the same afterwards, whether
    the call returns or panics; so is every other struct and map of the
    heap, and a second dispatch reads the same Request. *)
Theorem dispatch_leaves_request_unchanged (r : nat) (ctx : option context.Context)
    (s : State) :
  let after_ctx := final_state (SendWithCtx r ctx s) in
  let after_send := final_state (Send r s) in
  (reqs after_ctx !! r = reqs s !! r
   ∧ (∀ m : option nat, map_entries after_ctx m = map_entries s m)
   ∧ maps after_ctx = maps s ∧ reqs after_ctx = reqs s)
  ∧ (reqs after_send !! r = reqs s !! r
     ∧ (∀ m : option nat, map_entries after_send m = map_entries s m)
     ∧ maps after_send = maps s ∧ reqs after_send = reqs s).
Proof.
  intros after_ctx after_send.
  destruct (heap_kept_SendWithCtx r ctx s) as [Hm Hr].
  destruct (heap_kept_Send r s) as [Hm' Hr'].
  fold after_ctx in Hm, Hr. fold after_send in Hm', Hr'.
  unfold map_entries.
  rewrite Hm, Hr, Hm', Hr'. repeat split; done.
Qed.

End frame.

(** ** [path.Clean] and trailing slashes *)

Section clean.

Lemma eqb_slash c : Ascii.eqb c "/" = true ↔ c = "/"%char.
Proof. apply Ascii.eqb_eq. Qed.

Lemma copy_element_spec rest : ∀ out,
  ∃ elem rest', path.copy_element rest out = (rest', reverse elem ++ out)
    ∧ rest = elem ++ rest' ∧ Forall (λ c, c ≠ "/"%char) elem
    ∧ (∀ c r, rest = c :: r → c ≠ "/"%char → elem ≠ []).
Proof.
  induction rest as [|c rest IH]; intros out; simpl.
  - exists [], []. repeat split; [constructor|]. intros ?? [=].
  - destruct (Ascii.eqb c "/") eqn:Hc.
    + exists [], (c :: rest). repeat split; [constructor|].
      intros ?? [= <- <-] Hne. by apply eqb_slash in Hc.
    + destruct (IH (c :: out)) as (elem & rest' & -> & -> & Hall & _).
      exists (c :: elem), rest'. rewrite reverse_cons, <- app_assoc. simpl.
      repeat split; [|done].
      constructor; [|done]. intros ->. by rewrite Ascii.eqb_refl in Hc.
Qed.

Lemma no_double_tail c l : no_double (c :: l) → no_double l.
Proof. by intros [_ H]. Qed.

Lemma no_double_cons c l :
  no_double l → (c ≠ "/"%char ∨ match l with c' :: _ => c' ≠ "/"%char | [] => True end) →
  no_double (c :: l).
Proof.
  intros Hl Hc. split; [|done]. destruct l as [|c' l]; [done|].
  intros [-> ->]. by destruct Hc.
Qed.

Lemma no_double_elem elem : ∀ out,
  Forall (λ c, c ≠ "/"%char) elem → no_double out →
  no_double (reverse elem ++ out).
Proof.
  induction elem as [|c elem IH]; intros out Hall Hout; [done|].
  inversion_clear Hall as [|?? Hc Hall']. rewrite reverse_cons, <- app_assoc. simpl.
  apply IH; [done|]. apply no_double_cons; [done|by left].
Qed.

Lemma head_elem elem out :
  Forall (λ c, c ≠ "/"%char) elem → elem ≠ [] →
  ∃ c l, reverse elem ++ out = c :: l ∧ c ≠ "/"%char.
Proof.
  intros Hall Hne. destruct (reverse elem) as [|c l] eqn:Hr.
  { apply (f_equal reverse) in Hr. rewrite reverse_involutive in Hr. done. }
  exists c, (l ++ out). split; [done|].
  rewrite Forall_forall in Hall. apply Hall.
  apply elem_of_reverse. rewrite Hr. by left.
Qed.

Lemma backtrack_spec rooted dotdot out :
  no_double out → (dotdot < length out)%nat →
  ends_ok rooted (drop (length out - dotdot) out) →
  tidy rooted (path.backtrack dotdot out) dotdot.
Proof.
  induction out as [|c out IH]; intros Hnd Hlen Hpre; simpl in *; [lia|].
  destruct (decide (dotdot < length out)%nat) as [Hlt|Hge].
  - assert ((dotdot <? length out)%nat = true) as -> by by apply Nat.ltb_lt.
    replace (S (length out) - dotdot)%nat with (S (length out - dotdot)) in Hpre by lia.
    simpl in Hpre. destruct (Ascii.eqb c "/") eqn:Hc; simpl.
    + apply eqb_slash in Hc as ->.
      split; [by eapply no_double_tail|]. split.
      { destruct out as [|c' out]; [done|]. left. intros ->. by destruct Hnd as [[] _]. }
      split; [lia|done].
    + apply IH; [by eapply no_double_tail|done..].
  - assert ((dotdot <? length out)%nat = false) as -> by by apply Nat.ltb_ge; lia.
    simpl. assert (dotdot = length out) as -> by lia.
    replace (S (length out) - length out)%nat with 1%nat in Hpre by lia.
    simpl in Hpre. rewrite drop_0 in Hpre.
    split; [by eapply no_double_tail|]. split; [done|]. split; [done|].
    by rewrite Nat.sub_diag, drop_0.
Qed.

Lemma backtrack_length dotdot out :
  (length (path.backtrack dotdot out) ≤ length out)%nat.
Proof.
  induction out as [|c out IH]; simpl; [done|].
  destruct (_ && _); lia.
Qed.

(** The loop ends within [length rest] turns and keeps the buffer tidy. *)
Lemma clean_loop_spec rooted fuel : ∀ rest out dotdot,
  (length rest ≤ fuel)%nat → tidy rooted out dotdot →
  ∃ out' dotdot', path.clean_loop fuel rooted rest out dotdot = Some out'
                  ∧ tidy rooted out' dotdot'.
Proof.
  induction fuel as [|fuel IH]; intros rest out dotdot Hfuel Htidy.
  { destruct rest; [|simpl in Hfuel; lia]. by exists out, dotdot. }
  destruct rest as [|c rest1]; [by exists out, dotdot|].
  simpl in Hfuel. cbn [path.clean_loop].
  destruct (Ascii.eqb c "/") eqn:Hslash.
  { apply IH; [lia|done]. }
  destruct (Ascii.eqb c "." && path.end_or_slash rest1) eqn:Hdot.
  { apply IH; [lia|done]. }
  match goal with |- context [Ascii.eqb c "." && ?b] =>
    destruct (Ascii.eqb c "." && b) eqn:Hdd end.
  - (* .. element *)
    assert (length (tail rest1) ≤ fuel)%nat as Hrest.
    { destruct rest1; simpl in *; lia. }
    destruct Htidy as (Hnd & Hend & Hle & Hpre).
    destruct (dotdot <? length out)%nat eqn:Hback.
    + apply IH; [done|]. apply Nat.ltb_lt in Hback.
      by apply backtrack_spec.
    + apply Nat.ltb_ge in Hback. destruct rooted; simpl.
      { apply IH; [done|]. by repeat split. }
      apply IH; [done|].
      assert (no_double (if (0 <? length out)%nat then "/"%char :: out else out))
        as Hnd1.
      { destruct out as [|c' out]; [done|].
        change (no_double ("/"%char :: c' :: out)).
        apply no_double_cons; [done|]. right. destruct Hend as [?|[? _]]; done. }
      split.
      { apply no_double_cons; [|by left]. apply no_double_cons; [done|by left]. }
      split; [by left|]. split; [done|].
      rewrite Nat.sub_diag, drop_0. by left.
  - (* real path element *)
    destruct Htidy as (Hnd & Hend & Hle & Hpre).
    set (out1 := if (rooted && negb (length out =? 1)%nat)
                    || (negb rooted && negb (length out =? 0)%nat)
                 then "/"%char :: out else out).
    assert (no_double out1 ∧ (length out ≤ length out1)%nat
            ∧ drop (length out1 - dotdot) out1 = drop (length out - dotdot) out)
      as (Hnd1 & Hlen1 & Hdrop1).
    { subst out1. destruct (_ || _) eqn:Hcond; [|done].
      split; [|split; [simpl; lia|]].
      - apply no_double_cons; [done|]. right.
        destruct out as [|c' out]; [done|].
        destruct Hend as [?|[-> ->]]; [done|]. by cbn in Hcond.
      - simpl. replace (S (length out) - dotdot)%nat
          with (S (length out - dotdot)) by lia. done. }
    destruct (copy_element_spec (c :: rest1) out1)
      as (elem & rest' & Hcopy & Hsplit & Hall & Hne).
    rewrite Hcopy.
    assert (c ≠ "/"%char) as Hc by (intros ->; by rewrite Ascii.eqb_refl in Hslash).
    specialize (Hne _ _ eq_refl Hc).
    apply IH.
    + apply (f_equal length) in Hsplit. rewrite length_app in Hsplit. simpl in Hsplit.
      destruct elem; [done|]. simpl in Hsplit. lia.
    + split; [by apply no_double_elem|].
      destruct (head_elem elem out1 Hall Hne) as (c' & l & Heq & Hc').
      split; [rewrite Heq; by left|].
      rewrite length_app, length_reverse.
      split; [lia|].
      rewrite drop_app_ge by (rewrite length_reverse; lia).
      rewrite length_reverse.
      replace (length elem + length out1 - dotdot - length elem)%nat
        with (length out1 - dotdot)%nat by lia.
      by rewrite Hdrop1.
Qed.

Lemma tidy_root : tidy true ["/"%char] 1.
Proof. split; [done|]. split; [by right|]. split; [done|by right]. Qed.

Lemma tidy_empty : tidy false [] 0.
Proof. done. Qed.

Lemma hasSuffix_slash l :
  strings.hasSuffix l (B "/") = true ↔ ∃ l', l = l' ++ ["/"%char].
Proof.
  unfold strings.hasSuffix, bytes_eqb. change (B "/") with ["/"%char].
  change (length ["/"%char]) with 1%nat.
  rewrite andb_true_iff, Nat.leb_le, bool_decide_eq_true. split.
  - intros [Hlen Hd].
    exists (take (length l - 1) l). by rewrite <- Hd, take_drop.
  - intros [l' ->]. rewrite length_app. simpl. split; [lia|].
    replace (length l' + 1 - 1)%nat with (length l') by lia.
    by rewrite drop_app_length.
Qed.

(** What [clean] returns: the buffer of a loop that ended tidy, or ".". *)
Lemma clean_tidy p :
  path.clean p = B "."
  ∨ ∃ rooted out dotdot, out ≠ [] ∧ path.clean p = reverse out
                         ∧ tidy rooted out dotdot.
Proof.
  unfold path.clean. destruct p as [|c0 p']; [by left|].
  destruct (Ascii.eqb c0 "/") eqn:Hr.
  - destruct (clean_loop_spec true (length p') p' ["/"%char] 1 (le_n _) tidy_root)
      as (out' & dotdot' & -> & Htidy).
    destruct out' as [|c out']; [by left|]. right. by exists true, (c :: out'), dotdot'.
  - destruct (clean_loop_spec false (length (c0 :: p')) (c0 :: p') [] 0 (le_n _)
                tidy_empty) as (out' & dotdot' & -> & Htidy).
    destruct out' as [|c out']; [by left|]. right. by exists false, (c :: out'), dotdot'.
Qed.

(** [Clean] leaves a trailing slash on the root only. *)
Lemma clean_trailing_slash p :
  strings.hasSuffix (path.clean p) (B "/") = true → path.clean p = B "/".
Proof.
  destruct (clean_tidy p) as [->|(rooted & out & dotdot & Hne & -> & Htidy)];
    [done|].
  intros [l' Hl']%hasSuffix_slash.
  destruct out as [|c out]; [done|]. rewrite reverse_cons in Hl'.
  apply app_inj_tail in Hl' as [_ ->].
  destruct Htidy as (_ & [?|[_ ->]] & _); done.
Qed.

Lemma clean_nonempty p : path.clean p ≠ [].
Proof.
  destruct (clean_tidy p) as [->|(rooted & out & dotdot & Hne & -> & _)]; [done|].
  intros Hr. apply Hne. apply (f_equal reverse) in Hr.
  by rewrite reverse_involutive in Hr.
Qed.

End clean.

(** ** Requests and their maps *)

Section requests.
Context `{env : Env}.

Lemma run_bind {A B} (m : M A) (f : A → M B) (s : State) :
  (m ≫= f) s = match m s with
               | Done a s' => f a s'
               | Panic msg s' => Panic msg s'
               end.
Proof. done. Qed.

Lemma run_ret {A} (a : A) (s : State) : (mret a : M A) s = Done a s.
Proof. done. Qed.

Lemma run_load_req p r (s : State) :
  reqs s !! p = Some r → load_req p s = Done r s.
Proof. intros H. unfold load_req. by rewrite H. Qed.

Lemma run_map_store l mm k v (s : State) :
  maps s !! l = Some mm →
  map_store (Some l) k v s = Done () (set_maps s (<[l := <[k := v]> mm]> (maps s))).
Proof. intros H. unfold map_store. simpl. by rewrite H. Qed.

Lemma run_SetHeader {T} `{Fmt T} r this lh mm k (v : T) (s : State) :
  reqs s !! r = Some this → Headers this = Some lh → maps s !! lh = Some mm →
  SetHeader r k v s
  = Done () (set_maps s (<[lh := <[k := Sprint_v v]> mm]> (maps s))).
Proof.
  intros Hr Hh Hm. unfold SetHeader. rewrite run_bind, (run_load_req _ _ _ Hr), Hh.
  by apply run_map_store.
Qed.

Lemma run_SetQuery {T} `{Fmt T} r this lq mm k (v : T) (s : State) :
  reqs s !! r = Some this → Query this = Some lq → maps s !! lq = Some mm →
  SetQuery r k v s
  = Done () (set_maps s (<[lq := <[k := Sprint_v v]> mm]> (maps s))).
Proof.
  intros Hr Hh Hm. unfold SetQuery. rewrite run_bind, (run_load_req _ _ _ Hr), Hh.
  by apply run_map_store.
Qed.

Lemma for_each_SetHeader (r : nat) this lh kvs : ∀ (s : State) mm,
  reqs s !! r = Some this → Headers this = Some lh → maps s !! lh = Some mm →
  for_each kvs (λ kv, SetHeader r kv.1 kv.2) s
  = Done () (set_maps s (<[lh := store_all mm kvs]> (maps s))).
Proof.
  induction kvs as [|[k v] kvs IH]; intros s mm Hr Hh Hm; simpl.
  - rewrite run_ret. f_equal. destruct s; unfold set_maps; simpl in *.
    f_equal. by rewrite insert_id.
  - rewrite run_bind. erewrite run_SetHeader by done.
    erewrite IH; [|done..|by apply lookup_insert_eq].
    simpl. by rewrite insert_insert_eq.
Qed.

Lemma store_all_perm (m : gmap string string) kvs :
  kvs ≡ₚ map_to_list m → store_all ∅ kvs = m.
Proof.
  intros Hp. unfold store_all.
  assert (foldl (λ m kv, <[kv.1 := kv.2]> m) ∅ kvs
          = list_to_map (reverse kvs)) as ->.
  { rewrite <- (reverse_involutive kvs) at 1. generalize (reverse kvs).
    intros l. induction l as [|[k v] l IHl]; [done|].
    rewrite reverse_cons, foldl_app. simpl. by rewrite IHl. }
  transitivity (list_to_map (map_to_list m) : gmap string string);
    [|apply list_to_map_to_list].
  apply list_to_map_proper.
  - rewrite fmap_reverse, reverse_Permutation, Hp. apply NoDup_fst_map_to_list.
  - by rewrite reverse_Permutation.
Qed.

(** What [NewRequest] returns and the heap it leaves. *)
Lemma run_NewRequest (c : Client) (method path : string) (s : State) :
  let q := fresh (dom (maps s)) in
  let h := fresh (dom (<[q := ∅]> (maps s))) in
  let r := fresh (dom (reqs s)) in
  NewRequest c method path s
  = Done r {| maps := <[h := map_entries s (DefaultHeaders c)]> (<[q := ∅]> (maps s));
              reqs := <[r := {| baseURL := BaseURL c; Method := method;
                                Path := path; Query := Some q; Body := "";
                                Headers := Some h; Timeout := 10 * Second |}]>
                        (reqs s);
              world := world s; trace := trace s; next_timer := next_timer s |}.
Proof.
  intros q h r. unfold NewRequest.
  rewrite run_bind. unfold make_map at 1. fold q.
  rewrite run_bind. unfold make_map at 1. simpl. fold h.
  rewrite run_bind. unfold new_req at 1. simpl. fold r.
  rewrite run_bind. unfold range at 1. simpl.
  rewrite run_bind.
  erewrite for_each_SetHeader;
    [|simpl; apply lookup_insert_eq|done|simpl; apply lookup_insert_eq].
  rewrite run_ret. f_equal. unfold set_maps. simpl. f_equal.
  rewrite insert_insert_eq. f_equal.
  rewrite store_all_perm with (m := map_entries s (DefaultHeaders c)); [done|].
  rewrite range_order_perm.
  match goal with |- map_to_list ?a ≡ₚ map_to_list ?b => assert (a = b) as ->; [|done] end.
  unfold map_entries. simpl.
  destruct (DefaultHeaders c) as [l|]; [simpl|done].
  destruct (decide (h = l)) as [<-|Hh].
  { rewrite lookup_insert_eq.
    assert (h ∉ dom (maps s)) as Hd.
    { intros Hin. apply (is_fresh (dom (<[q:=∅]> (maps s)))). fold h.
      rewrite dom_insert. set_solver. }
    apply not_elem_of_dom in Hd. by rewrite Hd. }
  rewrite lookup_insert_ne by done.
  destruct (decide (q = l)) as [<-|Hq].
  { rewrite lookup_insert_eq.
    pose proof (is_fresh (dom (maps s))) as Hd. fold q in Hd.
    apply not_elem_of_dom in Hd. by rewrite Hd. }
  by rewrite lookup_insert_ne.
Qed.


(** C10: every Request that [NewRequest] returns has initialized [Query]
    and [Headers] maps: both fields hold maps of the heap, distinct from
    each other, the query map empty and the header map holding the
    client's default headers (none when the client's default map is nil,
    as after [NewClient]); [NewRequest] itself never panics, and on the
    Request it returns [SetHeader] and [SetQuery] return normally, for
    every key and value, having stored the formatted value. *)
Theorem NewRequest_maps_initialized (c : Client) (method path : string) (s : State) :
  ∃ r s1 lq lh,
    NewRequest c method path s = Done r s1
    ∧ reqs s1 !! r = Some {| baseURL := BaseURL c; Method := method; Path := path;
                             Query := Some lq; Body := ""; Headers := Some lh;
                             Timeout := 10 * Second |}
    ∧ lq ≠ lh
    ∧ maps s1 !! lq = Some ∅
    ∧ maps s1 !! lh = Some (map_entries s (DefaultHeaders c))
    ∧ (∀ T (F : Fmt T) k (v : T), ∃ s2,
         SetHeader r k v s1 = Done () s2
         ∧ map_entries s2 (Some lh) !! k = Some (Sprint_v v))
    ∧ (∀ T (F : Fmt T) k (v : T), ∃ s2,
         SetQuery r k v s1 = Done () s2
         ∧ map_entries s2 (Some lq) !! k = Some (Sprint_v v)).
Proof.
  pose proof (run_NewRequest c method path s) as Hrun. simpl in Hrun.
  set (q := fresh (dom (maps s))) in *.
  set (h := fresh (dom (<[q := ∅]> (maps s)))) in *.
  set (r := fresh (dom (reqs s))) in *.
  assert (q ≠ h) as Hqh.
  { intros Heq. apply (is_fresh (dom (<[q:=∅]> (maps s)))). fold h.
    rewrite <- Heq, dom_insert. set_solver. }
  eexists r, _, q, h. split; [exact Hrun|]. simpl.
  split; [apply lookup_insert_eq|]. split; [done|].
  split; [by rewrite lookup_insert_ne, lookup_insert_eq|].
  split; [apply lookup_insert_eq|].
  split; intros T F k v; eexists.
  - split.
    + eapply run_SetHeader; simpl; [apply lookup_insert_eq|done|apply lookup_insert_eq].
    + unfold map_entries. simpl. rewrite lookup_insert_eq. simpl.
      apply lookup_insert_eq.
  - split.
    + eapply run_SetQuery; simpl; [apply lookup_insert_eq|done|].
      by rewrite lookup_insert_ne, lookup_insert_eq.
    + unfold map_entries. simpl. rewrite lookup_insert_eq. simpl.
      apply lookup_insert_eq.
Qed.

Lemma map_entries_Some (s : State) l :
  map_entries s (Some l) = default ∅ (maps s !! l).
Proof. done. Qed.

Lemma run_AddDefaultHeader_some {T} `{Fmt T} c l mm k (v : T) (s : State) :
  DefaultHeaders c = Some l → maps s !! l = Some mm →
  AddDefaultHeader c k v s
  = Done c (set_maps s (<[l := <[k := Sprint_v v]> mm]> (maps s))).
Proof.
  intros Hd Hl. destruct c as [b d]. simpl in Hd. subst d.
  unfold AddDefaultHeader, mbind, M_bind, mret, M_ret, map_store. simpl.
  by rewrite Hl.
Qed.

Lemma run_AddDefaultHeader_dangling {T} `{Fmt T} c l k (v : T) (s : State) :
  DefaultHeaders c = Some l → maps s !! l = None →
  AddDefaultHeader c k v s = Panic nil_map_write s.
Proof.
  intros Hd Hl. destruct c as [b d]. simpl in Hd. subst d.
  unfold AddDefaultHeader, mbind, M_bind, mret, M_ret, map_store. simpl.
  by rewrite Hl.
Qed.

Lemma run_AddDefaultHeader_nil {T} `{Fmt T} c k (v : T) (s : State) :
  DefaultHeaders c = None →
  AddDefaultHeader c k v s
  = Done (SetDefaultHeaders c (Some (fresh (dom (maps s)))))
         (set_maps s (<[fresh (dom (maps s)) := {[k := Sprint_v v]}]> (maps s))).
Proof.
  intros Hd. destruct c as [b d]. simpl in Hd. subst d.
  unfold AddDefaultHeader, mbind, M_bind, mret, M_ret, map_store, make_map. simpl.
  rewrite lookup_insert_eq. simpl. by rewrite insert_insert_eq.
Qed.

Lemma run_client_op r c o lh (s : State) :
  apart s c lh → is_client_op o → o ≠ OpSetDefaultHeaders (Some lh) →
  maps (final_state (run_op r c o s)) !! lh = maps s !! lh
  ∧ reqs (final_state (run_op r c o s)) = reqs s
  ∧ ∀ c' s', run_op r c o s = Done c' s' → apart s' c' lh.
Proof.
  intros [Hdom Hne] Hop Hnot. destruct o as [h|k v|k v]; [| |done]; simpl.
  - rewrite run_ret. simpl. split; [done|split; [done|]].
    intros c' s' [= <- <-]. split; [done|]. simpl. congruence.
  - destruct (DefaultHeaders c) as [l|] eqn:Hd.
    + destruct (maps s !! l) as [mm|] eqn:Hl.
      * erewrite run_AddDefaultHeader_some by done. simpl.
        rewrite lookup_insert_ne by congruence.
        split; [done|split; [done|]]. intros c' s' [= <- <-].
        split; [simpl; rewrite dom_insert; set_solver|congruence].
      * erewrite run_AddDefaultHeader_dangling by done. simpl.
        split; [done|split; [done|]]. intros c' s' [=].
    + rewrite run_AddDefaultHeader_nil by done. simpl.
      assert (fresh (dom (maps s)) ≠ lh) as Hf.
      { intros <-. by apply (is_fresh (dom (maps s))). }
      rewrite lookup_insert_ne by done.
      split; [done|split; [done|]]. intros c' s' [= <- <-].
      split; [simpl; rewrite dom_insert; set_solver|simpl; congruence].
Qed.

Lemma run_client_ops r lh ops : ∀ c (s : State),
  apart s c lh → Forall is_client_op ops →
  Forall (λ o, o ≠ OpSetDefaultHeaders (Some lh)) ops →
  maps (final_state (run_ops r c ops s)) !! lh = maps s !! lh
  ∧ reqs (final_state (run_ops r c ops s)) = reqs s.
Proof.
  induction ops as [|o ops IH]; intros c s Ha Hc Hn; simpl; [done|].
  inversion_clear Hc as [|?? Ho Hc']. inversion_clear Hn as [|?? Hno Hn'].
  destruct (run_client_op r c o lh s Ha Ho Hno) as (Hm & Hr & Hnext).
  rewrite run_bind. destruct (run_op r c o s) as [c' s'|msg s']; simpl in *; [|done].
  destruct (IH c' s' (Hnext _ _ eq_refl) Hc' Hn') as [-> ->]. done.
Qed.

Lemma run_request_ops r this lh c ops : ∀ (s : State),
  reqs s !! r = Some this → Headers this = Some lh → apart s c lh →
  Forall is_request_op ops →
  map_entries (final_state (run_ops r c ops s)) (DefaultHeaders c)
  = map_entries s (DefaultHeaders c).
Proof.
  induction ops as [|o ops IH]; intros s Hr Hh [Hdom Hne] Hops; simpl; [done|].
  inversion_clear Hops as [|?? Ho Hops']. destruct o as [| |k v]; [done..|].
  simpl. rewrite !run_bind.
  apply elem_of_dom in Hdom as [mm Hmm].
  erewrite run_SetHeader by done. rewrite run_ret.
  rewrite IH; [| done | done | | done].
  - unfold map_entries. simpl. destruct (DefaultHeaders c) as [l|]; [simpl|done].
    rewrite lookup_insert_ne; [done|congruence].
  - split; [simpl; rewrite dom_insert; set_solver|done].
Qed.

(** C5, amended: the header map of a Request made by [NewRequest] is a
    new map holding a copy of the client's default headers of that
    moment.  After any sequence of [SetDefaultHeaders] and
    [AddDefaultHeader] calls on the client the Request and the entries of
    its header map are as they were, and after any sequence of [SetHeader]
    calls on the Request the entries of the client's default map are as
    they were, provided the Request's own header map is not handed to
    [SetDefaultHeaders]: that call stores the map it is given, it does not
    copy it. *)
Theorem NewRequest_headers_independent (c : Client) (method path : string)
    (s : State) (r : nat) (s1 : State) :
  (∀ l, DefaultHeaders c = Some l → l ∈ dom (maps s)) →
  NewRequest c method path s = Done r s1 →
  ∃ this lh,
    reqs s1 !! r = Some this ∧ Headers this = Some lh
    ∧ map_entries s1 (Some lh) = map_entries s (DefaultHeaders c)
    ∧ DefaultHeaders c ≠ Some lh
    ∧ ∀ ops, Forall (λ o, o ≠ OpSetDefaultHeaders (Some lh)) ops →
        let s2 := final_state (run_ops r c ops s1) in
        (Forall is_client_op ops →
           reqs s2 !! r = Some this
           ∧ map_entries s2 (Some lh) = map_entries s1 (Some lh))
        ∧ (Forall is_request_op ops →
             map_entries s2 (DefaultHeaders c) = map_entries s1 (DefaultHeaders c)).
Proof.
  intros Hwf Hnew. rewrite run_NewRequest in Hnew. injection Hnew as <- <-.
  set (q := fresh (dom (maps s))) in *.
  set (h := fresh (dom (<[q := ∅]> (maps s)))) in *.
  assert (h ∉ dom (<[q:=∅]> (maps s))) as Hh by apply is_fresh.
  assert (DefaultHeaders c ≠ Some h) as Hne.
  { intros Hd. apply Hh. rewrite dom_insert. apply Hwf in Hd. set_solver. }
  eexists _, h. split; [apply lookup_insert_eq|]. split; [done|].
  split; [unfold map_entries at 1; simpl; by rewrite lookup_insert_eq|].
  split; [done|]. intros ops Hops s2.
  assert (apart {| maps := <[h:=map_entries s (DefaultHeaders c)]> (<[q:=∅]> (maps s));
                   reqs := <[fresh (dom (reqs s)) :=
                               {| baseURL := BaseURL c; Method := method; Path := path;
                                  Query := Some q; Body := ""; Headers := Some h;
                                  Timeout := 10 * Second |}]> (reqs s);
                   world := world s; trace := trace s;
                   next_timer := next_timer s |} c h) as Hap.
  { split; [simpl; rewrite dom_insert; set_solver|done]. }
  split; intros Hkind.
  - destruct (run_client_ops (fresh (dom (reqs s))) _ _ _ _ Hap Hkind Hops) as [Hm Hr].
    subst s2. rewrite !map_entries_Some, Hm, Hr. simpl.
    split; [apply lookup_insert_eq|done].
  - subst s2. eapply run_request_ops; [simpl; apply lookup_insert_eq|done..].
Qed.

Lemma run_store_req p r (s : State) :
  store_req p r s = Done () (set_reqs s (<[p := r]> (reqs s))).
Proof. done. Qed.

(** [SetJSONBody] on a Request whose header map is there. *)
Lemma run_SetJSONBody T `{Codec T} r (v : T) (s : State) :
  SetJSONBody r v s
  = match Marshal v with
    | Err e => Done (Some e) s
    | Ok j =>
        match reqs s !! r with
        | None => Panic nil_dereference s
        | Some this =>
            let s1 := set_reqs s (<[r := set_Body this j]> (reqs s)) in
            match Headers this ≫= λ l, (λ mm, (l, mm)) <$> maps s !! l with
            | Some (l, mm) =>
                Done None
                  (set_maps s1 (<[l := <["Content-Type" := "application/json"]> mm]>
                                  (maps s)))
            | None => Panic nil_map_write s1
            end
        end
    end.
Proof.
  unfold SetJSONBody. destruct (Marshal v) as [j|e]; [|done].
  unfold SetHeader, map_store. munfold.
  destruct (reqs s !! r) as [this|]; [|done]. simpl.
  rewrite lookup_insert_eq. simpl.
  destruct (Headers this) as [l|]; [|done]. simpl.
  destruct (maps s !! l) as [mm|]; done.
Qed.



End requests.

(** ** Dispatch *)

Section dispatch.
Context `{env : Env}.

(** The calls [SendWithCtx] makes: at most the round trip. *)
Lemma SendWithCtx_trace r ctx (s : State) :
  trace (final_state (SendWithCtx r ctx s)) = trace s
  ∨ ∃ req, trace (final_state (SendWithCtx r ctx s)) = EvDo req :: trace s.
Proof.
  unfold SendWithCtx. munfold.
  destruct (reqs s !! r) as [this|]; [|by left].
  destruct (url.Parse (baseURL this)) as [apiURL|e]; [|by left].
  destruct (http.NewRequestWithContext _ _ _ _) as [req|e]; [|by left].
  destruct (client_Do _ _) as [[res|res e] w]; right; eexists; reflexivity.
Qed.

Lemma Send_is_Send_spec r (s : State) : Send r s = Send_spec r s.
Proof.
  unfold Send, Send_spec. munfold.
  destruct (reqs s !! r) as [this|]; done.
Qed.


(** [SendWithJSONResponse] by the outcome of [Send]. *)
Lemma run_SendWithJSONResponse T `{Codec T} r (s : State) :
  SendWithJSONResponse T r s
  = match Send r s with
    | Panic msg s1 => Panic msg s1
    | Done (res, Some e) s1 => Done (zero, res, Some e) s1
    | Done (None, None) s1 => Panic nil_dereference s1
    | Done (Some resp, None) s1 =>
        let b := http.RespBody resp in
        let '(data, rerr, w2) := io_ReadAll b (world s1) in
        let s2 := set_world (log (EvReadAll b) s1) w2 in
        match rerr with
        | Some e => Done (zero, Some resp, Some e) (Close b s2)
        | None =>
            let '(j, uerr) := Unmarshal data zero in
            Done (j, Some resp, uerr) (Close b (log (EvUnmarshal data) s2))
        end
    end.
Proof.
  unfold SendWithJSONResponse. rewrite run_bind.
  destruct (Send r s) as [[[resp|] [e|]] s1|msg s1]; try done. munfold.
  destruct (io_ReadAll _ _) as [[data [e|]] w2]; [done|].
  destruct (Unmarshal data zero) as [j [e|]]; done.
Qed.

Lemma Send_trace r (s : State) :
  ∃ new, trace (final_state (Send r s)) = new ++ trace s
         ∧ Forall (λ e, is_unmarshal e = false ∧ ∀ b, is_close b e = false) new.
Proof.
  rewrite Send_is_Send_spec. unfold Send_spec.
  destruct (reqs s !! r) as [this|]; [|by exists []].
  match goal with |- context [SendWithCtx r ?c ?a] =>
    destruct (SendWithCtx_trace r c a) as [Ht|[req Ht]];
    destruct (SendWithCtx r c a) as [res s'|msg s'] end; simpl in *; rewrite Ht.
  1,2: by exists [EvCancel (next_timer s); EvWithDeadline (next_timer s) (time_Now (world s) + Timeout this)]; split; [done|repeat constructor].
  1,2: by exists [EvCancel (next_timer s); EvDo req; EvWithDeadline (next_timer s) (time_Now (world s) + Timeout this)]; split; [done|repeat constructor].
Qed.

Lemma closes_cons b e t :
  closes b (e :: t) = ((if is_close b e then 1 else 0) + closes b t)%nat.
Proof.
  unfold closes. rewrite filter_cons.
  destruct (decide _) as [Hd|Hd]; destruct (is_close b e); simpl in *; done.
Qed.

Lemma closes_none b t :
  Forall (λ e, is_unmarshal e = false ∧ ∀ b, is_close b e = false) t →
  closes b t = 0%nat.
Proof.
  induction 1 as [|e t [_ He] _ IH]; [done|].
  by rewrite closes_cons, He, IH.
Qed.

(** C8: whenever [Send] hands [SendWithJSONResponse] a response, the helper
    returns, and among the calls it made the body of that response is
    closed exactly once, on each of its ways out: the body could not be
    read, the body is not the JSON of a [T], or all went well. *)
Theorem response_body_closed_exactly_once T `{Codec T} (r : nat) (s : State)
    (resp : http.Response) (s1 : State) :
  Send r s = Done (Some resp, None) s1 →
  ∃ j err s2 new,
    SendWithJSONResponse T r s = Done (j, Some resp, err) s2
    ∧ trace s2 = new ++ trace s
    ∧ closes (http.RespBody resp) new = 1%nat.
Proof.
  intros Hsend. rewrite run_SendWithJSONResponse, Hsend.
  destruct (Send_trace r s) as (new & Ht & Hnew). rewrite Hsend in Ht. simpl in Ht.
  pose proof (closes_none (http.RespBody resp) new Hnew) as Hzero.
  simpl. destruct (io_ReadAll _ _) as [[data [e|]] w2].
  - eexists _, _, _, (EvClose (http.RespBody resp)
                      :: EvReadAll (http.RespBody resp) :: new).
    split; [done|]. split; [simpl; by rewrite Ht|].
    rewrite !closes_cons, Hzero. simpl. by rewrite bool_decide_true.
  - destruct (Unmarshal data zero) as [j uerr].
    eexists _, _, _, (EvClose (http.RespBody resp) :: EvUnmarshal data
                      :: EvReadAll (http.RespBody resp) :: new).
    split; [done|]. split; [simpl; by rewrite Ht|].
    rewrite !closes_cons, Hzero. simpl. by rewrite bool_decide_true.
Qed.

(** C3, amended: when [Send] returns an error, [SendWithJSONResponse]
    returns the zero value of [T], the response [Send] returned (nil, in
    fact) and that error, in the state [Send] left: nothing is read and no
    decoding is attempted.  When the body is read and [json.Unmarshal]
    fails on it, the helper returns the error, the response and the value
    [json.Unmarshal] left in the target: the zero value when nothing was
    stored before the failure, and otherwise a partly filled value. *)
Theorem SendWithJSONResponse_errors T `{Codec T} (r : nat) (s : State) :
  (∀ res e s1, Send r s = Done (res, Some e) s1 →
     SendWithJSONResponse T r s = Done (zero, res, Some e) s1
     ∧ ∀ e', e' ∈ trace s1 → is_unmarshal e' = true → e' ∈ trace s)
  ∧ (∀ resp s1 data w2 j e,
       Send r s = Done (Some resp, None) s1 →
       io_ReadAll (http.RespBody resp) (world s1) = (data, None, w2) →
       Unmarshal data zero = (j, Some e) →
       ∃ s2, SendWithJSONResponse T r s = Done (j, Some resp, Some e) s2).
Proof.
  split.
  - intros res e s1 Hsend. rewrite run_SendWithJSONResponse, Hsend.
    split; [by destruct res|]. intros e' Hin Hun.
    destruct (Send_trace r s) as (new & Ht & Hnew). rewrite Hsend in Ht.
    simpl in Ht. rewrite Ht in Hin. apply elem_of_app in Hin as [Hin|Hin]; [|done].
    rewrite Forall_forall in Hnew. destruct (Hnew _ Hin) as [Hno _]. congruence.
  - intros resp s1 data w2 j e Hsend Hread Hun.
    rewrite run_SendWithJSONResponse, Hsend. simpl. rewrite Hread, Hun.
    by eexists.
Qed.

(** C4: [Send] is [SendWithCtx] under a deadline signal of its own, as the
    specification words it ([Send_spec]): the deadline lies the Request's
    timeout after the instant at which [Send] begins, the result is that
    of [SendWithCtx] with this signal, and the signal is released when the
    dispatch returns (or panics).  The timeout of a Request made by
    [NewRequest] is 10 seconds. *)
Theorem Send_is_SendWithCtx_under_timeout (r : nat) :
  (∀ s : State, Send r s = Send_spec r s)
  ∧ (∀ (c : Client) method path (s : State), ∃ r' s' this,
       NewRequest c method path s = Done r' s'
       ∧ reqs s' !! r' = Some this
       ∧ Timeout this = (10 * Second)%Z)
  ∧ (10 * Second = 10000000000)%Z.
Proof.
  split; [apply Send_is_Send_spec|]. split; [|done].
  intros c method path s. eexists _, _, _.
  split; [apply run_NewRequest|]. simpl. split; [apply lookup_insert_eq|done].
Qed.


End dispatch.

(** ** The query string *)

Section query.
Context `{env : Env}.

Lemma values_of_Add q k v k' :
  values_of (url.Add q k v) k'
  = values_of q k' ++ (if decide (k = k') then [v] else []).
Proof.
  unfold values_of, url.Add. destruct (decide (k = k')) as [<-|Hne].
  - by rewrite lookup_insert_eq.
  - rewrite lookup_insert_ne by done. by rewrite app_nil_r.
Qed.

Lemma values_of_add_all kvs : ∀ q k,
  values_of (add_all q kvs) k
  = values_of q k ++ (filter (λ kv, kv.1 = k) kvs).*2.
Proof.
  induction kvs as [|[k0 v0] kvs IH]; intros q k; simpl.
  - by rewrite app_nil_r.
  - unfold add_all in *. simpl. rewrite IH, values_of_Add, filter_cons. simpl.
    destruct (decide (k0 = k)); simpl; by rewrite <- app_assoc.
Qed.

Lemma filter_key_NoDup (kvs : list (string * string)) k :
  NoDup kvs.*1 →
  (filter (λ kv, kv.1 = k) kvs).*2
  = match (list_to_map kvs : gmap string string) !! k with
    | Some v => [v]
    | None => []
    end.
Proof.
  induction kvs as [|[k0 v0] kvs IH]; intros Hnd; [done|].
  rewrite fmap_cons in Hnd. apply NoDup_cons in Hnd as [Hnot Hnd].
  rewrite filter_cons. simpl. destruct (decide (k0 = k)) as [<-|Hne].
  - rewrite lookup_insert_eq. rewrite fmap_cons. cbn [snd]. f_equal.
    rewrite IH by done.
    by rewrite (not_elem_of_list_to_map_1 (M := gmap string)).
  - rewrite lookup_insert_ne by done. by apply IH.
Qed.

(** Adding the entries of a map, in whatever order [range] visits them:
    every key keeps the values it had, followed by the map's value for it. *)
Lemma values_of_add_range (m : gmap string string) q kvs k :
  kvs ≡ₚ map_to_list m →
  values_of (add_all q kvs) k
  = values_of q k ++ match m !! k with
                     | Some v => [v]
                     | None => []
                     end.
Proof.
  intros Hp. rewrite values_of_add_all. f_equal.
  assert (NoDup kvs.*1) as Hnd by (rewrite Hp; apply NoDup_fst_map_to_list).
  rewrite filter_key_NoDup by done.
  assert ((list_to_map kvs : gmap string string) = m) as ->; [|done].
  rewrite <- (list_to_map_to_list m). by apply list_to_map_proper.
Qed.



Lemma sorted_keys_perm (q : url.Values) : url.sorted_keys q ≡ₚ (map_to_list q).*1.
Proof. apply merge_sort_Permutation. Qed.

End query.

(** ** The URL of the outgoing request *)

Section urls.
Context `{env : Env}.

Lemma B_str l : B (str l) = l.
Proof. apply String.list_ascii_of_string_of_list_ascii. Qed.

Lemma str_B s : str (B s) = s.
Proof. apply String.string_of_list_ascii_of_string. Qed.

Lemma B_app s1 s2 : B (s1 +:+ s2) = B s1 ++ B s2.
Proof. induction s1 as [|c s1 IH]; simpl; [done|]. by rewrite <- IH. Qed.

Lemma B_inj s1 s2 : B s1 = B s2 → s1 = s2.
Proof. intros H. by rewrite <- (str_B s1), <- (str_B s2), H. Qed.

(** Whenever [url.Parse] rejects the base URL of a Request, [SendWithCtx]
    panics on the nil URL, before anything is sent. *)
Lemma SendWithCtx_rejected_baseURL r ctx (s : State) this e :
  reqs s !! r = Some this → url.Parse (baseURL this) = Err e →
  SendWithCtx r ctx s = Panic nil_dereference s.
Proof. intros Hr Hp. unfold SendWithCtx. munfold. by rewrite Hr, Hp. Qed.

Lemma Send_rejected_baseURL r (s : State) this e :
  reqs s !! r = Some this → url.Parse (baseURL this) = Err e →
  panicked (Send r s) = Some nil_dereference.
Proof.
  intros Hr Hp. rewrite Send_is_Send_spec. unfold Send_spec. rewrite Hr.
  erewrite SendWithCtx_rejected_baseURL; done.
Qed.

(** When the Request's path ends with a slash, the path of the URL that
    is built is the cleaned join with one slash added; the cleaned join
    ends with no slash unless it is the root, so the built path ends with
    exactly one slash, except at the root, where it is [//]. *)
Lemma join_URL_trailing_slash (u : url.URL) (p : string) :
  strings.HasSuffix p "/" = true →
  let joined := path.Join [url.Path u; p] in
  url.Path (join_URL u p) = joined +:+ "/"
  ∧ ((joined = "/" ∧ url.Path (join_URL u p) = "//")
     ∨ (joined ≠ "/" ∧ one_trailing_slash (url.Path (join_URL u p)))).
Proof.
  intros Hp joined. unfold join_URL. rewrite Hp. simpl. fold joined.
  split; [done|].
  destruct (decide (joined = "/")) as [->|Hne]; [by left|right].
  split; [done|]. exists (B joined). split; [by rewrite B_app|].
  destruct (strings.hasSuffix (B joined) (B "/")) eqn:Hs; [|done].
  exfalso. apply Hne. subst joined. unfold path.Join in *. rewrite B_str in Hs.
  unfold path.join in *. simpl in *.
  destruct (_ =? 0)%nat eqn:Hz; [done|].
  apply clean_trailing_slash in Hs. rewrite Hs. done.
Qed.

(** The loop of [path.Clean] ends within as many turns as the path has
    bytes, from both of the states [Clean] starts it in. *)
Lemma clean_loop_ends (p : bytes) :
  is_Some (path.clean_loop (length p) false p [] 0)
  ∧ is_Some (path.clean_loop (length p) true p ["/"%char] 1).
Proof.
  split.
  - destruct (clean_loop_spec false (length p) p [] 0 (le_n _) tidy_empty)
      as (out & dotdot & -> & _). by eexists.
  - destruct (clean_loop_spec true (length p) p ["/"%char] 1 (le_n _) tidy_root)
      as (out & dotdot & -> & _). by eexists.
Qed.

End urls.

(** ** The claims on sample runs *)

(** C1: a base URL that [url.Parse] rejects (here the README's base URL with
    a line feed after it, which is a control character) makes the dispatch
    panic on the nil URL, in [SendWithCtx] and so in [Send]: the failure does
    not come back as an error. *)
Theorem dispatch_panics_on_unparsable_baseURL :
  let env := refusing in
  let s0 := fresh_request 0%Z base_with_newline GET "/items" in
  url.Parse base_with_newline = Err "net/url: invalid control character in URL"
  ∧ SendWithCtx 0 (Some context.Background) s0 = Panic nil_dereference s0
  ∧ panicked (Send 0 s0) = Some nil_dereference
  ∧ returned (Send 0 s0) = None.
Proof. vm_compute. done. Qed.

(** Other base URLs that [url.Parse] rejects. *)
Example Parse_rejects :
  url.Parse "http://[::1" = Err "missing ']' in host"
  ∧ url.Parse "://api.example.com" = Err "missing protocol scheme"
  ∧ url.Parse "http://api example.com" = Err "invalid character in host name"
  ∧ url.Parse "http://api.example.com:port" = Err "invalid port after host"
  ∧ url.Parse "http://api.example.com/%zz" = Err "invalid URL escape".
Proof. vm_compute. done. Qed.

(** C2: for the base URL [https://api.example.com], whose path is empty, and
    the Request path [/], the path of the URL that is built is [//]: it ends
    with two slashes, and the request goes to [https://api.example.com//]. *)
Theorem trailing_slash_doubled_at_root :
  let env := serving "" in
  let s0 := fresh_request 0%Z example_base GET "/" in
  (∃ u, url.Parse example_base = Ok u
        ∧ strings.HasSuffix (url.Path u) "/" = false
        ∧ strings.HasSuffix "/" "/" = true
        ∧ url.Path (join_URL u "/") = "//")
  ∧ sent_urls (trace (final_state (Send 0 s0))) = ["https://api.example.com//"].
Proof. split; [eexists; vm_compute; done|vm_compute; done]. Qed.

(** The two error cases on sample runs: no server answers, and the server
    answers the body of the specification's example. *)
Lemma SendWithJSONResponse_errors_witness :
  (let env := refusing in
   let s0 := fresh_request 0%Z example_base GET "/items" in
   SendWithJSONResponse Ints 0 s0
   = Done (zero, None, Some "dial tcp: connection refused") (final_state (Send 0 s0)))
  ∧ (let env := serving not_a_number_body in
     let s0 := fresh_request 0%Z example_base GET "/items" in
     ∃ s2, SendWithJSONResponse Item 0 s0
           = Done ({| X := 0 |}, Some ok200,
                   Some "json: cannot unmarshal string into Go struct field Item.x of type int")
                  s2).
Proof.
  split.
  - intros env s0.
    apply (proj1 (SendWithJSONResponse_errors Ints 0 s0) None). vm_compute. reflexivity.
  - intros env s0.
    apply (proj2 (SendWithJSONResponse_errors Item 0 s0) ok200 (final_state (Send 0 s0))
             not_a_number_body 1%Z);
      vm_compute; reflexivity.
Defined.

(** C3, as stated, fails: the body [[1, true]] is read and is not the JSON of
    a [[]int]; [SendWithJSONResponse] returns the decode error and the
    response, but the value is the slice [1, 0] that [json.Unmarshal] had
    filled by then, not the zero value (nil). *)
Lemma decode_error_with_partly_filled_value :
  let env := serving "[1, true]" in
  let s0 := fresh_request 0%Z example_base GET "/items" in
  returned (Send 0 s0) = Some (Some ok200, None)
  ∧ io_ReadAll 0 1%Z = ("[1, true]", None, 1%Z)
  ∧ returned (SendWithJSONResponse Ints 0 s0)
    = Some (Some [1; 0]%Z, Some ok200,
            Some "json: cannot unmarshal bool into Go value of type int")
  ∧ Some [1; 0]%Z ≠ (zero : Ints).
Proof. vm_compute. repeat split; done. Qed.

(** Independence for a client with one default header. *)
Lemma NewRequest_headers_independent_witness :
  let env := refusing in
  let s := bearer_state 0%Z in
  let s1 := final_state (NewRequest bearer_client GET "/items" s) in
  ∃ this lh,
    reqs s1 !! 0 = Some this ∧ Headers this = Some lh
    ∧ map_entries s1 (Some lh) = map_entries s (DefaultHeaders bearer_client)
    ∧ DefaultHeaders bearer_client ≠ Some lh
    ∧ ∀ ops, Forall (λ o, o ≠ OpSetDefaultHeaders (Some lh)) ops →
        let s2 := final_state (run_ops 0 bearer_client ops s1) in
        (Forall is_client_op ops →
           reqs s2 !! 0 = Some this
           ∧ map_entries s2 (Some lh) = map_entries s1 (Some lh))
        ∧ (Forall is_request_op ops →
             map_entries s2 (DefaultHeaders bearer_client)
             = map_entries s1 (DefaultHeaders bearer_client)).
Proof.
  intros env s s1.
  apply (NewRequest_headers_independent bearer_client GET "/items" s 0 s1).
  - intros l [= <-]. apply elem_of_dom. eexists. vm_compute. reflexivity.
  - vm_compute. reflexivity.
Defined.

(** C5, as stated, fails: [SetDefaultHeaders] stores the map it is given
    without copying it.  Handed the header map of the Request (its
    [Headers] field, the map at location 1), the client shares it: the
    header [X] that [AddDefaultHeader] then adds to the client's defaults
    appears among the Request's headers, and a header set on the Request
    appears among the client's defaults. *)
Lemma SetDefaultHeaders_aliases_request_headers :
  let env := refusing in
  let c := NewClient example_base in
  let s1 := fresh_request 0%Z example_base GET "/items" in
  let client_calls := [OpSetDefaultHeaders (Some 1); OpAddDefaultHeader "X" (a_string "1")] in
  let request_calls := [OpSetHeader "Y" (a_string "2")] in
  let c' := SetDefaultHeaders c (Some 1) in
  (Headers <$> reqs s1 !! 0) = Some (Some 1)
  ∧ Forall is_client_op client_calls
  ∧ map_entries s1 (Some 1) !! "X" = None
  ∧ map_entries (final_state (run_ops 0 c client_calls s1)) (Some 1) !! "X" = Some "1"
  ∧ Forall is_request_op request_calls
  ∧ map_entries s1 (DefaultHeaders c') !! "Y" = None
  ∧ map_entries (final_state (run_ops 0 c' request_calls s1)) (DefaultHeaders c') !! "Y"
    = Some "2".
Proof.
  intros env c s1 client_calls request_calls c'.
  split; [vm_compute; done|]. split; [repeat constructor|].
  split; [vm_compute; done|]. split; [vm_compute; done|].
  split; [repeat constructor|]. split; vm_compute; done.
Qed.




(** The body is closed once on the run whose decoding fails. *)
Lemma response_body_closed_exactly_once_witness :
  let env := serving "[1, true]" in
  let s0 := fresh_request 0%Z example_base GET "/items" in
  ∃ j err s2 new,
    SendWithJSONResponse Ints 0 s0 = Done (j, Some ok200, err) s2
    ∧ trace s2 = new ++ trace s0
    ∧ closes (http.RespBody ok200) new = 1%nat.
Proof.
  intros env s0.
  apply (response_body_closed_exactly_once Ints 0 s0 ok200 (final_state (Send 0 s0))).
  vm_compute. reflexivity.
Defined.

(** The built path of [/v1] joined with [/items/] ends with one slash. *)
Lemma join_URL_trailing_slash_witness :
  ∃ u, url.Parse "https://api.example.com/v1" = Ok u
       ∧ url.Path (join_URL u "/items/") = "/v1/items/"
       ∧ one_trailing_slash (url.Path (join_URL u "/items/")).
Proof.
  eexists. split; [vm_compute; reflexivity|]. split; [vm_compute; reflexivity|].
  match goal with |- one_trailing_slash (url.Path (join_URL ?u ?p)) =>
    destruct (join_URL_trailing_slash u p) as [_ [[Hroot _]|[_ Hone]]];
      [vm_compute; reflexivity|vm_compute in Hroot; discriminate|exact Hone]
  end.
Defined.

(** The panic on a rejected base URL, for a host with a blank in it. *)
Lemma SendWithCtx_rejected_baseURL_witness :
  let env := refusing in
  let s0 := fresh_request 0%Z "http://api example.com" GET "/items" in
  SendWithCtx 0 (Some context.Background) s0 = Panic nil_dereference s0.
Proof.
  intros env s0.
  eapply (SendWithCtx_rejected_baseURL 0 (Some context.Background) s0);
    [vm_compute; reflexivity|vm_compute; reflexivity].
Defined.

(** The scenario of the specification: base URL [https://api.example.com],
    default header [Authorization: Bearer t], [NewRequest(GET, "/items")],
    [SetQuery("q", "v1")]. *)
Example dispatch_scenario :
  let env := serving "" in
  let program :=
    c ← AddDefaultHeader (NewClient example_base) "Authorization" "Bearer t";
    r ← NewRequest c GET "/items";
    SetQuery r "q" "v1" ;;
    Send r in
  omap (λ e, match e with
             | EvDo req => Some (url.String_ (http.URL req),
                                 http.Header_ req !! "Authorization")
             | _ => None
             end) (trace (final_state (program (start 0%Z))))
  = [("https://api.example.com/items?q=v1", Some ["Bearer t"])].
Proof. vm_compute. done. Qed.

(** A question mark in the Request's path is part of the path: it is
    escaped in the URL and brings no query parameter. *)
Example query_in_path_is_escaped :
  let env := serving "" in
  let s0 := fresh_request 0%Z example_base GET "/items?x=1" in
  sent_urls (trace (final_state ((SetQuery 0 "q" "v" ;; Send 0) s0)))
  = ["https://api.example.com/items%3Fx=1?q=v"].
Proof. vm_compute. done. Qed.

(** ** The library models on samples *)

Example Clean_samples :
  path.Clean "" = "." ∧ path.Clean "/" = "/" ∧ path.Clean "a//b/" = "a/b"
  ∧ path.Clean "/a/../.." = "/" ∧ path.Clean "../a/../.." = "../.."
  ∧ path.Clean "/a/./b/../c/" = "/a/c" ∧ path.Clean "abc/def/.." = "abc"
  ∧ path.Clean "./" = ".".
Proof. repeat split; reflexivity. Qed.

Example Join_samples :
  path.Join [""; ""] = "" ∧ path.Join [""; "/"] = "/"
  ∧ path.Join ["/v1"; "/items/"] = "/v1/items"
  ∧ path.Join ["/v1/"; "items"] = "/v1/items" ∧ path.Join [""; "a"] = "a".
Proof. repeat split; reflexivity. Qed.

Example Parse_samples :
  url.Parse "https://api.example.com" =
    Ok {| url.Scheme := "https"; url.Opaque := ""; url.User := None;
          url.Host := "api.example.com"; url.Path := ""; url.RawPath := "";
          url.OmitHost := false; url.ForceQuery := false; url.RawQuery := "";
          url.Fragment := ""; url.RawFragment := "" |}.
Proof. vm_compute. reflexivity. Qed.

(** ** Sequences of setter calls *)

Section builder.
Context `{env : Env}.

Lemma run_SetBody r this b (s : State) :
  reqs s !! r = Some this →
  SetBody r b s = Done () (set_reqs s (<[r := set_Body this b]> (reqs s))).
Proof. intros Hr. unfold SetBody. by rewrite run_bind, (run_load_req _ _ _ Hr). Qed.

Lemma run_SetTimeout r this d (s : State) :
  reqs s !! r = Some this →
  SetTimeout r d s = Done () (set_reqs s (<[r := set_Timeout this d]> (reqs s))).
Proof. intros Hr. unfold SetTimeout. by rewrite run_bind, (run_load_req _ _ _ Hr). Qed.

(** One call on a Request that has its two maps, distinct: it returns, the
    view of the Request changes as expected, and nothing else of the heap
    changes. *)
Lemma call_step r lq lh c (s : State) :
  owns s r lq lh → lq ≠ lh →
  ∃ s', call r c s = Done () s'
        ∧ owns s' r lq lh
        ∧ view s' r = (λ v, after_call v c) <$> view s r
        ∧ (∀ r', r' ≠ r → reqs s' !! r' = reqs s !! r')
        ∧ (∀ l, l ≠ lq → l ≠ lh → maps s' !! l = maps s !! l)
        ∧ dom (maps s') = dom (maps s)
        ∧ world s' = world s ∧ trace s' = trace s.
Proof.
  intros (this & Hr & Hq & Hh & Hdq & Hdh) Hne.
  destruct (proj1 (elem_of_dom _ _) Hdq) as [mq Hmq].
  destruct (proj1 (elem_of_dom _ _) Hdh) as [mh Hmh].
  assert (∀ l (m : gmap string string), l ∈ dom (maps s) →
            dom (<[l := m]> (maps s)) = dom (maps s)) as Hdom.
  { intros l m Hl. rewrite dom_insert_L. apply subseteq_union_1_L.
    by apply singleton_subseteq_l. }
  destruct c as [k x|k x|b|d|x]; simpl.
  - erewrite run_SetHeader by done. eexists. split; [done|]. unfold owns. simpl.
    split; [exists this; rewrite Hdom by done; done|].
    unfold view. simpl. rewrite Hr. simpl. rewrite Hq, Hh.
    unfold map_entries. simpl.
    rewrite lookup_insert_eq, lookup_insert_ne, Hmq, Hmh by done. simpl.
    split; [done|]. split; [done|]. split; [|by rewrite Hdom].
    intros l _ Hl. by rewrite lookup_insert_ne.
  - erewrite run_SetQuery by done. eexists. split; [done|]. unfold owns. simpl.
    split; [exists this; rewrite Hdom by done; done|].
    unfold view. simpl. rewrite Hr. simpl. rewrite Hq, Hh.
    unfold map_entries. simpl.
    rewrite lookup_insert_eq, lookup_insert_ne, Hmq, Hmh by done. simpl.
    split; [done|]. split; [done|]. split; [|by rewrite Hdom].
    intros l Hl _. by rewrite lookup_insert_ne.
  - erewrite run_SetBody by done. eexists. split; [done|]. unfold owns. simpl.
    split; [exists (set_Body this b); by rewrite lookup_insert_eq|].
    unfold view. simpl. rewrite lookup_insert_eq, Hr. simpl.
    split; [done|]. split; [|done].
    intros r' Hr'. by rewrite lookup_insert_ne.
  - erewrite run_SetTimeout by done. eexists. split; [done|]. unfold owns. simpl.
    split; [exists (set_Timeout this d); by rewrite lookup_insert_eq|].
    unfold view. simpl. rewrite lookup_insert_eq, Hr. simpl.
    split; [done|]. split; [|done].
    intros r' Hr'. by rewrite lookup_insert_ne.
  - rewrite run_bind, run_SetJSONBody.
    destruct (Marshal (json_val x)) as [j|e] eqn:Hj.
    + rewrite Hr. simpl. rewrite Hh. simpl. rewrite Hmh. simpl.
      rewrite run_ret. eexists. split; [done|]. unfold owns. simpl.
      split; [exists (set_Body this j); rewrite lookup_insert_eq, Hdom by done; done|].
      unfold view. simpl. rewrite lookup_insert_eq, Hr. simpl. rewrite Hq, Hh.
      unfold map_entries. simpl.
      rewrite lookup_insert_eq, lookup_insert_ne, Hmq, Hmh by done. simpl.
      split; [done|]. split; [intros r' Hr'; by rewrite lookup_insert_ne|].
      split; [|by rewrite Hdom].
      intros l _ Hl. by rewrite lookup_insert_ne.
    + rewrite run_ret. eexists. split; [done|].
      split; [by exists this|].
      split; [by destruct (view s r)|done].
Qed.

Lemma calls_steps r lq lh cs : ∀ (s : State),
  owns s r lq lh → lq ≠ lh →
  ∃ s', calls r cs s = Done () s'
        ∧ owns s' r lq lh
        ∧ view s' r = (λ v, foldl after_call v cs) <$> view s r
        ∧ (∀ r', r' ≠ r → reqs s' !! r' = reqs s !! r')
        ∧ (∀ l, l ≠ lq → l ≠ lh → maps s' !! l = maps s !! l)
        ∧ dom (maps s') = dom (maps s)
        ∧ world s' = world s ∧ trace s' = trace s.
Proof.
  induction cs as [|c cs IH]; intros s Ho Hne.
  - exists s. split; [done|]. split; [done|].
    split; [by destruct (view s r)|done].
  - destruct (call_step r lq lh c s Ho Hne)
      as (s1 & Hc & Ho1 & Hv1 & Hr1 & Hm1 & Hd1 & Hw1 & Ht1).
    destruct (IH s1 Ho1 Hne) as (s2 & Hcs & Ho2 & Hv2 & Hr2 & Hm2 & Hd2 & Hw2 & Ht2).
    exists s2. unfold calls in *. simpl. rewrite run_bind, Hc.
    split; [done|]. split; [done|].
    split; [rewrite Hv2, Hv1; by destruct (view s r)|].
    split; [intros r' Hr'; by rewrite Hr2, Hr1|].
    split; [intros l Hl1 Hl2; by rewrite Hm2, Hm1|].
    split; [by rewrite Hd2|]. split; congruence.
Qed.

(** What [NewRequest] leaves: the Request with its two fresh maps. *)
Lemma NewRequest_owns (c : Client) (method path : string) (s : State) :
  ∃ r s1 lq lh,
    NewRequest c method path s = Done r s1
    ∧ owns s1 r lq lh ∧ lq ≠ lh
    ∧ (r ∉ dom (reqs s)) ∧ (lq ∉ dom (maps s)) ∧ (lh ∉ dom (maps s))
    ∧ view s1 r = Some {| view_baseURL := BaseURL c; view_Method := method;
                          view_Path := path; view_Query := ∅; view_Body := "";
                          view_Headers := map_entries s (DefaultHeaders c);
                          view_Timeout := 10 * Second |}
    ∧ (∀ r', r' ≠ r → reqs s1 !! r' = reqs s !! r')
    ∧ (∀ l, l ≠ lq → l ≠ lh → maps s1 !! l = maps s !! l)
    ∧ dom (maps s1) = {[lh]} ∪ ({[lq]} ∪ dom (maps s))
    ∧ dom (reqs s1) = {[r]} ∪ dom (reqs s)
    ∧ world s1 = world s ∧ trace s1 = trace s.
Proof.
  pose proof (run_NewRequest c method path s) as Hrun. simpl in Hrun.
  set (q := fresh (dom (maps s))) in *.
  set (h := fresh (dom (<[q := ∅]> (maps s)))) in *.
  set (r := fresh (dom (reqs s))) in *.
  assert (q ∉ dom (maps s)) as Hq by apply is_fresh.
  assert (h ∉ dom (<[q := ∅]> (maps s))) as Hh by apply is_fresh.
  rewrite dom_insert_L in Hh.
  assert (q ≠ h) as Hqh.
  { intros Heq. apply Hh. rewrite <- Heq. apply elem_of_union_l.
    by apply elem_of_singleton. }
  assert (h ∉ dom (maps s)) as Hh'.
  { intros Hin. apply Hh. by apply elem_of_union_r. }
  eexists r, _, q, h. split; [exact Hrun|].
  split.
  { eexists. simpl. split; [apply lookup_insert_eq|]. split; [done|]. split; [done|].
    rewrite !dom_insert_L. split.
    - apply elem_of_union_r, elem_of_union_l. by apply elem_of_singleton.
    - apply elem_of_union_l. by apply elem_of_singleton. }
  split; [done|]. split; [apply is_fresh|]. split; [done|]. split; [done|].
  split.
  { unfold view. simpl. rewrite lookup_insert_eq. simpl. unfold map_entries. simpl.
    rewrite lookup_insert_eq, lookup_insert_ne, lookup_insert_eq by done. done. }
  split; [intros r' Hr'; simpl; by rewrite lookup_insert_ne|].
  split; [intros l Hl1 Hl2; simpl; by rewrite !lookup_insert_ne|].
  simpl. by rewrite !dom_insert_L.
Qed.

(** A Request made by [NewRequest] takes every sequence of setter calls:
    none of them panics, and afterwards the Request reads as the view that
    [NewRequest] left with the calls applied in order, so that a later
    call on a field or on a key overrides an earlier one, the calls on
    the headers leave the query alone and conversely.  Nothing that was
    there before the Request was made is touched: no other Request, and
    no map (the default headers of the client among them). *)
Theorem setter_calls_on_new_Request (c : Client) (method path : string)
    (cs : list Setter) (s : State) :
  ∃ r s1 s2,
    NewRequest c method path s = Done r s1
    ∧ calls r cs s1 = Done () s2
    ∧ view s2 r
      = Some (foldl after_call
                {| view_baseURL := BaseURL c; view_Method := method;
                   view_Path := path; view_Query := ∅; view_Body := "";
                   view_Headers := map_entries s (DefaultHeaders c);
                   view_Timeout := 10 * Second |} cs)
    ∧ (∀ r', r' ∈ dom (reqs s) → reqs s2 !! r' = reqs s !! r')
    ∧ (∀ l, l ∈ dom (maps s) → maps s2 !! l = maps s !! l)
    ∧ world s2 = world s ∧ trace s2 = trace s.
Proof.
  destruct (NewRequest_owns c method path s)
    as (r & s1 & lq & lh & Hnew & Ho & Hne & Hr & Hq & Hh & Hv & Hr1 & Hm1 & _ & _
        & Hw1 & Ht1).
  destruct (calls_steps r lq lh cs s1 Ho Hne)
    as (s2 & Hcs & _ & Hv2 & Hr2 & Hm2 & _ & Hw2 & Ht2).
  exists r, s1, s2. split; [done|]. split; [done|].
  split; [by rewrite Hv2, Hv|].
  split.
  { intros r' Hin. assert (r' ≠ r) by (intros ->; done). by rewrite Hr2, Hr1. }
  split.
  { intros l Hin. assert (l ≠ lq) by (intros ->; done).
    assert (l ≠ lh) by (intros ->; done). by rewrite Hm2, Hm1. }
  split; congruence.
Qed.

Lemma view_frame r lq lh (s s' : State) :
  owns s r lq lh →
  reqs s' !! r = reqs s !! r → maps s' !! lq = maps s !! lq →
  maps s' !! lh = maps s !! lh →
  view s' r = view s r.
Proof.
  intros (this & Hr & Hq & Hh & _) Hr' Hq' Hh'. unfold view.
  rewrite Hr', Hr. simpl. unfold map_entries. rewrite Hq, Hh. simpl.
  by rewrite Hq', Hh'.
Qed.

(** Two Requests made one after the other, by the same client or by two,
    share nothing: whatever setter calls one of them takes, the other
    reads as before. *)
Theorem new_Requests_share_nothing (c1 c2 : Client) (method1 path1 method2 path2 : string)
    (cs : list Setter) (s : State) :
  ∃ r1 s1 r2 s2,
    NewRequest c1 method1 path1 s = Done r1 s1
    ∧ NewRequest c2 method2 path2 s1 = Done r2 s2
    ∧ r1 ≠ r2
    ∧ is_Some (view s2 r1) ∧ is_Some (view s2 r2)
    ∧ view (final_state (calls r1 cs s2)) r2 = view s2 r2
    ∧ view (final_state (calls r2 cs s2)) r1 = view s2 r1.
Proof.
  destruct (NewRequest_owns c1 method1 path1 s)
    as (r1 & s1 & lq1 & lh1 & Hnew1 & Ho1 & Hne1 & Hr1 & _ & _ & Hv1 & _ & _ & Hd1
        & Hdr1 & _).
  destruct (NewRequest_owns c2 method2 path2 s1)
    as (r2 & s2 & lq2 & lh2 & Hnew2 & Ho2 & Hne2 & Hr2 & Hq2 & Hh2 & Hv2 & Hrr2 & Hm2
        & Hd2 & _).
  assert (r1 ≠ r2) as Hr12.
  { intros <-. apply Hr2. rewrite Hdr1. apply elem_of_union_l. by apply elem_of_singleton. }
  destruct Ho1 as (this1 & Hthis1 & Hq1 & Hh1 & Hdq1 & Hdh1).
  assert (lq1 ≠ lq2 ∧ lq1 ≠ lh2 ∧ lh1 ≠ lq2 ∧ lh1 ≠ lh2) as (Ha & Hb & Hc & Hd).
  { repeat split; intros Heq; subst; done. }
  assert (owns s2 r1 lq1 lh1) as Ho1'.
  { exists this1. rewrite Hrr2 by done. split; [done|]. split; [done|]. split; [done|].
    rewrite Hd2. split; by do 2 apply elem_of_union_r. }
  exists r1, s1, r2, s2. split; [done|]. split; [done|]. split; [done|].
  split; [unfold view; destruct Ho1' as (? & -> & _); by eexists|].
  split; [by rewrite Hv2|].
  split.
  - destruct (calls_steps r1 lq1 lh1 cs s2 Ho1' Hne1)
      as (s3 & -> & _ & _ & Hr3 & Hm3 & _). simpl.
    apply (view_frame r2 lq2 lh2); [done|by apply Hr3|by apply Hm3..].
  - destruct (calls_steps r2 lq2 lh2 cs s2 Ho2 Hne2)
      as (s3 & -> & _ & _ & Hr3 & Hm3 & _). simpl.
    apply (view_frame r1 lq1 lh1); [done|by apply Hr3|by apply Hm3..].
Qed.

End builder.


(** ** What the transport is handed *)

Section sent.
Context `{env : Env}.

Lemma foldl_Set hs : ∀ (h : http.Header) K,
  foldl (λ h kv, http.Set_ h kv.1 kv.2) h hs !! K
  = match sent_header hs K with
    | Some v => Some v
    | None => h !! K
    end.
Proof.
  induction hs as [|[k v] hs IH]; intros h K; [done|].
  cbn [foldl]. rewrite IH. unfold sent_header. rewrite filter_cons. cbn [fst snd].
  destruct (decide (http.CanonicalMIMEHeaderKey k = K)) as [<-|Hne].
  - rewrite last_cons.
    destruct (last (filter _ hs)) as [kv|]; [done|].
    simpl. unfold http.Set_. by rewrite lookup_insert_eq.
  - destruct (last (filter _ hs)) as [kv|]; [done|].
    simpl. unfold http.Set_. by rewrite lookup_insert_ne.
Qed.

(** [SendWithCtx] when the base URL parses and the request can be built. *)
Lemma run_SendWithCtx r ctx (s : State) this apiURL req0 :
  reqs s !! r = Some this →
  url.Parse (baseURL this) = Ok apiURL →
  http.NewRequestWithContext ctx (Method this)
    (url.String_ (join_URL apiURL (Path this))) (Body this) = Ok req0 →
  let req := apply_query
               (apply_headers req0 (range_order (map_entries s (Headers this)) (world s)))
               (range_order (map_entries s (Query this)) (world s)) in
  SendWithCtx r ctx s
  = Done match (client_Do req (world s)).1 with
         | http.DoError _ e => (None, Some e)
         | http.DoResponse res => (Some res, None)
         end
         (set_world (log (EvDo req) s) (client_Do req (world s)).2).
Proof.
  intros Hr Hp Hn req. unfold SendWithCtx. munfold. rewrite Hr, Hp. simpl.
  rewrite Hn. simpl. fold req.
  by destruct (client_Do req (world s)) as [[res|res e] w].
Qed.

Lemma cons_neq {A} (x : A) l : l ≠ x :: l.
Proof. intros H. apply (f_equal length) in H. simpl in H. lia. Qed.

(** A round trip is made only when the base URL parsed and the request was
    built; the request sent is the one built, with the headers and the
    query of the Request applied. *)
Lemma SendWithCtx_sent r ctx (s : State) this req :
  reqs s !! r = Some this →
  trace (final_state (SendWithCtx r ctx s)) = EvDo req :: trace s →
  ∃ apiURL req0,
    url.Parse (baseURL this) = Ok apiURL
    ∧ http.NewRequestWithContext ctx (Method this)
        (url.String_ (join_URL apiURL (Path this))) (Body this) = Ok req0
    ∧ req = apply_query
              (apply_headers req0 (range_order (map_entries s (Headers this)) (world s)))
              (range_order (map_entries s (Query this)) (world s)).
Proof.
  intros Hr Ht.
  destruct (url.Parse (baseURL this)) as [apiURL|e] eqn:Hp.
  - destruct (http.NewRequestWithContext ctx (Method this)
                (url.String_ (join_URL apiURL (Path this))) (Body this))
      as [req0|e] eqn:Hn.
    + rewrite (run_SendWithCtx r ctx s this apiURL req0 Hr Hp Hn) in Ht.
      simpl in Ht. injection Ht as <-. by exists apiURL, req0.
    + exfalso. revert Ht. unfold SendWithCtx. munfold. rewrite Hr, Hp. simpl.
      rewrite Hn. simpl. apply cons_neq.
  - exfalso. revert Ht. unfold SendWithCtx. munfold. rewrite Hr, Hp. simpl.
    apply cons_neq.
Qed.

Lemma NewRequestWithContext_Ok ctx method u body req0 :
  http.NewRequestWithContext ctx method u body = Ok req0 →
  http.Method req0 = (if bool_decide (method = "") then "GET" else method)
  ∧ http.Body req0 = body ∧ ctx = Some (http.ctx req0) ∧ http.Header_ req0 = ∅
  ∧ http.validMethod (http.Method req0) = true.
Proof.
  unfold http.NewRequestWithContext.
  destruct (http.validMethod _) eqn:Hv; [|done]. simpl.
  destruct ctx as [c|]; [|done].
  destruct (url.Parse u) as [u'|e]; [|done]. simpl.
  intros [= <-]. done.
Qed.

Lemma SendWithCtx_sent_context r ctx (s : State) this req :
  reqs s !! r = Some this →
  trace (final_state (SendWithCtx r ctx s)) = EvDo req :: trace s →
  ctx = Some (http.ctx req).
Proof.
  intros Hr Ht.
  destruct (SendWithCtx_sent r ctx s this req Hr Ht) as (apiURL & req0 & _ & Hn & ->).
  by apply NewRequestWithContext_Ok in Hn as (_ & _ & Hc & _).
Qed.

(** What the transport is handed: the method of the Request ([GET] when it
    is empty), its body and the context of the call, unchanged. *)
Theorem dispatch_sends_method_body_and_context (r : nat)
    (ctx : option context.Context) (s : State) (this : Request) (req : http.Request) :
  reqs s !! r = Some this →
  trace (final_state (SendWithCtx r ctx s)) = EvDo req :: trace s →
  http.Method req = (if bool_decide (Method this = "") then "GET" else Method this)
  ∧ http.validMethod (http.Method req) = true
  ∧ http.Body req = Body this
  ∧ ctx = Some (http.ctx req).
Proof.
  intros Hr Ht.
  destruct (SendWithCtx_sent r ctx s this req Hr Ht) as (apiURL & req0 & _ & Hn & ->).
  apply NewRequestWithContext_Ok in Hn as (Hm & Hb & Hc & _ & Hv). simpl.
  by rewrite Hm in *.
Qed.

Lemma sent_header_Some hs K vs :
  sent_header hs K = Some vs →
  ∃ k v, (k, v) ∈ hs ∧ http.CanonicalMIMEHeaderKey k = K ∧ vs = [v].
Proof.
  unfold sent_header. destruct (last _) as [[k v]|] eqn:Hl; [|done].
  intros [= <-]. apply last_Some_elem_of in Hl.
  apply list_elem_of_filter in Hl as [Hk Hin]. by exists k, v.
Qed.

Lemma sent_header_unique (m : gmap string string) hs k v :
  hs ≡ₚ map_to_list m → m !! k = Some v →
  (∀ k', is_Some (m !! k') →
     http.CanonicalMIMEHeaderKey k' = http.CanonicalMIMEHeaderKey k → k' = k) →
  sent_header hs (http.CanonicalMIMEHeaderKey k) = Some [v].
Proof.
  intros Hp Hk Huniq. unfold sent_header.
  destruct (last _) as [[k' v']|] eqn:Hl.
  - apply last_Some_elem_of in Hl. apply list_elem_of_filter in Hl as [Hc Hin].
    simpl in Hc. rewrite Hp in Hin. apply elem_of_map_to_list in Hin.
    assert (k' = k) as -> by (apply Huniq; [by eexists|done]).
    simpl. congruence.
  - exfalso. apply last_None in Hl.
    assert ((k, v) ∈ filter (λ kv : string * string,
              http.CanonicalMIMEHeaderKey kv.1 = http.CanonicalMIMEHeaderKey k) hs) as Hin.
    { apply list_elem_of_filter. split; [done|]. rewrite Hp.
      by apply elem_of_map_to_list. }
    rewrite Hl in Hin. by apply elem_of_nil in Hin.
Qed.

(** The headers the transport is handed: under every canonical key, the
    one value of the entry of the Request's header map that [range]
    visited last among those whose key has this canonical form.  So every
    header of the Request is sent under the canonical form of its key, with
    its value alone, unless another key of the map has the same canonical
    form; then one of the two values is sent, by the order of the
    iteration.  No other header is set. *)
Theorem dispatch_sends_canonical_headers (r : nat) (ctx : option context.Context)
    (s : State) (this : Request) (req : http.Request) :
  reqs s !! r = Some this →
  trace (final_state (SendWithCtx r ctx s)) = EvDo req :: trace s →
  let hm := map_entries s (Headers this) in
  (∀ K, http.Header_ req !! K = sent_header (range_order hm (world s)) K)
  ∧ (∀ k v, hm !! k = Some v →
       (∀ k', is_Some (hm !! k') →
          http.CanonicalMIMEHeaderKey k' = http.CanonicalMIMEHeaderKey k → k' = k) →
       http.Header_ req !! http.CanonicalMIMEHeaderKey k = Some [v])
  ∧ (∀ K vs, http.Header_ req !! K = Some vs →
       ∃ k v, hm !! k = Some v ∧ http.CanonicalMIMEHeaderKey k = K ∧ vs = [v]).
Proof.
  intros Hr Ht hm.
  destruct (SendWithCtx_sent r ctx s this req Hr Ht) as (apiURL & req0 & _ & Hn & ->).
  apply NewRequestWithContext_Ok in Hn as (_ & _ & _ & Hh & _).
  fold hm.
  assert (∀ K, http.Header_ (apply_query (apply_headers req0 (range_order hm (world s)))
                 (range_order (map_entries s (Query this)) (world s))) !! K
               = sent_header (range_order hm (world s)) K) as Hall.
  { intros K. simpl. rewrite foldl_Set, Hh, lookup_empty.
    by destruct (sent_header _ K). }
  split; [done|]. split.
  - intros k v Hk Huniq. rewrite Hall.
    eapply sent_header_unique; [apply range_order_perm|done..].
  - intros K vs. rewrite Hall. intros (k & v & Hin & Hc & ->)%sent_header_Some.
    exists k, v. rewrite range_order_perm in Hin.
    by apply elem_of_map_to_list in Hin.
Qed.

End sent.


(** ** The ways a dispatch ends *)

Section outcomes.
Context `{env : Env}.

(** [SendWithCtx], by the ways it can go. *)
Lemma SendWithCtx_unfold r ctx (s : State) :
  SendWithCtx r ctx s
  = match reqs s !! r with
    | None => Panic nil_dereference s
    | Some this =>
        match url.Parse (baseURL this) with
        | Err _ => Panic nil_dereference s
        | Ok apiURL =>
            match http.NewRequestWithContext ctx (Method this)
                    (url.String_ (join_URL apiURL (Path this))) (Body this) with
            | Err e => Done (None, Some e) s
            | Ok req0 =>
                let req :=
                  apply_query
                    (apply_headers req0
                       (range_order (map_entries s (Headers this)) (world s)))
                    (range_order (map_entries s (Query this)) (world s)) in
                Done match (client_Do req (world s)).1 with
                     | http.DoError _ e => (None, Some e)
                     | http.DoResponse res => (Some res, None)
                     end
                     (set_world (log (EvDo req) s) (client_Do req (world s)).2)
            end
        end
    end.
Proof.
  destruct (reqs s !! r) as [this|] eqn:Hr.
  - destruct (url.Parse (baseURL this)) as [apiURL|e] eqn:Hp.
    + destruct (http.NewRequestWithContext _ _ _ _) as [req0|e] eqn:Hn.
      * exact (run_SendWithCtx r ctx s this apiURL req0 Hr Hp Hn).
      * unfold SendWithCtx. munfold. rewrite Hr, Hp. simpl. by rewrite Hn.
    + unfold SendWithCtx. munfold. by rewrite Hr, Hp.
  - unfold SendWithCtx. munfold. by rewrite Hr.
Qed.

Lemma SendWithCtx_panicked r ctx (s : State) msg :
  panicked (SendWithCtx r ctx s) = Some msg
  ↔ msg = nil_dereference ∧ undispatchable s r.
Proof.
  rewrite SendWithCtx_unfold. unfold undispatchable.
  destruct (reqs s !! r) as [this|] eqn:Hr.
  - destruct (url.Parse (baseURL this)) as [apiURL|e] eqn:Hp.
    + destruct (http.NewRequestWithContext _ _ _ _) as [req0|e]; simpl.
      * split; [done|]. intros [_ [?|(this' & e & [= <-] & ?)]]; congruence.
      * split; [done|]. intros [_ [?|(this' & e' & [= <-] & ?)]]; congruence.
    + simpl. split; [intros [= <-]; split; [done|]; right; by exists this, e|].
      by intros [-> _].
  - simpl. split; [intros [= <-]; split; [done|by left]|by intros [-> _]].
Qed.

Lemma SendWithCtx_returned r ctx (s : State) res err :
  returned (SendWithCtx r ctx s) = Some (res, err) →
  (res = None ∧ is_Some err) ∨ (is_Some res ∧ err = None).
Proof.
  rewrite SendWithCtx_unfold.
  destruct (reqs s !! r) as [this|]; [|done].
  destruct (url.Parse (baseURL this)) as [apiURL|e]; [|done].
  destruct (http.NewRequestWithContext _ _ _ _) as [req0|e]; simpl.
  - destruct (client_Do _ _).1 as [resp|resp e]; intros [= <- <-];
      [right|left]; split; by eauto.
  - intros [= <- <-]. left. split; by eauto.
Qed.

Lemma Send_unfold r (s : State) :
  Send r s
  = match reqs s !! r with
    | None => Panic nil_dereference s
    | Some this =>
        let id := next_timer s in
        let dl := (time_Now (world s) + Timeout this)%Z in
        let signal := {| context.deadline := Some dl; context.timer := Some id |} in
        let armed := {| maps := maps s; reqs := reqs s; world := world s;
                        trace := EvWithDeadline id dl :: trace s;
                        next_timer := S id |} in
        match SendWithCtx r (Some signal) armed with
        | Done res s' => Done res (log (EvCancel id) s')
        | Panic msg s' => Panic msg (log (EvCancel id) s')
        end
    end.
Proof. rewrite Send_is_Send_spec. done. Qed.

Lemma Send_panicked r (s : State) msg :
  panicked (Send r s) = Some msg ↔ msg = nil_dereference ∧ undispatchable s r.
Proof.
  rewrite Send_unfold. destruct (reqs s !! r) as [this|] eqn:Hr.
  - simpl.
    match goal with |- context [SendWithCtx r ?c ?a] =>
      pose proof (SendWithCtx_panicked r c a msg) as Hp;
      destruct (SendWithCtx r c a) as [res s'|msg' s'] end; simpl in *.
    + rewrite Hp. unfold undispatchable. simpl. by rewrite Hr.
    + rewrite Hp. unfold undispatchable. simpl. by rewrite Hr.
  - simpl. unfold undispatchable. rewrite Hr.
    split; [intros [= <-]; split; [done|by left]|by intros [-> _]].
Qed.

Lemma Send_returned r (s : State) res err :
  returned (Send r s) = Some (res, err) →
  (res = None ∧ is_Some err) ∨ (is_Some res ∧ err = None).
Proof.
  rewrite Send_unfold. destruct (reqs s !! r) as [this|]; [|done]. simpl.
  match goal with |- context [SendWithCtx r ?c ?a] =>
    pose proof (SendWithCtx_returned r c a res err) as Hp;
    destruct (SendWithCtx r c a) as [res' s'|msg' s'] end; simpl in *; [|done].
  done.
Qed.

Lemma SendWithJSONResponse_panicked T `{Codec T} r (s : State) msg :
  panicked (SendWithJSONResponse T r s) = Some msg
  ↔ msg = nil_dereference ∧ undispatchable s r.
Proof.
  rewrite <- Send_panicked, run_SendWithJSONResponse.
  pose proof (Send_returned r s) as Hret.
  destruct (Send r s) as [[[resp|] [e|]] s1|msg' s1]; simpl in *; try done.
  - destruct (io_ReadAll _ _) as [[data [e|]] w2]; [done|].
    by destruct (Unmarshal data zero).
  - destruct (Hret None None eq_refl) as [[_ [? ?]]|[[? ?] _]]; done.
Qed.

(** The three dispatching calls panic in two cases only, both with a nil
    pointer dereference: the Request pointer is nil, or [url.Parse] rejects
    the base URL (whose error [SendWithCtx] drops).  In particular no
    response of the transport makes [SendWithJSONResponse] panic: what
    [SendWithCtx] and [Send] return is a response and no error, or an error
    and no response, never neither. *)
Theorem dispatch_panics_only_when_undispatchable T `{Codec T} (r : nat)
    (ctx : option context.Context) (s : State) :
  (∀ msg, panicked (SendWithCtx r ctx s) = Some msg
          ↔ msg = nil_dereference ∧ undispatchable s r)
  ∧ (∀ msg, panicked (Send r s) = Some msg
            ↔ msg = nil_dereference ∧ undispatchable s r)
  ∧ (∀ msg, panicked (SendWithJSONResponse T r s) = Some msg
            ↔ msg = nil_dereference ∧ undispatchable s r)
  ∧ (∀ res err, returned (SendWithCtx r ctx s) = Some (res, err) →
       (res = None ∧ is_Some err) ∨ (is_Some res ∧ err = None))
  ∧ (∀ res err, returned (Send r s) = Some (res, err) →
       (res = None ∧ is_Some err) ∨ (is_Some res ∧ err = None)).
Proof.
  split; [apply SendWithCtx_panicked|]. split; [apply Send_panicked|].
  split; [apply SendWithJSONResponse_panicked|].
  split; [apply SendWithCtx_returned|apply Send_returned].
Qed.

(** An invalid method or a nil context is refused before anything is
    sent: for a Request whose base URL parses, [SendWithCtx] returns no
    response and an error, and leaves the state as it was (no round trip).
    Under [Send], whose context is never nil, the same holds for an invalid
    method, the context of the call being made and released. *)
Theorem dispatch_refuses_before_sending (r : nat) (ctx : option context.Context)
    (s : State) (this : Request) (apiURL : url.URL) :
  reqs s !! r = Some this →
  url.Parse (baseURL this) = Ok apiURL →
  (Method this ≠ "" ∧ http.validMethod (Method this) = false) ∨ ctx = None →
  (∃ err, SendWithCtx r ctx s = Done (None, Some err) s)
  ∧ (Method this ≠ "" ∧ http.validMethod (Method this) = false →
     ∃ err s', Send r s = Done (None, Some err) s'
               ∧ trace s' = [EvCancel (next_timer s);
                             EvWithDeadline (next_timer s)
                               (time_Now (world s) + Timeout this)] ++ trace s
               ∧ world s' = world s).
Proof.
  intros Hr Hp Hbad.
  assert (∀ c, ((Method this ≠ "" ∧ http.validMethod (Method this) = false) ∨ c = None) →
            ∃ e, http.NewRequestWithContext c (Method this)
                   (url.String_ (join_URL apiURL (Path this))) (Body this) = Err e)
    as Hnew.
  { intros c Hc. unfold http.NewRequestWithContext.
    destruct (bool_decide (Method this = "")) eqn:Hm.
    - apply bool_decide_eq_true in Hm. destruct Hc as [[? _]| ->]; [done|].
      simpl. by eexists.
    - destruct (http.validMethod (Method this)) eqn:Hv; simpl; [|by eexists].
      destruct Hc as [[_ ?]| ->]; [done|]. by eexists. }
  split.
  - destruct (Hnew ctx Hbad) as [e He]. exists e.
    by rewrite SendWithCtx_unfold, Hr, Hp, He.
  - intros Hm. rewrite Send_unfold, Hr. simpl.
    match goal with |- context [SendWithCtx r ?c ?a] =>
      destruct (Hnew c (or_introl Hm)) as [e He];
      rewrite (SendWithCtx_unfold r c a) end.
    simpl. rewrite Hr, Hp, He. by eexists _, _.
Qed.

End outcomes.


(** ** The order of the calls *)

Section order.
Context `{env : Env}.

(** What [Send] leaves when it returns a response: its three calls, the
    round trip between the making and the release of the context. *)
Lemma Send_response r (s : State) resp s1 :
  Send r s = Done (Some resp, None) s1 →
  ∃ this req,
    reqs s !! r = Some this
    ∧ http.ctx req = {| context.deadline := Some (time_Now (world s) + Timeout this)%Z;
                        context.timer := Some (next_timer s) |}
    ∧ trace s1 = [EvCancel (next_timer s); EvDo req;
                  EvWithDeadline (next_timer s) (time_Now (world s) + Timeout this)]
                 ++ trace s.
Proof.
  rewrite Send_unfold. destruct (reqs s !! r) as [this|] eqn:Hr; [|done]. cbn zeta.
  rewrite SendWithCtx_unfold. simpl. rewrite Hr.
  destruct (url.Parse (baseURL this)) as [apiURL|e]; [|done].
  destruct (http.NewRequestWithContext _ _ _ _) as [req0|e] eqn:Hn; [|done].
  apply NewRequestWithContext_Ok in Hn as (_ & _ & [= Hc] & _).
  simpl. intros [= Hres <-].
  eexists this, _. split; [done|]. split; [|done]. simpl. by rewrite <- Hc.
Qed.

(** The order of the calls of [SendWithJSONResponse] when [Send] hands it
    a response: the round trip is made under the context of [Send], that
    context is released when [Send] returns, and only then is the body
    read, decoded when the read succeeded, and closed, last.  The value
    returned is what [json.Unmarshal] makes of the body read, whatever
    the status of the response. *)
Theorem SendWithJSONResponse_order_of_calls T `{Codec T} (r : nat) (s : State)
    (resp : http.Response) (s1 : State) :
  Send r s = Done (Some resp, None) s1 →
  let b := http.RespBody resp in
  let read := (io_ReadAll b (world s1)).1 in
  ∃ this req j err s2,
    reqs s !! r = Some this
    ∧ SendWithJSONResponse T r s = Done (j, Some resp, err) s2
    ∧ http.ctx req = {| context.deadline := Some (time_Now (world s) + Timeout this)%Z;
                        context.timer := Some (next_timer s) |}
    ∧ trace s2
      = [EvClose b]
        ++ match read.2 with
           | Some _ => []
           | None => [EvUnmarshal read.1]
           end
        ++ [EvReadAll b; EvCancel (next_timer s); EvDo req;
            EvWithDeadline (next_timer s) (time_Now (world s) + Timeout this)]
        ++ trace s
    ∧ (j, err) = match read.2 with
                 | Some e => (zero, Some e)
                 | None => Unmarshal read.1 zero
                 end.
Proof.
  intros Hsend b read.
  destruct (Send_response r s resp s1 Hsend) as (this & req & Hr & Hc & Ht).
  rewrite run_SendWithJSONResponse, Hsend. simpl. subst read. fold b.
  destruct (io_ReadAll b (world s1)) as [[data [e|]] w2]; simpl.
  - eexists this, req, _, _, _. split; [done|]. split; [done|]. split; [done|].
    simpl. by rewrite Ht.
  - destruct (Unmarshal data zero) as [j uerr].
    eexists this, req, _, _, _. split; [done|]. split; [done|]. split; [done|].
    simpl. by rewrite Ht.
Qed.

(** [SetTimeout] stores the duration in the Request and changes nothing
    else; the next [Send] makes its context with the deadline that lies this
    duration after the instant it begins, whatever the duration (none is
    refused), and a round trip it makes runs under that context. *)
Theorem SetTimeout_sets_the_deadline_of_Send (r : nat) (d : Z) (s : State)
    (this : Request) :
  reqs s !! r = Some this →
  ∃ s1 new,
    SetTimeout r d s = Done () s1
    ∧ reqs s1 = <[r := set_Timeout this d]> (reqs s)
    ∧ maps s1 = maps s ∧ world s1 = world s ∧ trace s1 = trace s
    ∧ trace (final_state (Send r s1))
      = [EvCancel (next_timer s)] ++ new
        ++ [EvWithDeadline (next_timer s) (time_Now (world s) + d)] ++ trace s
    ∧ (new = []
       ∨ ∃ req, new = [EvDo req]
                ∧ http.ctx req
                  = {| context.deadline := Some (time_Now (world s) + d)%Z;
                       context.timer := Some (next_timer s) |}).
Proof.
  intros Hr. erewrite run_SetTimeout by done.
  set (s1 := set_reqs s _).
  assert (reqs s1 !! r = Some (set_Timeout this d)) as Hr1
    by (simpl; apply lookup_insert_eq).
  assert (∃ new,
            trace (final_state (Send r s1))
            = [EvCancel (next_timer s)] ++ new
              ++ [EvWithDeadline (next_timer s) (time_Now (world s) + d)] ++ trace s
            ∧ (new = []
               ∨ ∃ req, new = [EvDo req]
                        ∧ http.ctx req
                          = {| context.deadline := Some (time_Now (world s) + d)%Z;
                               context.timer := Some (next_timer s) |}))
    as (new & Ht & Hnew).
  { rewrite Send_unfold, Hr1. cbn zeta.
    change (Timeout (set_Timeout this d)) with d.
    change (world s1) with (world s). change (next_timer s1) with (next_timer s).
    change (trace s1) with (trace s). change (maps s1) with (maps s).
    match goal with |- context [SendWithCtx r ?c ?a] =>
      pose proof (SendWithCtx_sent_context r c a (set_Timeout this d)) as Hsent;
      destruct (SendWithCtx_trace r c a) as [Ht|[req Ht]];
      destruct (SendWithCtx r c a) as [res s'|msg s'] end; simpl in *.
    1,2: exists []; rewrite Ht; split; [done|by left].
    1,2: exists [EvDo req]; rewrite Ht; split; [done|]; right;
         exists req; split; [done|];
         injection (Hsent req Hr1 Ht) as Hc; by rewrite <- Hc. }
  exists s1, new. done.
Qed.

End order.


(** ** Nil maps, nil pointers, default headers *)

Section edges.
Context `{env : Env}.

Lemma range_order_empty w : range_order (∅ : gmap string string) w = [].
Proof.
  apply Permutation_nil_r. rewrite range_order_perm. by rewrite map_to_list_empty.
Qed.

(** A Request that was not made by [NewRequest] and whose header map is
    nil (a [Request] literal): [SetHeader] panics on the write to the nil
    map and changes nothing; [SetJSONBody] of a value that marshals
    replaces the body and then panics on the same write, the body staying
    replaced; with a nil query map [SetQuery] panics likewise.  Dispatch
    only reads the maps, and a round trip it makes carries no header when
    the header map is nil. *)
Theorem setters_panic_on_nil_maps (r : nat) (s : State) (this : Request) :
  reqs s !! r = Some this →
  (Headers this = None →
     (∀ T (F : Fmt T) k (v : T), SetHeader r k v s = Panic nil_map_write s)
     ∧ (∀ T (C : Codec T) (v : T) j, Marshal v = Ok j →
          SetJSONBody r v s
          = Panic nil_map_write (set_reqs s (<[r := set_Body this j]> (reqs s))))
     ∧ (∀ ctx req, trace (final_state (SendWithCtx r ctx s)) = EvDo req :: trace s →
          http.Header_ req = ∅))
  ∧ (Query this = None →
       ∀ T (F : Fmt T) k (v : T), SetQuery r k v s = Panic nil_map_write s).
Proof.
  intros Hr. split.
  - intros Hh. split; [|split].
    + intros T F k v. unfold SetHeader.
      rewrite run_bind, (run_load_req _ _ _ Hr), Hh. done.
    + intros T C v j Hj. rewrite run_SetJSONBody, Hj, Hr, Hh. done.
    + intros ctx req Ht.
      destruct (SendWithCtx_sent r ctx s this req Hr Ht) as (apiURL & req0 & _ & Hn & ->).
      apply NewRequestWithContext_Ok in Hn as (_ & _ & _ & Hempty & _).
      simpl. rewrite Hh. unfold map_entries. simpl. by rewrite range_order_empty.
  - intros Hq T F k v. unfold SetQuery.
    rewrite run_bind, (run_load_req _ _ _ Hr), Hq. done.
Qed.

(** Every method called on a nil [Request] pointer panics with a nil
    pointer dereference before it has done anything, and so does
    [SendWithJSONResponse]; only [SetJSONBody] marshals first, and returns
    the error of [json.Marshal] without a panic when there is one. *)
Theorem methods_on_nil_Request (r : nat) (s : State) :
  reqs s !! r = None →
  (∀ T (F : Fmt T) k (v : T), SetHeader r k v s = Panic nil_dereference s)
  ∧ (∀ T (F : Fmt T) k (v : T), SetQuery r k v s = Panic nil_dereference s)
  ∧ (∀ b, SetBody r b s = Panic nil_dereference s)
  ∧ (∀ d, SetTimeout r d s = Panic nil_dereference s)
  ∧ (∀ T (C : Codec T) (v : T),
       SetJSONBody r v s = match Marshal v with
                           | Ok _ => Panic nil_dereference s
                           | Err e => Done (Some e) s
                           end)
  ∧ (∀ ctx, SendWithCtx r ctx s = Panic nil_dereference s)
  ∧ Send r s = Panic nil_dereference s
  ∧ (∀ T (C : Codec T), SendWithJSONResponse T r s = Panic nil_dereference s).
Proof.
  intros Hr.
  assert (load_req r s = Panic nil_dereference s) as Hl
    by (unfold load_req; by rewrite Hr).
  assert (Send r s = Panic nil_dereference s) as Hsend
    by (by rewrite Send_unfold, Hr).
  split; [intros; unfold SetHeader; by rewrite run_bind, Hl|].
  split; [intros; unfold SetQuery; by rewrite run_bind, Hl|].
  split; [intros; unfold SetBody; by rewrite run_bind, Hl|].
  split; [intros; unfold SetTimeout; by rewrite run_bind, Hl|].
  split; [intros; rewrite run_SetJSONBody, Hr; by destruct (Marshal v)|].
  split; [intros; by rewrite SendWithCtx_unfold, Hr|].
  split; [done|].
  intros T C. by rewrite run_SendWithJSONResponse, Hsend.
Qed.

(** The entries a list of [AddDefaultHeader] calls writes, in order. *)
Lemma add_defaults_some kvs : ∀ c l mm (s : State),
  DefaultHeaders c = Some l → maps s !! l = Some mm →
  add_defaults c kvs s
  = Done c (set_maps s (<[l := foldl (λ m kv, <[kv.1 := formatted kv.2]> m) mm kvs]>
                          (maps s))).
Proof.
  induction kvs as [|[k x] kvs IH]; intros c l mm s Hd Hl; simpl.
  - rewrite run_ret. f_equal. destruct s. unfold set_maps. simpl in *.
    f_equal. by rewrite insert_id.
  - rewrite run_bind. erewrite run_AddDefaultHeader_some by done.
    erewrite IH; [|done|simpl; apply lookup_insert_eq].
    f_equal. unfold set_maps. simpl. by rewrite insert_insert_eq.
Qed.

(** Default headers added one by one: [AddDefaultHeader] makes the map on
    its first call when the client has none (as after [NewClient]) and
    writes into the client's map otherwise, which is the very map that was
    handed to [SetDefaultHeaders]; it never panics.  Afterwards the
    defaults are the earlier ones with the added entries written over them
    in order, no other map has changed, and a Request made next starts
    with a copy of exactly these headers. *)
Theorem AddDefaultHeader_then_NewRequest (c : Client) (kvs : list (string * Any))
    (method path : string) (s : State) :
  (∀ l, DefaultHeaders c = Some l → l ∈ dom (maps s)) →
  let added := foldl (λ m kv, <[kv.1 := formatted kv.2]> m)
                 (map_entries s (DefaultHeaders c)) kvs in
  ∃ c' s1 r s2,
    add_defaults c kvs s = Done c' s1
    ∧ BaseURL c' = BaseURL c
    ∧ (is_Some (DefaultHeaders c) → DefaultHeaders c' = DefaultHeaders c)
    ∧ (kvs = [] → DefaultHeaders c' = DefaultHeaders c)
    ∧ map_entries s1 (DefaultHeaders c') = added
    ∧ (∀ l, l ∈ dom (maps s) → DefaultHeaders c ≠ Some l →
         maps s1 !! l = maps s !! l)
    ∧ reqs s1 = reqs s
    ∧ NewRequest c' method path s1 = Done r s2
    ∧ (view s2 r ≫= λ v, Some (view_Headers v)) = Some added.
Proof.
  intros Hwf added.
  assert (∃ c' s1,
            add_defaults c kvs s = Done c' s1
            ∧ BaseURL c' = BaseURL c
            ∧ (is_Some (DefaultHeaders c) → DefaultHeaders c' = DefaultHeaders c)
            ∧ (kvs = [] → DefaultHeaders c' = DefaultHeaders c)
            ∧ map_entries s1 (DefaultHeaders c') = added
            ∧ (∀ l, l ∈ dom (maps s) → DefaultHeaders c ≠ Some l →
                 maps s1 !! l = maps s !! l)
            ∧ reqs s1 = reqs s) as (c' & s1 & Hadd & Hb & Hsame & Hnil & Hent & Hfr & Hrq).
  { subst added. destruct (DefaultHeaders c) as [l|] eqn:Hd.
    - destruct (proj1 (elem_of_dom _ _) (Hwf l eq_refl)) as [mm Hmm].
      erewrite add_defaults_some by done. eexists _, _. split; [done|].
      split; [done|]. split; [done|]. split; [done|].
      rewrite Hd. unfold map_entries. simpl. rewrite lookup_insert_eq, Hmm. simpl.
      split; [done|]. split; [|done].
      intros l' _ Hne. rewrite lookup_insert_ne; [done|congruence].
    - destruct kvs as [|[k x] kvs]; simpl.
      + rewrite run_ret. eexists _, _. split; [done|]. rewrite Hd. done.
      + rewrite run_bind, run_AddDefaultHeader_nil by done.
        erewrite add_defaults_some; [|done|simpl; apply lookup_insert_eq].
        eexists _, _. split; [done|]. simpl.
        split; [done|]. split; [by intros [? ?]|]. split; [done|].
        unfold map_entries. simpl. rewrite lookup_insert_eq. simpl.
        split; [done|]. split; [|done].
        intros l Hl _. rewrite insert_insert_eq, lookup_insert_ne; [done|].
        intros <-. by apply (is_fresh (dom (maps s))). }
  destruct (NewRequest_owns c' method path s1)
    as (r & s2 & lq & lh & Hnew & _ & _ & _ & _ & _ & Hv & _).
  exists c', s1, r, s2. repeat (split; [done|]).
  rewrite Hv. simpl. by rewrite Hent.
Qed.

End edges.


(** ** Parsing a URL: the scheme, the query, the fragment *)

Section parse.

Lemma parse_Ok raw via u :
  url.parse raw via = Ok u →
  (raw = B "*" ∧ u = url.set_Path url.empty_URL "*")
  ∨ ∃ scheme0 rest0,
      url.getScheme raw = Ok (scheme0, rest0)
      ∧ url.Scheme u = str (strings.toLowerByte <$> scheme0)
      ∧ url.RawQuery u = str (cut_query rest0).1.2
      ∧ url.ForceQuery u = (cut_query rest0).2
      ∧ (url.Opaque u = "" ∨ url.Opaque u = str (cut_query rest0).1.1).
Proof.
  unfold url.parse.
  destruct (url.stringContainsCTLByte raw); [done|].
  destruct (bytes_eqb raw [] && via); [done|].
  destruct (bytes_eqb raw (B "*")) eqn:Hstar.
  { intros [= <-]. left. by apply bool_decide_eq_true in Hstar. }
  intros H. right.
  destruct (url.getScheme raw) as [[scheme0 rest0]|e]; [|done].
  exists scheme0, rest0. split; [done|].
  cbn [mbind result_bind] in H.
  change (if strings.hasSuffix rest0 (B "?") && (strings.countByte rest0 "?" =? 1)%nat
          then (take (length rest0 - 1) rest0, [], true)
          else let '(before, after, _) := strings.cutByte rest0 "?" in
               (before, after, false)) with (cut_query rest0) in H.
  destruct (cut_query rest0) as [[rest rawQuery] forceQuery]. simpl.
  unfold mbind, result_bind in H.
  repeat case_match; simplify_eq; simpl; auto.
Qed.

Lemma Parse_Ok raw u :
  url.Parse raw = Ok u →
  ∃ u0, url.parse (strings.cutByte (B raw) "#").1.1 false = Ok u0
        ∧ url.Scheme u = url.Scheme u0 ∧ url.Opaque u = url.Opaque u0
        ∧ url.RawQuery u = url.RawQuery u0 ∧ url.ForceQuery u = url.ForceQuery u0.
Proof.
  unfold url.Parse. destruct (strings.cutByte (B raw) "#") as [[u_part frag] found].
  simpl. destruct (url.parse u_part false) as [u0|e]; [|done]. simpl.
  destruct (bytes_eqb frag []).
  - intros [= <-]. by exists u0.
  - destruct (url.setFragment frag) as [[f rawf]|e]; [|done]. simpl.
    intros [= <-]. by exists u0.
Qed.

Lemma eqb_false_ne (c d : ascii) : Ascii.eqb c d = false ↔ c ≠ d.
Proof. rewrite <- Ascii.eqb_neq. done. Qed.

Lemma indexByte_None s c : strings.indexByte s c = None ↔ c ∉ s.
Proof.
  induction s as [|x s IH]; simpl.
  - split; [intros _; apply not_elem_of_nil|done].
  - destruct (Ascii.eqb x c) eqn:Hx.
    + apply Ascii.eqb_eq in Hx as ->. split; [done|]. intros []. by left.
    + apply eqb_false_ne in Hx. rewrite not_elem_of_cons, <- IH.
      destruct (strings.indexByte s c); simpl.
      * split; [done|by intros [_ ?]].
      * split; [|done]. intros _. split; [congruence|done].
Qed.

Lemma indexByte_app x c y :
  c ∉ x → strings.indexByte (x ++ c :: y) c = Some (length x).
Proof.
  induction x as [|a x IH]; intros Hx; simpl.
  - by rewrite Ascii.eqb_refl.
  - apply not_elem_of_cons in Hx as [Hne Hx].
    assert (Ascii.eqb a c = false) as -> by (apply eqb_false_ne; congruence).
    by rewrite IH.
Qed.

Lemma cutByte_found x c y :
  c ∉ x → strings.cutByte (x ++ c :: y) c = (x, y, true).
Proof.
  intros Hx. unfold strings.cutByte. rewrite indexByte_app by done.
  rewrite take_app_length. rewrite drop_app_ge by lia.
  by replace (S (length x) - length x)%nat with 1%nat by lia.
Qed.

Lemma cutByte_none s c : c ∉ s → strings.cutByte s c = (s, [], false).
Proof. intros Hs. unfold strings.cutByte. by apply indexByte_None in Hs as ->. Qed.


Lemma hasSuffix_byte l c :
  strings.hasSuffix l [c] = true ↔ ∃ l', l = l' ++ [c].
Proof.
  unfold strings.hasSuffix, bytes_eqb. change (length [c]) with 1%nat.
  rewrite andb_true_iff, Nat.leb_le, bool_decide_eq_true. split.
  - intros [Hlen Hd].
    exists (take (length l - 1) l). by rewrite <- Hd, take_drop.
  - intros [l' ->]. rewrite length_app. simpl. split; [lia|].
    replace (length l' + 1 - 1)%nat with (length l') by lia.
    by rewrite drop_app_length.
Qed.

Lemma countByte_app a b c :
  strings.countByte (a ++ b) c = (strings.countByte a c + strings.countByte b c)%nat.
Proof. unfold strings.countByte. by rewrite filter_app, length_app. Qed.

Lemma countByte_zero s c : strings.countByte s c = 0%nat ↔ c ∉ s.
Proof.
  unfold strings.countByte. induction s as [|x s IH].
  - split; [intros _; apply not_elem_of_nil|done].
  - rewrite filter_cons, not_elem_of_cons. destruct (decide (x = c)) as [->|Hne]; simpl.
    + split; [done|]. by intros [? _].
    + rewrite IH. split; [intros ?; split; [congruence|done]|by intros [_ ?]].
Qed.

Lemma countByte_cons_eq s c :
  strings.countByte (c :: s) c = S (strings.countByte s c).
Proof. unfold strings.countByte. rewrite filter_cons. by rewrite decide_True. Qed.

(** The cut at the query of what [URL.String] wrote: a part without a
    question mark, then the question mark and the raw query, if any. *)
Lemma cut_query_written x Q :
  "?"%char ∉ x → (cut_query (x ++ "?"%char :: Q)).1.2 = Q.
Proof.
  intros Hx. unfold cut_query.
  destruct (strings.hasSuffix _ _ && _) eqn:Hc.
  - simpl. apply andb_true_iff in Hc as [Hs Hn].
    apply Nat.eqb_eq in Hn. rewrite countByte_app, countByte_cons_eq in Hn.
    assert (strings.countByte Q "?" = 0%nat) as HQ by lia.
    apply countByte_zero in HQ.
    change (B "?") with ["?"%char] in Hs. apply hasSuffix_byte in Hs as [l' Hl'].
    destruct Q as [|q Q] using rev_ind; [done|]. exfalso. apply HQ.
    rewrite app_comm_cons, app_assoc in Hl'. apply app_inj_tail in Hl' as [_ ->].
    apply elem_of_app. right. by left.
  - by rewrite cutByte_found.
Qed.

Lemma cut_query_none x : "?"%char ∉ x → (cut_query x).1.2 = [].
Proof.
  intros Hx. unfold cut_query.
  destruct (strings.hasSuffix _ _ && _) eqn:Hc; [done|].
  by rewrite cutByte_none.
Qed.

End parse.

Section written.

(** [getScheme] on what [URL.String] wrote: the rest it returns is the
    whole, or what follows a colon that stands before the query. *)
Lemma getScheme_loop_rest y raw : ∀ x i scheme0 rest0,
  "?"%char ∉ x → (y = [] ∨ ∃ y', y = "?"%char :: y') →
  url.getScheme_loop i (x ++ y) raw = Ok (scheme0, rest0) →
  rest0 = raw ∨ ∃ x', ("?"%char ∉ x') ∧ rest0 = x' ++ y.
Proof.
  induction x as [|c x IH]; intros i scheme0 rest0 Hx Hy.
  - destruct Hy as [->|[y' ->]]; simpl; [intros [= _ <-]; by left|].
    intros [= _ <-]. by left.
  - apply not_elem_of_cons in Hx as [Hc Hx]. simpl.
    destruct (isLower c || isUpper c); [by apply IH|].
    destruct (isDigit c || byte_mem c "+-.").
    { destruct (i =? 0)%nat; [intros [= _ <-]; by left|by apply IH]. }
    destruct (Ascii.eqb c ":").
    { destruct (i =? 0)%nat; [done|]. intros [= _ <-]. right. by exists x. }
    intros [= _ <-]. by left.
Qed.

(** The scheme [getScheme] returns is made of scheme bytes. *)
Lemma getScheme_loop_scheme raw : ∀ rest i scheme0 rest0 seen,
  raw = seen ++ rest → length seen = i → Forall (λ c, scheme_byte c = true) seen →
  url.getScheme_loop i rest raw = Ok (scheme0, rest0) →
  Forall (λ c, scheme_byte c = true) scheme0 ∧ ∃ pre, raw = pre ++ rest0.
Proof.
  induction rest as [|c rest IH]; intros i scheme0 rest0 seen Hraw Hlen Hseen; simpl.
  - intros [= <- <-]. split; [done|]. by exists [].
  - assert (raw = (seen ++ [c]) ++ rest) as Hraw' by (by rewrite <- app_assoc).
    assert (length (seen ++ [c]) = S i) as Hlen' by (rewrite length_app; simpl; lia).
    destruct (isLower c || isUpper c) eqn:Hl.
    { apply (IH _ _ _ (seen ++ [c])); [done..|].
      apply Forall_app; split; [done|]. constructor; [|done].
      unfold scheme_byte. by rewrite Hl. }
    destruct (isDigit c || byte_mem c "+-.") eqn:Hd.
    { destruct (i =? 0)%nat; [intros [= <- <-]; split; [done|by exists []]|].
      apply (IH _ _ _ (seen ++ [c])); [done..|].
      apply Forall_app; split; [done|]. constructor; [|done].
      unfold scheme_byte. apply orb_true_iff in Hd as [Hd|Hd]; rewrite Hd;
        by rewrite ?orb_true_r. }
    destruct (Ascii.eqb c ":").
    { destruct (i =? 0)%nat; [done|]. intros [= <- <-]. split.
      - rewrite Hraw, <- Hlen, take_app_length. done.
      - exists (seen ++ [c]). done. }
    intros [= <- <-]. split; [done|by exists []].
Qed.

Lemma getScheme_Ok raw scheme0 rest0 :
  url.getScheme raw = Ok (scheme0, rest0) →
  Forall (λ c, scheme_byte c = true) scheme0 ∧ ∃ pre, raw = pre ++ rest0.
Proof. apply (getScheme_loop_scheme raw raw 0 scheme0 rest0 []); done. Qed.

Lemma scheme_byte_lower c :
  scheme_byte c = true → ¬ ends_path (strings.toLowerByte c).
Proof.
  unfold ends_path.
  destruct c as [[] [] [] [] [] [] [] []]; vm_compute; intros H [E|E]; congruence.
Qed.

End written.

(** ** What [escape] writes *)

Section escaped.

Lemma upperhex_in n : url.upperhex n ∈ B "0123456789ABCDEF".
Proof.
  unfold url.upperhex. destruct (B "0123456789ABCDEF" !! n) as [c|] eqn:Hn; simpl.
  - by apply list_elem_of_lookup_2 in Hn.
  - by left.
Qed.

Lemma elem_of_concat {A} (x : A) (ls : list (list A)) :
  x ∈ concat ls → ∃ l, x ∈ l ∧ l ∈ ls.
Proof.
  induction ls as [|l ls IH]; simpl; [by intros ?%elem_of_nil|].
  intros [Hin|Hin]%elem_of_app.
  - exists l. split; [done|by left].
  - destruct (IH Hin) as (l' & ? & ?). exists l'. split; [done|by right].
Qed.

(** A byte that the mode escapes, and that is no byte of an escape, does
    not occur in what [escape] writes. *)
Lemma escape_free mode d s :
  url.shouldEscape d mode = true → d ∉ B "%+0123456789ABCDEF" →
  d ∉ url.escape s mode.
Proof.
  intros Hd Hno Hin. unfold url.escape in Hin.
  apply elem_of_concat in Hin as (l & Hdl & Hl).
  apply list_elem_of_fmap in Hl as (c & -> & _).
  unfold url.escape_byte in Hdl. destruct (url.shouldEscape c mode) eqn:Hc.
  - apply Hno. destruct (_ && _).
    + apply list_elem_of_singleton in Hdl as ->. by right; left.
    + apply elem_of_cons in Hdl as [->|Hdl]; [by left|].
      do 2 right.
      apply elem_of_cons in Hdl as [->|Hdl]; [apply upperhex_in|].
      apply list_elem_of_singleton in Hdl as ->. apply upperhex_in.
  - apply list_elem_of_singleton in Hdl as ->. congruence.
Qed.

Lemma ends_path_escaped mode d :
  ends_path d → mode ∈ [url.encodePath; url.encodeHost; url.encodeUserPassword] →
  url.shouldEscape d mode = true ∧ d ∉ B "%+0123456789ABCDEF".
Proof.
  intros [-> | ->] Hm; repeat (apply elem_of_cons in Hm as [->|Hm]);
    try (by apply elem_of_nil in Hm); (split; [vm_compute; reflexivity|]);
    intros Hin; repeat (apply elem_of_cons in Hin as [Hin|Hin]; [discriminate|]);
    by apply elem_of_nil in Hin.
Qed.

Lemma escape_keeps_path mode s :
  mode ∈ [url.encodePath; url.encodeHost; url.encodeUserPassword] →
  Forall (λ c, ¬ ends_path c) (url.escape s mode).
Proof.
  intros Hm. apply Forall_forall. intros c Hin Hc.
  destruct (ends_path_escaped mode c Hc Hm) as [H1 H2].
  by apply (escape_free mode c s).
Qed.

(** No question mark and no number sign in the escaped path. *)
Lemma EscapedPath_keeps_path u : Forall (λ c, ¬ ends_path c) (url.EscapedPath u).
Proof.
  unfold url.EscapedPath.
  destruct (_ && _ && _) eqn:Hraw.
  - apply andb_true_iff in Hraw as [Hraw _]. apply andb_true_iff in Hraw as [_ Hv].
    unfold url.validEncoded in Hv. rewrite forallb_forall in Hv.
    apply Forall_forall. intros c Hin Hc. apply list_elem_of_In in Hin.
    specialize (Hv c Hin). destruct Hc as [-> | ->]; vm_compute in Hv; done.
  - destruct (bytes_eqb (B (url.Path u)) (B "*")).
    + constructor; [intros [?|?]; done|constructor].
    + apply escape_keeps_path. by left.
Qed.

Lemma Userinfo_String_keeps_path ui :
  Forall (λ c, ¬ ends_path c) (url.Userinfo_String ui).
Proof.
  unfold url.Userinfo_String. apply Forall_app. split.
  - apply escape_keeps_path. by do 2 right; left.
  - destruct (url.passwordSet ui); [|done]. constructor; [intros [?|?]; done|].
    apply escape_keeps_path. by do 2 right; left.
Qed.

End escaped.

(** ** What [URL.String] writes *)

Section written_url.

Lemma keeps_path_closed l :
  forallb (λ c, negb (Ascii.eqb c "?") && negb (Ascii.eqb c "#")) l = true →
  Forall (λ c, ¬ ends_path c) l.
Proof.
  rewrite forallb_forall. intros H. apply Forall_forall. intros c Hin%list_elem_of_In Hc.
  specialize (H c Hin). destruct Hc as [-> | ->]; done.
Qed.

(** What [URL.String] writes: a part without question mark and number
    sign, then the query behind a question mark, then the fragment behind
    a number sign. *)
Lemma String_written u :
  Forall (λ c, ¬ ends_path c) (B (url.Scheme u)) →
  Forall (λ c, ¬ ends_path c) (B (url.Opaque u)) →
  ∃ pre,
    Forall (λ c, ¬ ends_path c) pre
    ∧ B (url.String_ u)
      = pre
        ++ (if url.ForceQuery u || negb (bytes_eqb (B (url.RawQuery u)) [])
            then "?"%char :: B (url.RawQuery u) else [])
        ++ (if negb (bytes_eqb (B (url.Fragment u)) [])
            then "#"%char :: url.EscapedFragment u else []).
Proof.
  intros Hs Ho. unfold url.String_. rewrite B_str. cbv zeta.
  match goal with |- context [if url.ForceQuery u || _ then ?b ++ _ ++ _ else _] =>
    set (buf1 := b) end.
  assert (Forall (λ c, ¬ ends_path c) buf1) as Hbuf.
  { subst buf1.
    pose proof (EscapedPath_keeps_path u) as Hp.
    pose proof (escape_keeps_path url.encodeHost (B (url.Host u))) as Hh.
    assert (∀ ui, Forall (λ c, ¬ ends_path c) (url.Userinfo_String ui)) as Hu
      by apply Userinfo_String_keeps_path.
    assert (Forall (λ c, ¬ ends_path c) (B ":")) as H1 by (by apply keeps_path_closed).
    assert (Forall (λ c, ¬ ends_path c) (B "//")) as H2 by (by apply keeps_path_closed).
    assert (Forall (λ c, ¬ ends_path c) (B "@")) as H3 by (by apply keeps_path_closed).
    assert (Forall (λ c, ¬ ends_path c) (B "/")) as H4 by (by apply keeps_path_closed).
    assert (Forall (λ c, ¬ ends_path c) (B "./")) as H5 by (by apply keeps_path_closed).
    specialize (Hh ltac:(by right; left)).
    repeat case_match; rewrite ?Forall_app; repeat split; auto. }
  clearbody buf1. exists buf1. split; [done|].
  destruct (url.ForceQuery u || _); destruct (negb (bytes_eqb (B (url.Fragment u)) []));
    cbn [app]; rewrite ?app_nil_r, <- ?app_assoc; done.
Qed.

End written_url.

(** ** Reading the written URL *)

Section reparse.
Context `{env : Env}.

Lemma indexByte_Some s c : ∀ i,
  strings.indexByte s c = Some i → s = take i s ++ c :: drop (S i) s ∧ c ∉ take i s.
Proof.
  induction s as [|x s IH]; intros i; simpl; [done|].
  destruct (Ascii.eqb x c) eqn:Hx.
  - apply Ascii.eqb_eq in Hx as ->. intros [= <-]. simpl. rewrite drop_0.
    split; [done|apply not_elem_of_nil].
  - apply eqb_false_ne in Hx.
    destruct (strings.indexByte s c) as [j|]; [|done]. simpl. intros [= <-].
    destruct (IH j eq_refl) as [Hs Hno]. simpl. split; [by rewrite <- Hs|].
    apply not_elem_of_cons. split; [congruence|done].
Qed.

Lemma cutByte_spec s c a b f :
  strings.cutByte s c = (a, b, f) →
  (s = a ++ c :: b ∧ c ∉ a) ∨ (a = s ∧ b = [] ∧ c ∉ s).
Proof.
  unfold strings.cutByte. destruct (strings.indexByte s c) as [i|] eqn:Hi.
  - intros [= <- <- <-]. left. by apply indexByte_Some.
  - intros [= <- <- <-]. right. split; [done|]. split; [done|].
    by apply indexByte_None.
Qed.

Lemma cut_query_parts rest0 :
  (∀ c, c ∈ (cut_query rest0).1.2 → c ∈ rest0)
  ∧ (∀ c, c ∈ (cut_query rest0).1.1 → c ∈ rest0 ∧ c ≠ "?"%char).
Proof.
  unfold cut_query. destruct (strings.hasSuffix _ _ && _) eqn:Hc.
  - simpl. split; [by intros c ?%elem_of_nil|].
    apply andb_true_iff in Hc as [Hs Hn].
    change (B "?") with ["?"%char] in Hs. apply hasSuffix_byte in Hs as [l' ->].
    apply Nat.eqb_eq in Hn. rewrite countByte_app in Hn.
    change (strings.countByte ["?"%char] "?") with 1%nat in Hn.
    assert (strings.countByte l' "?" = 0%nat) as Hz by lia.
    apply countByte_zero in Hz.
    rewrite length_app. simpl.
    replace (length l' + 1 - 1)%nat with (length l') by lia.
    rewrite take_app_length. intros c Hin. split; [apply elem_of_app; by left|].
    by intros ->.
  - destruct (strings.cutByte rest0 "?") as [[a b] f] eqn:Hcut. simpl.
    apply cutByte_spec in Hcut as [[-> Hno]|(-> & -> & Hno)].
    + split.
      * intros c Hin. apply elem_of_app. right. by right.
      * intros c Hin. split; [apply elem_of_app; by left|by intros ->].
    + split; [by intros c ?%elem_of_nil|]. intros c Hin. split; [done|by intros ->].
Qed.

Lemma Forall_B_str P (l : bytes) : Forall P l → Forall P (B (str l)).
Proof. by rewrite B_str. Qed.

(** What [url.Parse] leaves in the scheme, the opaque part and the raw
    query of a URL: no number sign, and no question mark but in the query. *)
Lemma Parse_parts raw u :
  url.Parse raw = Ok u →
  Forall (λ c, ¬ ends_path c) (B (url.Scheme u))
  ∧ Forall (λ c, ¬ ends_path c) (B (url.Opaque u))
  ∧ "#"%char ∉ B (url.RawQuery u).
Proof.
  intros (u0 & Hparse & -> & -> & -> & _)%Parse_Ok.
  destruct (strings.cutByte (B raw) "#") as [[w frag] found] eqn:Hcut. simpl in Hparse.
  assert ("#"%char ∉ w) as Hw.
  { apply cutByte_spec in Hcut as [[_ ?]|(-> & _ & ?)]; done. }
  apply parse_Ok in Hparse as [[_ ->]|(scheme0 & rest0 & Hg & -> & -> & _ & Ho)].
  { simpl. split; [done|]. split; [done|apply not_elem_of_nil]. }
  apply getScheme_Ok in Hg as [Hsch [pre ->]].
  destruct (cut_query_parts rest0) as [Hq Hb].
  assert ("#"%char ∉ rest0) as Hr.
  { intros Hin. apply Hw. apply elem_of_app. by right. }
  split; [|split].
  - apply Forall_B_str, Forall_fmap. eapply Forall_impl; [exact Hsch|].
    intros c Hc. by apply scheme_byte_lower.
  - destruct Ho as [-> | ->]; [done|]. apply Forall_B_str, Forall_forall.
    intros c Hin [-> | ->].
    + by destruct (Hb _ Hin).
    + apply Hr. by destruct (Hb _ Hin).
  - rewrite B_str. intros Hin. by apply Hr, Hq.
Qed.

(** Parsing what [URL.String] wrote gives back the raw query. *)
Lemma Parse_written u u2 :
  Forall (λ c, ¬ ends_path c) (B (url.Scheme u)) →
  Forall (λ c, ¬ ends_path c) (B (url.Opaque u)) →
  "#"%char ∉ B (url.RawQuery u) →
  url.Parse (url.String_ u) = Ok u2 →
  url.RawQuery u2 = url.RawQuery u.
Proof.
  intros Hs Ho Hq (u0 & Hparse & _ & _ & -> & _)%Parse_Ok.
  destruct (String_written u Hs Ho) as (pre & Hpre & HS). rewrite HS in Hparse.
  clear HS. rewrite Forall_forall in Hpre.
  assert ("?"%char ∉ pre) as Hpre1 by (intros Hin; apply (Hpre _ Hin); by left).
  assert ("#"%char ∉ pre) as Hpre2 by (intros Hin; apply (Hpre _ Hin); by right).
  set (qpart := if url.ForceQuery u || negb (bytes_eqb (B (url.RawQuery u)) [])
                then "?"%char :: B (url.RawQuery u) else []) in *.
  assert ("#"%char ∉ pre ++ qpart) as Hno.
  { intros [?|Hin]%elem_of_app; [done|]. subst qpart.
    destruct (_ || _); [|by apply elem_of_nil in Hin].
    apply elem_of_cons in Hin as [?|?]; done. }
  assert ((strings.cutByte (pre ++ qpart ++
             (if negb (bytes_eqb (B (url.Fragment u)) [])
              then "#"%char :: url.EscapedFragment u else [])) "#").1.1 = pre ++ qpart)
    as Hcut.
  { destruct (negb (bytes_eqb (B (url.Fragment u)) [])).
    - by rewrite app_assoc, cutByte_found.
    - by rewrite app_nil_r, cutByte_none. }
  rewrite Hcut in Hparse. clear Hcut.
  assert (qpart = [] ∧ url.RawQuery u = ""
          ∨ qpart = "?"%char :: B (url.RawQuery u)) as Hqpart.
  { subst qpart. destruct (url.ForceQuery u); simpl; [by right|].
    destruct (bytes_eqb (B (url.RawQuery u)) []) eqn:He; simpl; [left|by right].
    split; [done|]. apply bool_decide_eq_true in He. apply B_inj. by rewrite He. }
  clearbody qpart.
  apply parse_Ok in Hparse as [[Hstar ->]|(scheme0 & rest0 & Hg & _ & -> & _)].
  - simpl. destruct Hqpart as [[_ ->]| ->]; [done|]. exfalso.
    assert ("?"%char ∈ B "*") as Hin
      by (rewrite <- Hstar; apply elem_of_app; right; by left).
    apply elem_of_cons in Hin as [?|Hin]; [done|by apply elem_of_nil in Hin].
  - assert (∃ x', ("?"%char ∉ x') ∧ rest0 = x' ++ qpart) as (x' & Hx' & ->).
    { apply getScheme_loop_rest in Hg as [->|Hx]; [by exists pre|done|done|].
      destruct Hqpart as [[-> _]| ->]; [by left|right; by eexists]. }
    destruct Hqpart as [[-> ->]| ->].
    + by rewrite app_nil_r, cut_query_none.
    + by rewrite cut_query_written, str_B.
Qed.

Lemma NewRequestWithContext_URL ctx method urlStr body req0 :
  http.NewRequestWithContext ctx method urlStr body = Ok req0 →
  ∃ u, url.Parse urlStr = Ok u ∧ url.RawQuery (http.URL req0) = url.RawQuery u.
Proof.
  unfold http.NewRequestWithContext.
  destruct (negb _); [done|]. destruct ctx as [c|]; [|done].
  destruct (url.Parse urlStr) as [u|e]; [|done]. simpl.
  intros [= <-]. by exists u.
Qed.

Lemma join_URL_parts u p :
  url.Scheme (join_URL u p) = url.Scheme u
  ∧ url.Opaque (join_URL u p) = url.Opaque u
  ∧ url.RawQuery (join_URL u p) = url.RawQuery u.
Proof. unfold join_URL. by destruct (strings.HasSuffix p "/"). Qed.

End reparse.

(** ** The query string, written and read *)

Section round_trip.

(** One byte through [escape] and back, in a query component. *)
Lemma unescape_escape_byte c rest :
  url.unescape_check url.encodeQueryComponent
    (url.escape_byte url.encodeQueryComponent c ++ rest)
  = url.unescape_check url.encodeQueryComponent rest
  ∧ url.unescape_decode url.encodeQueryComponent
      (url.escape_byte url.encodeQueryComponent c ++ rest)
    = c :: url.unescape_decode url.encodeQueryComponent rest
  ∧ forallb (λ d, negb (byte_mem d "&;="))
      (url.escape_byte url.encodeQueryComponent c) = true.
Proof.
  destruct c as [[] [] [] [] [] [] [] []]; repeat split; reflexivity.
Qed.

Lemma escape_cons c s mode :
  url.escape (c :: s) mode = url.escape_byte mode c ++ url.escape s mode.
Proof. done. Qed.

(** [QueryUnescape] undoes [QueryEscape]; the escaped bytes hold none of
    the separators of a query. *)
Lemma QueryUnescape_escape s :
  url.QueryUnescape (url.escape s url.encodeQueryComponent) = Ok s
  ∧ forallb (λ d, negb (byte_mem d "&;=")) (url.escape s url.encodeQueryComponent)
    = true.
Proof.
  unfold url.QueryUnescape, url.unescape.
  assert (url.unescape_check url.encodeQueryComponent
            (url.escape s url.encodeQueryComponent) = None
          ∧ url.unescape_decode url.encodeQueryComponent
              (url.escape s url.encodeQueryComponent) = s
          ∧ forallb (λ d, negb (byte_mem d "&;="))
              (url.escape s url.encodeQueryComponent) = true) as (-> & -> & ->);
    [|done].
  induction s as [|c s (IH1 & IH2 & IH3)]; [done|].
  rewrite escape_cons.
  destruct (unescape_escape_byte c (url.escape s url.encodeQueryComponent))
    as (-> & -> & H3).
  rewrite forallb_app, H3, IH1, IH2, IH3. done.
Qed.

Lemma escaped_free s c :
  c ∈ B "&;=" → c ∉ url.escape s url.encodeQueryComponent.
Proof.
  intros Hc Hin. destruct (QueryUnescape_escape s) as [_ Hall].
  rewrite forallb_forall in Hall. apply list_elem_of_In in Hin.
  specialize (Hall c Hin).
  repeat (apply elem_of_cons in Hc as [->|Hc]; [done|]). by apply elem_of_nil in Hc.
Qed.

Lemma split_byte_nonempty sep s : url.split_byte sep s ≠ [].
Proof.
  destruct s as [|c s]; simpl; [done|].
  destruct (Ascii.eqb c sep); [done|]. by destruct (url.split_byte sep s).
Qed.

Lemma split_byte_none sep a : sep ∉ a → url.split_byte sep a = [a].
Proof.
  induction a as [|c a IH]; [done|]. intros [Hc Ha]%not_elem_of_cons. simpl.
  assert (Ascii.eqb c sep = false) as -> by (apply eqb_false_ne; congruence).
  by rewrite IH.
Qed.

Lemma split_byte_snoc sep buf p :
  sep ∉ p →
  url.split_byte sep (buf ++ sep :: p) = url.split_byte sep buf ++ [p].
Proof.
  intros Hp. induction buf as [|c buf IH]; simpl.
  - by rewrite Ascii.eqb_refl, split_byte_none.
  - destruct (Ascii.eqb c sep); [by rewrite IH|]. rewrite IH.
    pose proof (split_byte_nonempty sep buf) as Hne.
    by destruct (url.split_byte sep buf).
Qed.

Lemma pair_bytes_free kv c : c ∈ B "&;" → c ∉ pair_bytes kv.
Proof.
  intros Hc. unfold pair_bytes, url.QueryEscape. rewrite !B_str.
  intros [Hin|[Hin|Hin]%elem_of_app]%elem_of_app.
  - revert Hin. apply escaped_free.
    apply elem_of_cons in Hc as [->|Hc]; [by left|].
    apply elem_of_cons in Hc as [->|Hc]; [by right; left|by apply elem_of_nil in Hc].
  - apply list_elem_of_singleton in Hin as ->.
    repeat (apply elem_of_cons in Hc as [?|Hc]; [done|]). by apply elem_of_nil in Hc.
  - revert Hin. apply escaped_free.
    apply elem_of_cons in Hc as [->|Hc]; [by left|].
    apply elem_of_cons in Hc as [->|Hc]; [by right; left|by apply elem_of_nil in Hc].
Qed.

Lemma write_pair_length buf kv : (0 < length (write_pair buf kv))%nat.
Proof.
  unfold write_pair, pair_bytes. rewrite !length_app. simpl. lia.
Qed.

(** What [ParseQuery] makes of one written pair. *)
Lemma parseQuery_step_pair m err kv :
  url.parseQuery_step (m, err) (pair_bytes kv) = (url.Add m kv.1 kv.2, err).
Proof.
  unfold url.parseQuery_step.
  assert (strings.containsByte (pair_bytes kv) ";" = false) as ->.
  { unfold strings.containsByte. apply bool_decide_eq_false. intros [i Hi].
    assert (strings.indexByte (pair_bytes kv) ";" ≠ None) as Hne by congruence.
    apply Hne, indexByte_None, pair_bytes_free. by right; left. }
  assert (bytes_eqb (pair_bytes kv) [] = false) as ->.
  { apply bool_decide_eq_false. intros He. apply (f_equal length) in He.
    unfold pair_bytes in He. rewrite !length_app in He. simpl in He. lia. }
  unfold pair_bytes at 1, url.QueryEscape. rewrite !B_str.
  change (B "=" ++ ?l) with ("="%char :: l).
  rewrite cutByte_found by (apply escaped_free; by do 2 right; left).
  destruct (QueryUnescape_escape (B kv.1)) as [-> _].
  destruct (QueryUnescape_escape (B kv.2)) as [-> _].
  by rewrite !str_B.
Qed.

(** Parsing the written pairs adds them in order. *)
Lemma parse_written_pairs pairs : ∀ acc,
  foldl url.parseQuery_step acc (url.split_byte "&" (foldl write_pair [] pairs))
  = (add_all acc.1 pairs, acc.2).
Proof.
  induction pairs as [|kv pairs IH] using rev_ind; intros [m err].
  - done.
  - rewrite foldl_app. cbn [foldl]. unfold write_pair at 1.
    destruct (0 <? length (foldl write_pair [] pairs))%nat eqn:Hlen.
    + rewrite <- app_assoc. change (B "&" ++ ?l) with ("&"%char :: l).
      rewrite split_byte_snoc by (apply pair_bytes_free; by left).
      rewrite foldl_app, IH. cbn [foldl fst snd].
      rewrite parseQuery_step_pair. unfold add_all. by rewrite foldl_app.
    + assert (pairs = []) as ->.
      { destruct pairs as [|kv' pairs _] using rev_ind; [done|].
        rewrite foldl_app in Hlen. cbn [foldl] in Hlen.
        pose proof (write_pair_length (foldl write_pair [] pairs) kv').
        apply Nat.ltb_ge in Hlen. lia. }
      cbn [foldl app]. rewrite split_byte_none by (apply pair_bytes_free; by left).
      cbn [foldl]. by rewrite parseQuery_step_pair.
Qed.

(** [Encode] writes the pairs of [pairs_of]. *)
Lemma Encode_written (q : url.Values) :
  B (url.Encode q) = foldl write_pair [] (pairs_of q).
Proof.
  unfold url.Encode, pairs_of. rewrite B_str. generalize (url.sorted_keys q).
  intros keys. generalize (@nil ascii).
  induction keys as [|k keys IH]; intros buf; [done|].
  cbn [foldl mbind list_bind]. rewrite foldl_app, <- IH. f_equal.
  unfold url.encode_key. generalize (default [] (q !! k)). intros vals. revert buf.
  induction vals as [|v vals IHv]; intros buf; [done|].
  cbn [foldl fmap list_fmap]. by rewrite <- IHv.
Qed.

Lemma filter_own_key (k : string) (vs : list string) :
  (filter (λ kv : string * string, kv.1 = k) ((λ v, (k, v)) <$> vs)).*2 = vs.
Proof.
  induction vs as [|v vs IHv]; [done|].
  rewrite fmap_cons, filter_cons. cbn [fst]. rewrite decide_True by done.
  rewrite fmap_cons. cbn [snd]. by rewrite IHv.
Qed.

Lemma filter_other_key (k k' : string) (vs : list string) :
  k' ≠ k →
  (filter (λ kv : string * string, kv.1 = k) ((λ v, (k', v)) <$> vs)).*2 = [].
Proof.
  intros Hne. induction vs as [|v vs IHv]; [done|].
  rewrite fmap_cons, filter_cons. cbn [fst]. by rewrite decide_False.
Qed.

Lemma pairs_values (f : string → list string) keys k :
  NoDup keys →
  (filter (λ kv : string * string, kv.1 = k) (keys ≫= λ k', (λ v, (k', v)) <$> f k')).*2
  = if decide (k ∈ keys) then f k else [].
Proof.
  induction keys as [|k' keys IH]; intros Hnd; [done|].
  apply NoDup_cons in Hnd as [Hk' Hnd]. cbn [mbind list_bind].
  rewrite filter_app, fmap_app, IH by done.
  destruct (decide (k' = k)) as [->|Hne].
  - destruct (decide (k ∈ keys)) as [?|_]; [done|].
    destruct (decide (k ∈ k :: keys)) as [_|Hn]; [|exfalso; apply Hn; by left].
    by rewrite app_nil_r, filter_own_key.
  - rewrite filter_other_key by done. simpl. destruct (decide (k ∈ keys)) as [Hin|Hin];
      destruct (decide (k ∈ k' :: keys)) as [Hin'|Hin']; try done.
    + exfalso. apply Hin'. by right.
    + exfalso. apply elem_of_cons in Hin' as [?|?]; congruence.
Qed.

(** The query string [Encode] writes reads back, through [ParseQuery], as
    the values it was written from, without an error. *)
Lemma ParseQuery_Encode (q : url.Values) :
  (url.ParseQuery (url.Encode q)).2 = None
  ∧ ∀ k, values_of (url.ParseQuery (url.Encode q)).1 k = values_of q k.
Proof.
  unfold url.ParseQuery. rewrite Encode_written, parse_written_pairs. simpl.
  split; [done|]. intros k. rewrite values_of_add_all. unfold values_of at 1.
  rewrite lookup_empty. simpl. unfold pairs_of.
  rewrite (pairs_values (λ k, default [] (q !! k))).
  - destruct (decide (k ∈ url.sorted_keys q)) as [Hin|Hin]; [done|].
    unfold values_of. rewrite sorted_keys_perm in Hin.
    destruct (q !! k) as [vs|] eqn:Hk; [|done]. exfalso. apply Hin.
    apply list_elem_of_fmap. exists (k, vs). split; [done|].
    by apply elem_of_map_to_list.
  - rewrite sorted_keys_perm. apply NoDup_fst_map_to_list.
Qed.

End round_trip.

(** ** The shape of the built path *)

Section shape.

Lemma no_double_snoc l c :
  no_double l → ¬ (last l = Some "/"%char ∧ c = "/"%char) → no_double (l ++ [c]).
Proof.
  induction l as [|a l IH]; intros Hl Hc; [done|].
  destruct Hl as [Ha Hl]. destruct l as [|b l].
  - simpl. split; [|done]. intros [-> ->]. by apply Hc.
  - split; [done|]. apply IH; [done|]. by rewrite last_cons_cons in Hc.
Qed.

Lemma no_double_reverse l : no_double l → no_double (reverse l).
Proof.
  induction l as [|c l IH]; [done|]. intros [Hc Hl]. rewrite reverse_cons.
  apply no_double_snoc; [by apply IH|]. rewrite last_reverse.
  destruct l as [|b l]; [by intros [? _]|]. simpl. intros [[= ->] ->]. by apply Hc.
Qed.

Lemma clean_no_double p : no_double (path.clean p).
Proof.
  destruct (clean_tidy p) as [->|(rooted & out & dotdot & _ & -> & Hn & _)].
  - simpl. done.
  - by apply no_double_reverse.
Qed.

Lemma join_no_double elem : no_double (path.join elem).
Proof.
  unfold path.join. destruct (_ =? 0)%nat; [done|apply clean_no_double].
Qed.

Lemma join_trailing_slash elem :
  strings.hasSuffix (path.join elem) (B "/") = true → path.join elem = B "/".
Proof.
  unfold path.join. destruct (_ =? 0)%nat; [done|apply clean_trailing_slash].
Qed.

(** The path of the URL that [SendWithCtx] builds is the cleaned join of
    the two paths, with a slash added when the Request's path ends with
    one.  The join has no empty segment (no two slashes in a row) and ends
    with a slash only when it is the root; so the built path has no empty
    segment either, except [//], which it is exactly when the join is the
    root and the Request's path ends with a slash. *)
Theorem join_URL_path_has_no_empty_segment (u : url.URL) (p : string) :
  let joined := path.Join [url.Path u; p] in
  let built := url.Path (join_URL u p) in
  no_double (B joined)
  ∧ (strings.HasSuffix joined "/" = true → joined = "/")
  ∧ built = (if strings.HasSuffix p "/" then joined +:+ "/" else joined)
  ∧ (built = "//" ∨ no_double (B built))
  ∧ (built = "//" ↔ joined = "/" ∧ strings.HasSuffix p "/" = true).
Proof.
  intros joined built.
  assert (no_double (B joined)) as Hnd.
  { subst joined. unfold path.Join. rewrite B_str. apply join_no_double. }
  assert (strings.HasSuffix joined "/" = true → joined = "/") as Hroot.
  { subst joined. unfold path.Join, strings.HasSuffix. rewrite B_str.
    intros Hs%join_trailing_slash. by rewrite Hs. }
  assert (built = (if strings.HasSuffix p "/" then joined +:+ "/" else joined)) as Hb.
  { subst built joined. unfold join_URL. by destruct (strings.HasSuffix p "/"). }
  split; [done|]. split; [done|]. split; [done|].
  rewrite Hb. clear Hb built. destruct (strings.HasSuffix p "/") eqn:Hp.
  - destruct (decide (joined = "/")) as [->|Hne].
    + split; [by left|done].
    + split.
      * right. rewrite B_app. apply no_double_snoc; [done|].
        intros [Hl _]. apply Hne, Hroot. unfold strings.HasSuffix.
        change (B "/") with ["/"%char]. apply hasSuffix_byte.
        apply last_Some in Hl as [l' Hl']. by exists l'.
      * split; [|by intros [? _]]. intros He. exfalso. apply Hne.
        apply B_inj. apply (f_equal B) in He. rewrite B_app in He.
        change (B "//") with (["/"%char] ++ ["/"%char]) in He.
        change (B "/") with ["/"%char] in *.
        by apply app_inj_tail in He as [-> _].
  - split; [by right|]. split; [|by intros [_ ?]].
    intros ->. exfalso. destruct Hnd as [Hd _]. by apply Hd.
Qed.

End shape.

(** ** The outgoing request, end to end *)

Section composed.
Context `{env : Env}.

Lemma Add_commute (q : url.Values) k1 v1 k2 v2 :
  k1 ≠ k2 → url.Add (url.Add q k1 v1) k2 v2 = url.Add (url.Add q k2 v2) k1 v1.
Proof.
  intros Hne. unfold url.Add. rewrite !lookup_insert_ne by done.
  by apply insert_insert_ne.
Qed.

(** Adding entries with distinct keys gives the same values in whatever
    order the entries come. *)
Lemma add_all_perm kvs kvs' :
  kvs ≡ₚ kvs' → NoDup kvs.*1 → ∀ q, add_all q kvs = add_all q kvs'.
Proof.
  induction 1 as [|x l l' Hp IH|x y l|l l' l'' Hp IH Hp' IH']; intros Hnd q.
  - done.
  - rewrite fmap_cons in Hnd. apply NoDup_cons in Hnd as [_ Hnd].
    unfold add_all in *. simpl. by apply IH.
  - rewrite !fmap_cons in Hnd. apply NoDup_cons in Hnd as [Hy _].
    unfold add_all. simpl. rewrite Add_commute; [done|].
    intros Heq. apply Hy. rewrite Heq. by left.
  - rewrite IH by done. apply IH'. by rewrite <- Hp.
Qed.

(** The query of the outgoing request: the query values of the base URL,
    with the entry of the Request's query map for each key added after
    them, written by [Encode]; the order in which [range] visits the map
    makes no difference.  Read back from the URL that is sent, the values
    are these.  The path of the Request has no part in the query: whatever
    it holds is written into the path of the URL, escaped where it would
    read as the start of a query or of a fragment. *)
Theorem dispatch_query_is_base_query_and_entries (r : nat)
    (ctx : option context.Context) (s : State) (this : Request) (req : http.Request) :
  reqs s !! r = Some this →
  trace (final_state (SendWithCtx r ctx s)) = EvDo req :: trace s →
  ∃ apiURL,
    url.Parse (baseURL this) = Ok apiURL
    ∧ let q := add_all (url.Query apiURL)
                 (map_to_list (map_entries s (Query this))) in
      url.RawQuery (http.URL req) = url.Encode q
      ∧ (∀ k, values_of q k
              = values_of (url.Query apiURL) k
                ++ match map_entries s (Query this) !! k with
                   | Some v => [v]
                   | None => []
                   end)
      ∧ (∀ k, values_of (url.Query (http.URL req)) k = values_of q k).
Proof.
  intros Hr Ht.
  destruct (SendWithCtx_sent r ctx s this req Hr Ht) as (apiURL & req0 & Hp & Hn & ->).
  apply NewRequestWithContext_URL in Hn as (u2 & Hparse & Hq).
  destruct (Parse_parts _ _ Hp) as (Hs & Ho & Hno).
  destruct (join_URL_parts apiURL (Path this)) as (Es & Eo & Eq).
  apply Parse_written in Hparse; [|by rewrite ?Es, ?Eo, ?Eq..].
  rewrite Eq in Hparse.
  assert (url.Query (http.URL req0) = url.Query apiURL) as Hbase
    by (unfold url.Query; by rewrite Hq, Hparse).
  exists apiURL. split; [done|]. intros q.
  assert (add_all (url.Query (http.URL req0))
            (range_order (map_entries s (Query this)) (world s)) = q) as Hsame.
  { subst q. rewrite Hbase. apply add_all_perm; [apply range_order_perm|].
    rewrite range_order_perm. apply NoDup_fst_map_to_list. }
  assert (http.URL (apply_query
                      (apply_headers req0
                         (range_order (map_entries s (Headers this)) (world s)))
                      (range_order (map_entries s (Query this)) (world s)))
          = url.set_RawQuery (http.URL req0) (url.Encode q)) as ->
    by (rewrite <- Hsame; reflexivity).
  split; [reflexivity|]. split.
  - intros k. subst q. apply values_of_add_range. reflexivity.
  - intros k. apply ParseQuery_Encode.
Qed.

(** A body set with [SetJSONBody] as it is dispatched: the transport is
    handed the encoding of the value as the body, and the one header
    [Content-Type: application/json], provided no other key of the
    Request's header map has the canonical form [Content-Type]. *)
Theorem SetJSONBody_then_dispatch T `{Codec T} (r : nat) (v : T)
    (ctx : option context.Context) (s s1 : State) (this : Request)
    (req : http.Request) :
  reqs s !! r = Some this →
  SetJSONBody r v s = Done None s1 →
  (∀ k, is_Some (map_entries s (Headers this) !! k) →
     http.CanonicalMIMEHeaderKey k = "Content-Type" → k = "Content-Type") →
  trace (final_state (SendWithCtx r ctx s1)) = EvDo req :: trace s1 →
  Marshal v = Ok (http.Body req)
  ∧ http.Header_ req !! "Content-Type" = Some ["application/json"].
Proof.
  intros Hr Hset Huniq Ht. rewrite run_SetJSONBody in Hset.
  destruct (Marshal v) as [j|e]; [|done]. rewrite Hr in Hset. cbn zeta in Hset.
  destruct (Headers this) as [lh|] eqn:Hh; [|done]. simpl in Hset.
  destruct (maps s !! lh) as [mm|] eqn:Hm; [|done]. simpl in Hset.
  injection Hset as <-.
  match type of Ht with trace (final_state (SendWithCtx r ctx ?a)) = _ =>
    set (s1 := a) in * end.
  assert (reqs s1 !! r = Some (set_Body this j)) as Hr1
    by (simpl; apply lookup_insert_eq).
  destruct (SendWithCtx_sent r ctx s1 _ req Hr1 Ht) as (apiURL & req0 & _ & Hn & ->).
  apply NewRequestWithContext_Ok in Hn as (_ & Hb & _ & Hempty & _).
  split; [simpl; by rewrite Hb|].
  simpl. rewrite foldl_Set, Hempty, lookup_empty.
  assert (map_entries s1 (Headers (set_Body this j))
          = <["Content-Type" := "application/json"]> mm) as Hent.
  { unfold map_entries. simpl. rewrite Hh. simpl. by rewrite lookup_insert_eq. }
  simpl in Hent. rewrite Hent.
  assert (http.CanonicalMIMEHeaderKey "Content-Type" = "Content-Type") as Hcanon
    by (vm_compute; reflexivity).
  pose proof (sent_header_unique (<["Content-Type" := "application/json"]> mm)
                (range_order (<["Content-Type" := "application/json"]> mm) (world s1))
                "Content-Type" "application/json"
                (range_order_perm _ _) (lookup_insert_eq _ _ _)) as Hsent.
  rewrite Hcanon in Hsent. change (world s1) with (world s) in Hsent.
  rewrite Hsent; [done|].
  intros k [x Hk] Hc. destruct (decide (k = "Content-Type")) as [->|Hne]; [done|].
  rewrite lookup_insert_ne in Hk by done. apply Huniq; [|done].
  unfold map_entries. simpl. rewrite Hm. simpl. by eexists.
Qed.

End composed.

(** ** Plain base URLs: where the request goes *)

Section plain.

Lemma host_byte_facts c :
  host_byte c = true →
  negb ((byte_val c <? 32)%nat || (byte_val c =? 127)%nat)
  && negb (byte_mem c "#?%+@:[/")
  && negb ((byte_val c <? 128)%nat && url.shouldEscape c url.encodeHost) = true.
Proof.
  destruct c as [[] [] [] [] [] [] [] []]; vm_compute; intros H;
    first [reflexivity|discriminate H].
Qed.

Lemma path_byte_facts c :
  path_byte c = true →
  negb ((byte_val c <? 32)%nat || (byte_val c =? 127)%nat)
  && negb (byte_mem c "#?%+")
  && negb (url.shouldEscape c url.encodePath) = true.
Proof.
  destruct c as [[] [] [] [] [] [] [] []]; vm_compute; intros H;
    first [reflexivity|discriminate H].
Qed.

Lemma host_byte_escape c :
  host_byte c = true → url.shouldEscape c url.encodeHost = false.
Proof.
  destruct c as [[] [] [] [] [] [] [] []]; vm_compute; intros H;
    first [reflexivity|discriminate H].
Qed.

Lemma byte_mem_false c set d : byte_mem c set = false → d ∈ B set → c ≠ d.
Proof.
  unfold byte_mem. intros Hm Hd ->.
  assert (existsb (Ascii.eqb d) (B set) = true) as Ht; [|congruence].
  apply existsb_exists. exists d. split; [by apply list_elem_of_In|].
  apply Ascii.eqb_refl.
Qed.

(** A byte that is in none of the given ones does not occur. *)
Lemma forallb_free (P : ascii → bool) set d l :
  (∀ c, P c = true → byte_mem c set = false) → d ∈ B set →
  forallb P l = true → d ∉ l.
Proof.
  intros HP Hd Hl Hin. rewrite forallb_forall in Hl.
  apply list_elem_of_In in Hin. specialize (Hl d Hin).
  by apply (byte_mem_false d set d (HP d Hl) Hd).
Qed.

Lemma host_free d l :
  d ∈ B "#?%+@:[/" → forallb host_byte l = true → d ∉ l.
Proof.
  apply forallb_free. intros c Hc. apply host_byte_facts in Hc.
  apply andb_true_iff in Hc as [Hc _]. apply andb_true_iff in Hc as [_ Hc].
  by apply negb_true_iff in Hc.
Qed.

Lemma path_free d l :
  d ∈ B "#?%+" → forallb path_byte l = true → d ∉ l.
Proof.
  apply forallb_free. intros c Hc. apply path_byte_facts in Hc.
  apply andb_true_iff in Hc as [Hc _]. apply andb_true_iff in Hc as [_ Hc].
  by apply negb_true_iff in Hc.
Qed.

Lemma lastIndexByte_None s c : c ∉ s → strings.lastIndexByte s c = None.
Proof.
  induction s as [|x s IH]; [done|]. intros [Hx Hs]%not_elem_of_cons. simpl.
  rewrite IH by done.
  assert (Ascii.eqb x c = false) as -> by (apply eqb_false_ne; congruence). done.
Qed.

(** Bytes that need no escape and hold no escape go through [unescape]
    and [escape] as they are. *)
Lemma unescape_plain mode l :
  "%"%char ∉ l → "+"%char ∉ l →
  Forall (λ c, ((byte_val c <? 128)%nat && url.shouldEscape c url.encodeHost) = false
               ∨ (mode ≠ url.encodeHost ∧ mode ≠ url.encodeZone)) l →
  url.unescape l mode = Ok l.
Proof.
  intros Hp Hq Hl. unfold url.unescape.
  assert (url.unescape_check mode l = None ∧ url.unescape_decode mode l = l)
    as [-> ->]; [|done].
  induction l as [|c l IH]; [done|].
  apply not_elem_of_cons in Hp as [Hp1 Hp]. apply not_elem_of_cons in Hq as [Hq1 Hq].
  apply Forall_cons in Hl as [Hc Hl]. destruct (IH Hp Hq Hl) as [IH1 IH2].
  simpl.
  assert (Ascii.eqb c "%" = false) as -> by (apply eqb_false_ne; congruence).
  assert (Ascii.eqb c "+" = false) as -> by (apply eqb_false_ne; congruence).
  rewrite IH1, IH2.
  destruct Hc as [Hc|[H1 H2]].
  - rewrite <- andb_assoc, Hc, andb_false_r. done.
  - rewrite (bool_decide_eq_false_2 _ H1), (bool_decide_eq_false_2 _ H2). done.
Qed.

Lemma escape_plain mode l :
  Forall (λ c, url.shouldEscape c mode = false) l → url.escape l mode = l.
Proof.
  induction 1 as [|c l Hc _ IH]; [done|].
  rewrite escape_cons, IH. unfold url.escape_byte. by rewrite Hc.
Qed.

End plain.

Section plain_parse.

Lemma hasPrefix_app p l : strings.hasPrefix (p ++ l) p = true.
Proof.
  unfold strings.hasPrefix, bytes_eqb. rewrite length_app, take_app_length.
  apply andb_true_iff. split; [apply Nat.leb_le; lia|by apply bool_decide_eq_true].
Qed.

Lemma CTL_free l :
  Forall (λ c, (byte_val c <? 32)%nat || (byte_val c =? 127)%nat = false) l →
  url.stringContainsCTLByte l = false.
Proof.
  unfold url.stringContainsCTLByte. induction 1 as [|c l Hc _ IH]; [done|].
  simpl. by rewrite Hc, IH.
Qed.

Lemma parse_plain (sch host path : bytes) :
  sch = B "http" ∨ sch = B "https" →
  forallb host_byte host = true → forallb path_byte path = true →
  path = [] ∨ strings.hasPrefix path (B "/") = true →
  url.parse (sch ++ B "://" ++ host ++ path) false
  = Ok (plain_URL (str sch) (str host) (str path)).
Proof.
  intros Hsch Hhost Hpath Hroot.
  assert (url.stringContainsCTLByte (sch ++ B "://" ++ host ++ path) = false) as Hctl.
  { apply CTL_free. rewrite !Forall_app. split; [|split; [|split]].
    - destruct Hsch as [-> | ->]; repeat constructor.
    - repeat constructor.
    - apply Forall_forall. intros c Hc%list_elem_of_In.
      rewrite forallb_forall in Hhost. specialize (Hhost c Hc).
      apply host_byte_facts in Hhost. apply andb_true_iff in Hhost as [Hh _].
      apply andb_true_iff in Hh as [Hh _]. by apply negb_true_iff in Hh.
    - apply Forall_forall. intros c Hc%list_elem_of_In.
      rewrite forallb_forall in Hpath. specialize (Hpath c Hc).
      apply path_byte_facts in Hpath. apply andb_true_iff in Hpath as [Hh _].
      apply andb_true_iff in Hh as [Hh _]. by apply negb_true_iff in Hh. }
  unfold url.parse. rewrite Hctl.
  assert (bytes_eqb (sch ++ B "://" ++ host ++ path) [] = false) as ->.
  { apply bool_decide_eq_false. by destruct Hsch as [-> | ->]. }
  assert (bytes_eqb (sch ++ B "://" ++ host ++ path) (B "*") = false) as ->.
  { apply bool_decide_eq_false. by destruct Hsch as [-> | ->]. }
  assert (url.getScheme (sch ++ B "://" ++ host ++ path)
          = Ok (sch, B "//" ++ host ++ path)) as ->.
  { by destruct Hsch as [-> | ->]. }
  cbn [mbind result_bind]. set (rest := B "//" ++ host ++ path).
  assert ("?"%char ∉ rest) as Hq.
  { subst rest. intros [Hin|[Hin|Hin]%elem_of_app]%elem_of_app.
    - repeat (apply elem_of_cons in Hin as [?|Hin]; [done|]). by apply elem_of_nil in Hin.
    - revert Hin. apply host_free; [by right; left|done].
    - revert Hin. apply path_free; [by right; left|done]. }
  assert (strings.countByte rest "?" = 0%nat) as -> by (by apply countByte_zero).
  change (0 =? 1)%nat with false.
  rewrite (andb_false_r (strings.hasSuffix rest (B "?"))), (cutByte_none rest "?" Hq).
  cbv beta iota zeta.
  assert (strings.hasPrefix rest (B "/") = true) as ->
    by apply (hasPrefix_app (B "/") ("/"%char :: host ++ path)).
  assert (strings.hasPrefix rest (B "//") = true) as -> by apply hasPrefix_app.
  assert (strings.toLowerByte <$> sch = sch) as ->
    by (by destruct Hsch as [-> | ->]).
  assert (bytes_eqb sch [] = false) as ->
    by (apply bool_decide_eq_false; by destruct Hsch as [-> | ->]).
  cbn [negb orb andb]. change (drop 2 rest) with (host ++ path).
  assert (match strings.indexByte (host ++ path) "/" with
          | Some i => (take i (host ++ path), drop i (host ++ path))
          | None => (host ++ path, [])
          end = (host, path)) as ->.
  { assert ("/"%char ∉ host) as Hh
      by (apply host_free; [by do 7 right; left|done]).
    destruct Hroot as [->|Hp].
    - rewrite app_nil_r. by apply indexByte_None in Hh as ->.
    - destruct path as [|c path']; [done|].
      assert (c = "/"%char) as ->.
      { unfold strings.hasPrefix, bytes_eqb in Hp. simpl in Hp.
        by apply bool_decide_eq_true in Hp as [= ->]. }
      rewrite indexByte_app by done.
      by rewrite take_app_length, drop_app_length. }
  assert (url.parseAuthority host = Ok (None, host)) as ->.
  { unfold url.parseAuthority, url.parseHost.
    rewrite (lastIndexByte_None host "@")
      by (apply host_free; [by do 4 right; left|done]).
    assert (strings.hasPrefix host (B "[") = false) as ->.
    { destruct host as [|c host']; [done|].
      unfold strings.hasPrefix, bytes_eqb. simpl. apply bool_decide_eq_false.
      intros [= ->]. simpl in Hhost. done. }
    rewrite (lastIndexByte_None host ":")
      by (apply host_free; [by do 5 right; left|done]).
    rewrite unescape_plain; [done| | |].
    - apply host_free; [by do 2 right; left|done].
    - apply host_free; [by do 3 right; left|done].
    - apply Forall_forall. intros c Hc%list_elem_of_In. left.
      rewrite forallb_forall in Hhost. specialize (Hhost c Hc).
      apply host_byte_facts in Hhost. apply andb_true_iff in Hhost as [_ Hh].
      by apply negb_true_iff in Hh. }
  cbn [mbind result_bind].
  assert (url.setPath path = Ok (path, [])) as ->.
  { unfold url.setPath. rewrite unescape_plain.
    - cbn [mbind result_bind]. rewrite escape_plain.
      + unfold bytes_eqb. by rewrite bool_decide_true.
      + apply Forall_forall. intros c Hc%list_elem_of_In.
        rewrite forallb_forall in Hpath. specialize (Hpath c Hc).
        apply path_byte_facts in Hpath. apply andb_true_iff in Hpath as [_ Hh].
        by apply negb_true_iff in Hh.
    - apply path_free; [by do 2 right; left|done].
    - apply path_free; [by do 3 right; left|done].
    - apply Forall_forall. intros c _. by right. }
  done.
Qed.

(** A plain base URL parses, into its scheme, host and path. *)
Lemma Parse_plain (scheme host path : string) :
  plain_base scheme host path →
  url.Parse (scheme +:+ "://" +:+ host +:+ path) = Ok (plain_URL scheme host path).
Proof.
  intros (Hs & Hh & Hp & Hroot). unfold url.Parse. rewrite !B_app.
  assert (B scheme = B "http" ∨ B scheme = B "https") as Hs'
    by (destruct Hs as [-> | ->]; [by left|by right]).
  assert (B path = [] ∨ strings.hasPrefix (B path) (B "/") = true) as Hroot'
    by (destruct Hroot as [->|?]; [by left|by right]).
  rewrite cutByte_none.
  - cbn [fst snd]. rewrite parse_plain by done. cbn [mbind result_bind].
    unfold bytes_eqb. rewrite bool_decide_true by done. by rewrite !str_B.
  - intros [Hin|[Hin|[Hin|Hin]%elem_of_app]%elem_of_app]%elem_of_app.
    + destruct Hs' as [He|He]; rewrite He in Hin;
        repeat (apply elem_of_cons in Hin as [?|Hin]; [done|]);
        by apply elem_of_nil in Hin.
    + repeat (apply elem_of_cons in Hin as [?|Hin]; [done|]).
      by apply elem_of_nil in Hin.
    + revert Hin. apply host_free; [by left|done].
    + revert Hin. apply path_free; [by left|done].
Qed.

End plain_parse.

Section clean_bytes.
Variable P : ascii → Prop.
Hypothesis P_slash : P "/"%char.
Hypothesis P_dot : P "."%char.

Lemma copy_element_bytes rest : ∀ out rest' out',
  path.copy_element rest out = (rest', out') →
  Forall P rest → Forall P out → Forall P rest' ∧ Forall P out'.
Proof.
  induction rest as [|c rest IH]; intros out rest' out'; simpl.
  - by intros [= <- <-].
  - destruct (Ascii.eqb c "/").
    + by intros [= <- <-].
    + intros Hc [Hp Hrest]%Forall_cons Hout. eapply IH; [done|done|].
      by constructor.
Qed.

Lemma backtrack_bytes dotdot out : Forall P out → Forall P (path.backtrack dotdot out).
Proof.
  induction out as [|c out IH]; [done|]. intros [_ Hout]%Forall_cons. simpl.
  destruct (_ && _); [by apply IH|done].
Qed.

(** [Clean] writes bytes of the path it reads, slashes and dots. *)
Lemma clean_loop_bytes rooted fuel : ∀ rest out dotdot out',
  path.clean_loop fuel rooted rest out dotdot = Some out' →
  Forall P rest → Forall P out → Forall P out'.
Proof.
  induction fuel as [|fuel IH]; intros rest out dotdot out'.
  { destruct rest; [|done]. by intros [= <-]. }
  destruct rest as [|c rest1]; [by intros [= <-]|].
  cbn [path.clean_loop]. intros Hrun [Hc Hrest]%Forall_cons Hout.
  destruct (Ascii.eqb c "/"); [by eapply IH|].
  destruct (Ascii.eqb c "." && path.end_or_slash rest1); [by eapply IH|].
  assert (Forall P (tail rest1)) as Htail by (destruct rest1; [done|by apply Forall_cons in Hrest as [_ ?]]).
  match type of Hrun with context [Ascii.eqb c "." && ?b] => destruct (Ascii.eqb c "." && b) end.
  - destruct (dotdot <? length out)%nat.
    + eapply IH; [done|done|]. by apply backtrack_bytes.
    + destruct (negb rooted); [|by eapply IH].
      eapply IH; [done|done|]. repeat (constructor; [done|]).
      destruct (0 <? length out)%nat; [by constructor|done].
  - destruct (path.copy_element _ _) as [rest' out2] eqn:Hcopy.
    apply copy_element_bytes in Hcopy as [Hr' Ho'].
    + by eapply IH.
    + by constructor.
    + destruct (_ || _); [by constructor|done].
Qed.

Lemma clean_bytes p : Forall P p → Forall P (path.clean p).
Proof.
  intros Hp. unfold path.clean. destruct p as [|c0 p']; [by repeat constructor|].
  apply Forall_cons in Hp as Hp'. destruct Hp' as [Hc0 Hp'].
  destruct (Ascii.eqb c0 "/").
  - destruct (path.clean_loop _ _ _ _ _) as [out|] eqn:Hrun;
      [|by repeat constructor].
    apply clean_loop_bytes in Hrun; [|done|by repeat constructor].
    destruct out; [by repeat constructor|]. by apply Forall_reverse.
  - destruct (path.clean_loop _ _ _ _ _) as [out|] eqn:Hrun;
      [|by repeat constructor].
    apply clean_loop_bytes in Hrun; [|done|done].
    destruct out; [by repeat constructor|]. by apply Forall_reverse.
Qed.

Lemma join_bytes elem : Forall (Forall P) elem → Forall P (path.join elem).
Proof.
  intros He. unfold path.join. destruct (_ =? 0)%nat; [constructor|].
  apply clean_bytes.
  assert (∀ buf, Forall P buf → Forall P (foldl path.join_step buf elem)) as Hall;
    [|by apply Hall].
  induction He as [|e elem He _ IH]; intros buf Hbuf; [done|].
  simpl. apply IH. unfold path.join_step.
  destruct (_ || _); [|done]. apply Forall_app. split; [|done].
  destruct (0 <? length buf)%nat; [|done]. apply Forall_app. split; [done|].
  by repeat constructor.
Qed.

End clean_bytes.

Section plain_written.

Lemma bytes_eqb_nil_B s : bytes_eqb (B s) [] = bool_decide (s = "").
Proof.
  unfold bytes_eqb. destruct s as [|a s]; [done|].
  rewrite (bool_decide_eq_false_2 (B (String a s) = [])) by done.
  by rewrite bool_decide_eq_false_2.
Qed.

(** What [URL.String] writes for a plain URL, with a raw query or none. *)
Lemma String_plain scheme host path q :
  scheme = "http" ∨ scheme = "https" → host ≠ "" →
  forallb host_byte (B host) = true → forallb path_byte (B path) = true →
  url.String_ (url.set_RawQuery (plain_URL scheme host path) q)
  = scheme +:+ "://" +:+ host +:+ sent_path path
    +:+ (if bool_decide (q = "") then "" else "?" +:+ q).
Proof.
  intros Hs Hne Hh Hp.
  unfold url.String_, url.EscapedPath, url.set_RawQuery, plain_URL.
  cbn [url.Scheme url.Opaque url.User url.Host url.Path url.RawPath url.OmitHost
       url.ForceQuery url.RawQuery url.Fragment url.RawFragment].
  change (B "") with (@nil ascii). change (bytes_eqb [] []) with true.
  assert (bytes_eqb (B scheme) [] = false) as ->
    by (rewrite bytes_eqb_nil_B; apply bool_decide_eq_false;
        by destruct Hs as [-> | ->]).
  assert (bytes_eqb (B host) [] = false) as ->
    by (rewrite bytes_eqb_nil_B; by apply bool_decide_eq_false).
  change (bool_decide (is_Some (@None url.Userinfo))) with false.
  cbn [negb andb orb]. cbv beta iota.
  assert (bytes_eqb (B path) (B "*") = false) as ->.
  { apply bool_decide_eq_false. intros He. rewrite He in Hp. done. }
  rewrite escape_plain.
  2:{ apply Forall_forall. intros c Hc%list_elem_of_In.
      rewrite forallb_forall in Hp. specialize (Hp c Hc).
      apply path_byte_facts in Hp. apply andb_true_iff in Hp as [_ Hp].
      by apply negb_true_iff in Hp. }
  rewrite escape_plain.
  2:{ apply Forall_forall. intros c Hc%list_elem_of_In.
      rewrite forallb_forall in Hh. specialize (Hh c Hc).
      by apply host_byte_escape in Hh. }
  rewrite andb_true_r.
  assert (∀ b : bool,
            bytes_eqb (if b then (((B scheme ++ B ":") ++ B "//") ++ B host) ++ B "/"
                       else ((B scheme ++ B ":") ++ B "//") ++ B host) [] = false)
    as Hbuf.
  { intros b. apply bool_decide_eq_false. intros He. apply (f_equal length) in He.
    destruct b; rewrite !length_app in He; simpl in He; lia. }
  rewrite Hbuf. cbn [andb]. apply B_inj. rewrite B_str, !B_app.
  unfold sent_path, strings.HasPrefix. rewrite !bytes_eqb_nil_B.
  destruct (bool_decide (q = "")); cbn [negb orb]; cbv beta iota;
    (destruct (decide (path = "")) as [->|Hpne];
     [rewrite bool_decide_true by done
     |rewrite (bool_decide_eq_false_2 (path = "")) by done;
      destruct (strings.hasPrefix (B path) (B "/"))]);
    cbn [negb andb]; cbv beta iota; rewrite ?B_app; change (B "") with (@nil ascii);
    rewrite ?app_nil_r, <- ?app_assoc; done.
Qed.

End plain_written.

Section plain_dispatch.
Context `{env : Env}.

Lemma join_URL_plain scheme host bpath p :
  join_URL (plain_URL scheme host bpath) p
  = plain_URL scheme host (url.Path (join_URL (plain_URL scheme host bpath) p)).
Proof. unfold join_URL. by destruct (strings.HasSuffix p "/"). Qed.

Lemma forallb_Forall_true (P : ascii → bool) l :
  forallb P l = true ↔ Forall (λ c, P c = true) l.
Proof.
  rewrite forallb_forall, Forall_forall. split; intros H c Hc; apply H.
  - by apply list_elem_of_In.
  - by apply list_elem_of_In.
Qed.

(** The built path of a plain base path and a plain Request path is plain. *)
Lemma join_URL_path_plain scheme host bpath p :
  forallb path_byte (B bpath) = true → forallb path_byte (B p) = true →
  forallb path_byte (B (url.Path (join_URL (plain_URL scheme host bpath) p))) = true.
Proof.
  intros Hb Hp. apply forallb_Forall_true in Hb, Hp.
  assert (Forall (λ c, path_byte c = true) (B (path.Join [bpath; p]))) as Hj.
  { unfold path.Join. rewrite B_str.
    apply (join_bytes (λ c, path_byte c = true)); [done|done|].
    by repeat constructor. }
  apply forallb_Forall_true. unfold join_URL.
  destruct (strings.HasSuffix p "/"); simpl; [|done].
  rewrite B_app. apply Forall_app. split; [done|]. by repeat constructor.
Qed.

Lemma sent_path_plain path :
  forallb path_byte (B path) = true →
  forallb path_byte (B (sent_path path)) = true
  ∧ (sent_path path = "" ∨ strings.HasPrefix (sent_path path) "/" = true).
Proof.
  intros Hp. unfold sent_path. destruct (bool_decide (path = "")); [by split; [|left]|].
  destruct (strings.HasPrefix path "/") eqn:Hs; [by split; [|right]|].
  split; [|by right]. by rewrite B_app, forallb_app, Hp.
Qed.

Lemma removeEmptyPort_plain host :
  forallb host_byte (B host) = true → http.removeEmptyPort host = host.
Proof.
  intros Hh. unfold http.removeEmptyPort, http.hasPort.
  rewrite lastIndexByte_None; [done|]. apply host_free; [by do 5 right; left|done].
Qed.

(** [http.NewRequestWithContext] for the URL built from a plain base URL
    and a plain path. *)
Lemma NewRequestWithContext_plain c method scheme host bpath p body :
  plain_base scheme host bpath → host ≠ "" → forallb path_byte (B p) = true →
  method = "" ∨ http.validMethod method = true →
  let built := url.Path (join_URL (plain_URL scheme host bpath) p) in
  http.NewRequestWithContext (Some c) method
    (url.String_ (join_URL (plain_URL scheme host bpath) p)) body
  = Ok {| http.ctx := c;
          http.Method := if bool_decide (method = "") then "GET" else method;
          http.URL := plain_URL scheme host (sent_path built);
          http.Header_ := ∅; http.Body := body; http.Host := host |}.
Proof.
  intros (Hs & Hh & Hb & Hroot) Hne Hp Hm built.
  unfold http.NewRequestWithContext.
  assert (http.validMethod (if bool_decide (method = "") then "GET" else method) = true)
    as ->.
  { destruct Hm as [->|Hm]; [done|]. by destruct (bool_decide (method = "")). }
  cbn [negb].
  pose proof (join_URL_path_plain scheme host bpath p Hb Hp) as Hbuilt. fold built in Hbuilt.
  destruct (sent_path_plain built Hbuilt) as [Hsp Hsr].
  rewrite join_URL_plain. fold built.
  change (plain_URL scheme host built)
    with (url.set_RawQuery (plain_URL scheme host built) "").
  rewrite String_plain by done.
  rewrite (bool_decide_eq_true_2 (@eq string "" "") eq_refl).
  assert (∀ x : string, x +:+ "" = x) as Happ.
  { intros x. apply B_inj. rewrite B_app. apply app_nil_r. }
  rewrite Happ.
  rewrite (Parse_plain scheme host (sent_path built)) by (by split; [|split; [|split]]).
  cbn [mbind result_bind].
  unfold plain_URL. cbn [url.Host url.set_Host url.Scheme url.Opaque url.User
    url.Path url.RawPath url.OmitHost url.ForceQuery url.RawQuery url.Fragment
    url.RawFragment].
  by rewrite !removeEmptyPort_plain.
Qed.

End plain_dispatch.

Section plain_theorems.
Context `{env : Env}.

(** The dispatch of a Request with a plain path and a valid method, made
    by a client with a plain base URL with a host: [SendWithCtx] with a
    context makes one round trip, to the URL that reads scheme, host, the
    cleaned join of the two paths (behind a slash, and with the trailing
    slash of the Request's path), and the entries of the Request's query
    map encoded, behind a question mark when there are any. *)
Theorem dispatch_to_plain_base_URL (r : nat) (c : context.Context) (s : State)
    (this : Request) (scheme host bpath : string) :
  reqs s !! r = Some this →
  baseURL this = scheme +:+ "://" +:+ host +:+ bpath →
  plain_base scheme host bpath → host ≠ "" →
  forallb path_byte (B (Path this)) = true →
  Method this = "" ∨ http.validMethod (Method this) = true →
  let built := url.Path (join_URL (plain_URL scheme host bpath) (Path this)) in
  let query := url.Encode (add_all ∅ (map_to_list (map_entries s (Query this)))) in
  ∃ req,
    trace (final_state (SendWithCtx r (Some c) s)) = EvDo req :: trace s
    ∧ http.URL req = url.set_RawQuery (plain_URL scheme host (sent_path built)) query
    ∧ url.String_ (http.URL req)
      = scheme +:+ "://" +:+ host +:+ sent_path built
        +:+ (if bool_decide (query = "") then "" else "?" +:+ query)
    ∧ http.Host req = host.
Proof.
  intros Hr Hbase Hplain Hne Hp Hm built query.
  pose proof (Parse_plain scheme host bpath Hplain) as Hparse. rewrite <- Hbase in Hparse.
  pose proof (NewRequestWithContext_plain c (Method this) scheme host bpath (Path this)
                (Body this) Hplain Hne Hp Hm) as Hnew.
  cbn zeta in Hnew. fold built in Hnew.
  rewrite (run_SendWithCtx r (Some c) s this _ _ Hr Hparse Hnew).
  eexists. split; [reflexivity|].
  assert (add_all ∅ (range_order (map_entries s (Query this)) (world s))
          = add_all ∅ (map_to_list (map_entries s (Query this)))) as Hq.
  { apply add_all_perm; [apply range_order_perm|].
    rewrite range_order_perm. apply NoDup_fst_map_to_list. }
  assert (http.URL
            (apply_query
               (apply_headers
                  {| http.ctx := c;
                     http.Method := if bool_decide (Method this = "") then "GET"
                                    else Method this;
                     http.URL := plain_URL scheme host (sent_path built);
                     http.Header_ := ∅; http.Body := Body this; http.Host := host |}
                  (range_order (map_entries s (Headers this)) (world s)))
               (range_order (map_entries s (Query this)) (world s)))
          = url.set_RawQuery (plain_URL scheme host (sent_path built)) query) as Hurl.
  { subst query. rewrite <- Hq. reflexivity. }
  rewrite Hurl. split; [reflexivity|]. split; [|reflexivity].
  destruct Hplain as (Hs & Hh & Hb & _).
  destruct (sent_path_plain built (join_URL_path_plain scheme host bpath _ Hb Hp))
    as [Hsp Hroot].
  rewrite (String_plain scheme host (sent_path built) query) by done.
  assert (sent_path (sent_path built) = sent_path built) as ->; [|done].
  unfold sent_path at 1. destruct Hroot as [-> | ->]; [done|].
  by destruct (bool_decide (sent_path built = "")) eqn:He;
    [apply bool_decide_eq_true in He|].
Qed.

(** With a plain base URL the dispatch never panics, whatever the method,
    the path, the maps, the context and the transport. *)
Theorem dispatch_of_plain_base_URL_never_panics T `{Codec T} (r : nat)
    (ctx : option context.Context) (s : State) (this : Request)
    (scheme host bpath : string) :
  reqs s !! r = Some this →
  baseURL this = scheme +:+ "://" +:+ host +:+ bpath →
  plain_base scheme host bpath →
  panicked (SendWithCtx r ctx s) = None
  ∧ panicked (Send r s) = None
  ∧ panicked (SendWithJSONResponse T r s) = None.
Proof.
  intros Hr Hbase Hplain.
  pose proof (Parse_plain scheme host bpath Hplain) as Hparse. rewrite <- Hbase in Hparse.
  assert (¬ undispatchable s r) as Hok.
  { intros [Hn|(this' & e & Hr' & He)]; [congruence|].
    rewrite Hr in Hr'. injection Hr' as <-. congruence. }
  split; [|split].
  - destruct (panicked (SendWithCtx r ctx s)) as [msg|] eqn:Hp; [|done].
    apply SendWithCtx_panicked in Hp as [_ ?]. done.
  - destruct (panicked (Send r s)) as [msg|] eqn:Hp; [|done].
    apply Send_panicked in Hp as [_ ?]. done.
  - destruct (panicked (SendWithJSONResponse T r s)) as [msg|] eqn:Hp; [|done].
    apply SendWithJSONResponse_panicked in Hp as [_ ?]. done.
Qed.

End plain_theorems.

(** ** What is sent does not depend on the environment *)

Section determined.
Context `{env : Env}.

Lemma sent_header_None hs K :
  sent_header hs K = None → ∀ k v, (k, v) ∈ hs → http.CanonicalMIMEHeaderKey k ≠ K.
Proof.
  unfold sent_header. intros Hn k v Hin Hc.
  destruct (last _) as [kv|] eqn:Hl; [done|]. apply last_None in Hl.
  assert ((k, v) ∈ filter (λ kv : string * string,
            http.CanonicalMIMEHeaderKey kv.1 = K) hs) as Hf
    by (by apply list_elem_of_filter).
  rewrite Hl in Hf. by apply elem_of_nil in Hf.
Qed.

(** When no two keys of a map have the same canonical form, the headers
    set from its entries are the same in whatever order they come. *)
Lemma sent_header_perm (m : gmap string string) hs hs' K :
  hs ≡ₚ map_to_list m → hs' ≡ₚ map_to_list m →
  (∀ k k', is_Some (m !! k) → is_Some (m !! k') →
     http.CanonicalMIMEHeaderKey k = http.CanonicalMIMEHeaderKey k' → k = k') →
  sent_header hs K = sent_header hs' K.
Proof.
  intros Hp Hp' Huniq.
  destruct (sent_header hs K) as [vs|] eqn:Hs.
  - apply sent_header_Some in Hs as (k & v & Hin & <- & ->).
    rewrite Hp in Hin. apply elem_of_map_to_list in Hin. symmetry.
    eapply sent_header_unique; [done|done|].
    intros k' Hk' Hc. apply Huniq; [done|by eexists|done].
  - destruct (sent_header hs' K) as [vs|] eqn:Hs'; [|done]. exfalso.
    apply sent_header_Some in Hs' as (k & v & Hin & Hc & _).
    rewrite Hp', <- Hp in Hin. by apply (sent_header_None hs K Hs k v).
Qed.

(** The request that is sent is determined by the Request and the context:
    two round trips for the same Request, with the same entries in its
    maps, made at any times and with any iteration orders, carry the same
    method, body, URL, host and context; and the same headers, unless two
    keys of the header map have the same canonical form. *)
Theorem outgoing_request_is_determined (r : nat) (ctx : option context.Context)
    (s s' : State) (this : Request) (req req' : http.Request) :
  reqs s !! r = Some this → reqs s' !! r = Some this →
  map_entries s' (Query this) = map_entries s (Query this) →
  map_entries s' (Headers this) = map_entries s (Headers this) →
  trace (final_state (SendWithCtx r ctx s)) = EvDo req :: trace s →
  trace (final_state (SendWithCtx r ctx s')) = EvDo req' :: trace s' →
  http.Method req' = http.Method req
  ∧ http.Body req' = http.Body req
  ∧ http.URL req' = http.URL req
  ∧ http.Host req' = http.Host req
  ∧ http.ctx req' = http.ctx req
  ∧ ((∀ k k', is_Some (map_entries s (Headers this) !! k) →
        is_Some (map_entries s (Headers this) !! k') →
        http.CanonicalMIMEHeaderKey k = http.CanonicalMIMEHeaderKey k' → k = k') →
     req' = req).
Proof.
  intros Hr Hr' Hq Hh Ht Ht'.
  destruct (SendWithCtx_sent r ctx s this req Hr Ht) as (apiURL & req0 & Hp & Hn & ->).
  destruct (SendWithCtx_sent r ctx s' this req' Hr' Ht')
    as (apiURL' & req0' & Hp' & Hn' & ->).
  rewrite Hp in Hp'. injection Hp' as <-. rewrite Hn in Hn'. injection Hn' as <-.
  rewrite Hq, Hh.
  set (m := map_entries s (Query this)). set (hm := map_entries s (Headers this)).
  assert (add_all (url.Query (http.URL req0)) (range_order m (world s'))
          = add_all (url.Query (http.URL req0)) (range_order m (world s))) as Hsame.
  { apply add_all_perm; [by rewrite !range_order_perm|].
    rewrite range_order_perm. apply NoDup_fst_map_to_list. }
  assert (http.URL (apply_query (apply_headers req0 (range_order hm (world s')))
                      (range_order m (world s')))
          = http.URL (apply_query (apply_headers req0 (range_order hm (world s)))
                        (range_order m (world s)))) as Hurl.
  { unfold apply_query. cbn [http.URL http.set_URL apply_headers http.set_Header].
    fold (add_all (url.Query (http.URL req0)) (range_order m (world s'))).
    fold (add_all (url.Query (http.URL req0)) (range_order m (world s))).
    by rewrite Hsame. }
  split; [reflexivity|]. split; [reflexivity|]. split; [exact Hurl|].
  split; [reflexivity|]. split; [reflexivity|].
  intros Huniq.
  assert (http.Header_ (apply_headers req0 (range_order hm (world s')))
          = http.Header_ (apply_headers req0 (range_order hm (world s)))) as Hhead.
  { apply map_eq. intros K. cbn [apply_headers http.Header_ http.set_Header].
    rewrite !foldl_Set.
    by rewrite (sent_header_perm hm (range_order hm (world s'))
                  (range_order hm (world s)) K (range_order_perm _ _)
                  (range_order_perm _ _) Huniq). }
  unfold apply_query in *. cbn [http.URL http.set_URL] in *.
  destruct req0 as [c0 m0 u0 h0 b0 host0]. unfold apply_headers, http.set_Header,
    http.set_URL in *. cbn [http.ctx http.Method http.URL http.Header_ http.Body
    http.Host] in *. by rewrite Hhead, Hurl.
Qed.

End determined.

(** ** Sample runs of the further properties *)

(** An empty method is sent as [GET], with the body set last. *)
Lemma dispatch_sends_method_body_and_context_witness :
  let env := serving "" in
  let s0 := fresh_request 0%Z example_base "" "/items" in
  let s1 := final_state (SetBody 0 "{}" s0) in
  ∃ req,
    trace (final_state (SendWithCtx 0 (Some context.Background) s1)) = EvDo req :: trace s1
    ∧ http.Method req = "GET" ∧ http.Body req = "{}"
    ∧ http.ctx req = context.Background.
Proof.
  intros env s0 s1. eexists. split; [vm_compute; reflexivity|].
  edestruct (dispatch_sends_method_body_and_context 0 (Some context.Background) s1)
    as (Hm & _ & Hb & Hc); [vm_compute; reflexivity|vm_compute; reflexivity|].
  split; [exact Hm|]. split; [exact Hb|].
  symmetry. exact (f_equal (default context.Background) Hc).
Defined.

(** Two keys of the header map with one canonical form: one header is sent,
    the value of the key visited last; a key alone in its form is sent with
    its own value. *)
Lemma dispatch_sends_canonical_headers_witness :
  let env := serving "" in
  let s0 := fresh_request 0%Z example_base GET "/items" in
  let s1 := final_state ((SetHeader 0 "content-type" "text/plain" ;;
                          SetHeader 0 "Content-Type" "application/json" ;;
                          SetHeader 0 "x-trace-id" "7") s0) in
  ∃ req,
    trace (final_state (SendWithCtx 0 (Some context.Background) s1)) = EvDo req :: trace s1
    ∧ http.Header_ req !! "X-Trace-Id" = Some ["7"]
    ∧ http.Header_ req !! "x-trace-id" = None
    ∧ http.Header_ req !! "Content-Type" = Some ["application/json"].
Proof.
  intros env s0 s1. eexists. split; [vm_compute; reflexivity|].
  edestruct (dispatch_sends_canonical_headers 0 (Some context.Background) s1)
    as (Hall & _ & _); [vm_compute; reflexivity|vm_compute; reflexivity|].
  rewrite !Hall. vm_compute. done.
Defined.

(** A method with a blank in it. *)
Lemma dispatch_refuses_before_sending_witness :
  let env := serving "" in
  let s0 := fresh_request 0%Z example_base "GET ITEMS" "/items" in
  (∃ err, SendWithCtx 0 (Some context.Background) s0 = Done (None, Some err) s0)
  ∧ ∃ err s', Send 0 s0 = Done (None, Some err) s'
              ∧ trace s' = [EvCancel 0; EvWithDeadline 0 (10 * Second)]
              ∧ world s' = 0%Z.
Proof.
  intros env s0.
  edestruct (dispatch_refuses_before_sending 0 (Some context.Background) s0)
    as (Hctx & Hsend); [vm_compute; reflexivity|vm_compute; reflexivity| |].
  { left. split; [done|vm_compute; reflexivity]. }
  split; [exact Hctx|].
  destruct Hsend as (err & s' & Hs & Ht & Hw); [split; [done|vm_compute; reflexivity]|].
  by exists err, s'.
Defined.

(** The calls of a run that decodes the body [[1, 2]]. *)
Lemma SendWithJSONResponse_order_of_calls_witness :
  let env := serving "[1, 2]" in
  let s0 := fresh_request 0%Z example_base GET "/items" in
  ∃ req s2,
    SendWithJSONResponse Ints 0 s0 = Done (Some [1; 2]%Z, Some ok200, None) s2
    ∧ http.ctx req = {| context.deadline := Some (10 * Second)%Z;
                        context.timer := Some 0 |}
    ∧ trace s2 = [EvClose 0; EvUnmarshal "[1, 2]"; EvReadAll 0; EvCancel 0; EvDo req;
                  EvWithDeadline 0 (10 * Second)].
Proof.
  intros env s0.
  destruct (SendWithJSONResponse_order_of_calls Ints 0 s0 ok200 (final_state (Send 0 s0)))
    as (this & req & j & err & s2 & Hr & Hrun & Hctx & Ht & Hj);
    [vm_compute; reflexivity|].
  exists req, s2.
  assert ((j, err) = (Some [1; 2]%Z, None)) as [= -> ->]
    by (rewrite Hj; vm_compute; reflexivity).
  split; [exact Hrun|].
  assert (reqs s0 !! 0 = Some {| baseURL := example_base; Method := GET;
                                 Path := "/items"; Query := Some 0; Body := "";
                                 Headers := Some 1; Timeout := 10 * Second |}) as Hr'
    by (vm_compute; reflexivity).
  rewrite Hr' in Hr. injection Hr as <-.
  split; [rewrite Hctx; vm_compute; reflexivity|].
  rewrite Ht. vm_compute. reflexivity.
Defined.

(** A timeout of two seconds set at instant 5. *)
Lemma SetTimeout_sets_the_deadline_of_Send_witness :
  let env := serving "" in
  let s0 := fresh_request 5%Z example_base GET "/items" in
  ∃ s1 new,
    SetTimeout 0 (2 * Second) s0 = Done () s1
    ∧ trace (final_state (Send 0 s1))
      = [EvCancel 0] ++ new ++ [EvWithDeadline 0 (5 + 2 * Second)]
    ∧ (new = []
       ∨ ∃ req, new = [EvDo req]
                ∧ http.ctx req = {| context.deadline := Some (5 + 2 * Second)%Z;
                                    context.timer := Some 0 |}).
Proof.
  intros env s0.
  edestruct (SetTimeout_sets_the_deadline_of_Send 0 (2 * Second) s0)
    as (s1 & new & Hset & _ & _ & _ & _ & Ht & Hnew); [vm_compute; reflexivity|].
  exists s1, new. split; [exact Hset|]. split; [exact Ht|exact Hnew].
Defined.

(** The setters on a Request literal with nil maps. *)
Lemma setters_panic_on_nil_maps_witness :
  let env := serving "" in
  let s := literal_state 0%Z in
  SetHeader 0 "Accept" "text/plain" s = Panic nil_map_write s
  ∧ SetQuery 0 "q" 1%Z s = Panic nil_map_write s
  ∧ SetJSONBody 0 (Some [1; 2]%Z : Ints) s
    = Panic nil_map_write (set_reqs s {[0 := set_Body literal_request "[1,2]"]}).
Proof.
  intros env s.
  destruct (setters_panic_on_nil_maps 0 s literal_request) as [Hh Hq];
    [vm_compute; reflexivity|].
  destruct (Hh eq_refl) as (Hset & Hjson & _).
  split; [apply Hset|]. split; [apply (Hq eq_refl)|].
  rewrite (Hjson Ints _ (Some [1; 2]%Z) "[1,2]"); [|vm_compute; reflexivity].
  f_equal.
Defined.

(** Calls on the nil pointer: nothing is at location 0 of the empty heap. *)
Lemma methods_on_nil_Request_witness :
  let env := serving "" in
  let s := start 0%Z in
  SetTimeout 0 Second s = Panic nil_dereference s
  ∧ SetJSONBody 0 MkChan s = Done (Some "json: unsupported type: chan int") s
  ∧ SetJSONBody 0 (Some [1]%Z : Ints) s = Panic nil_dereference s
  ∧ Send 0 s = Panic nil_dereference s.
Proof.
  intros env s.
  destruct (methods_on_nil_Request 0 s) as (_ & _ & _ & Ht & Hj & _ & Hsend & _);
    [vm_compute; reflexivity|].
  split; [apply Ht|]. split; [by rewrite Hj|]. split; [by rewrite Hj|]. exact Hsend.
Defined.

(** Three default headers added after [NewClient], one key twice. *)
Lemma AddDefaultHeader_then_NewRequest_witness :
  let env := serving "" in
  let kvs := [("Authorization", a_string "Bearer t"); ("X-Retry", an_int 3);
              ("Authorization", a_string "Bearer u")] in
  ∃ c' s1 r s2 hs,
    add_defaults (NewClient example_base) kvs (start 0%Z) = Done c' s1
    ∧ NewRequest c' GET "/items" s1 = Done r s2
    ∧ (view s2 r ≫= λ v, Some (view_Headers v)) = Some hs
    ∧ map_to_list hs = [("Authorization", "Bearer u"); ("X-Retry", "3")].
Proof.
  intros env kvs.
  destruct (AddDefaultHeader_then_NewRequest (env := env) (NewClient example_base) kvs
              GET "/items" (@start env 0%Z))
    as (c' & s1 & r & s2 & Hadd & _ & _ & _ & _ & _ & _ & Hnew & Hv); [done|].
  eexists c', s1, r, s2, _. split; [exact Hadd|]. split; [exact Hnew|].
  split; [exact Hv|]. vm_compute. reflexivity.
Defined.

(** A base URL with a query, a Request path that holds a question mark and
    a number sign, and one entry in the query map. *)
Lemma dispatch_query_is_base_query_and_entries_witness :
  let env := serving "" in
  let s0 := fresh_request 0%Z "https://api.example.com/v1?key=1" GET "/items?x=1#top" in
  let s1 := final_state (SetQuery 0 "key" "2" s0) in
  ∃ req,
    trace (final_state (SendWithCtx 0 (Some context.Background) s1)) = EvDo req :: trace s1
    ∧ url.RawQuery (http.URL req) = "key=1&key=2"
    ∧ url.Path (http.URL req) = "/v1/items?x=1#top"
    ∧ values_of (url.Query (http.URL req)) "key" = ["1"; "2"]
    ∧ values_of (url.Query (http.URL req)) "x" = [].
Proof.
  intros env s0 s1. eexists. split; [vm_compute; reflexivity|].
  edestruct (dispatch_query_is_base_query_and_entries 0 (Some context.Background) s1
               {| baseURL := "https://api.example.com/v1?key=1"; Method := GET;
                  Path := "/items?x=1#top"; Query := Some 0; Body := "";
                  Headers := Some 1; Timeout := 10 * Second |})
    as (apiURL & Hp & Hraw & Hq & Hback);
    [vm_compute; reflexivity|vm_compute; reflexivity|].
  assert (url.Parse "https://api.example.com/v1?key=1"
          = Ok {| url.Scheme := "https"; url.Opaque := ""; url.User := None;
                  url.Host := "api.example.com"; url.Path := "/v1"; url.RawPath := "";
                  url.OmitHost := false; url.ForceQuery := false;
                  url.RawQuery := "key=1"; url.Fragment := ""; url.RawFragment := "" |})
    as Hp' by (vm_compute; reflexivity).
  simpl in Hp. rewrite Hp' in Hp. injection Hp as <-.
  split; [vm_compute; reflexivity|]. split; [vm_compute; reflexivity|].
  rewrite !Hback, !Hq. clear. vm_compute. split; reflexivity.
Defined.

(** A list of numbers as the body of a Request made by a client without
    default headers. *)
Lemma SetJSONBody_then_dispatch_witness :
  let env := serving "" in
  let s0 := fresh_request 0%Z example_base POST "/items" in
  ∃ s1 req,
    SetJSONBody 0 (Some [1; 2]%Z : Ints) s0 = Done None s1
    ∧ trace (final_state (SendWithCtx 0 (Some context.Background) s1)) = EvDo req :: trace s1
    ∧ http.Body req = "[1,2]"
    ∧ http.Header_ req !! "Content-Type" = Some ["application/json"].
Proof.
  intros env s0.
  eexists (final_state (SetJSONBody 0 (Some [1; 2]%Z : Ints) s0)), _.
  split; [vm_compute; reflexivity|]. split; [vm_compute; reflexivity|].
  edestruct (SetJSONBody_then_dispatch Ints 0 (Some [1; 2]%Z) (Some context.Background) s0
               (final_state (SetJSONBody 0 (Some [1; 2]%Z : Ints) s0))
               {| baseURL := example_base; Method := POST; Path := "/items";
                  Query := Some 0; Body := ""; Headers := Some 1;
                  Timeout := 10 * Second |})
    as [Hbody Hct]; [vm_compute; reflexivity|vm_compute; reflexivity| |
                     vm_compute; reflexivity|].
  { intros k [x Hx]. vm_compute in Hx. discriminate. }
  split; [|exact Hct].
  assert (Marshal (Some [1; 2]%Z : Ints) = Ok "[1,2]") as Hm by (vm_compute; reflexivity).
  rewrite Hm in Hbody. symmetry.
  exact (f_equal (λ b, match b with Ok b => b | Err _ => "" end) Hbody).
Defined.

(** A relative Request path with a trailing slash, and one query entry. *)
Lemma dispatch_to_plain_base_URL_witness :
  let env := serving "" in
  let s0 := fresh_request 0%Z "https://api.example.com/v1" GET "items/" in
  let s1 := final_state (SetQuery 0 "q" "a b" s0) in
  ∃ req,
    trace (final_state (SendWithCtx 0 (Some context.Background) s1)) = EvDo req :: trace s1
    ∧ url.String_ (http.URL req) = "https://api.example.com/v1/items/?q=a+b"
    ∧ http.Host req = "api.example.com".
Proof.
  intros env s0 s1.
  destruct (dispatch_to_plain_base_URL 0 context.Background s1
              {| baseURL := "https://api.example.com/v1"; Method := GET;
                 Path := "items/"; Query := Some 0; Body := ""; Headers := Some 1;
                 Timeout := 10 * Second |}
              "https" "api.example.com" "/v1")
    as (req & Ht & _ & Hs & Hh).
  - vm_compute. reflexivity.
  - reflexivity.
  - split; [by right|]. split; [vm_compute; reflexivity|].
    split; [vm_compute; reflexivity|]. right. vm_compute. reflexivity.
  - discriminate.
  - vm_compute. reflexivity.
  - right. vm_compute. reflexivity.
  - exists req. split; [exact Ht|]. split; [|exact Hh].
    rewrite Hs. clear. vm_compute. reflexivity.
Defined.

(** The README's client: none of its dispatches panics. *)
Lemma dispatch_of_plain_base_URL_never_panics_witness :
  let env := breaking in
  let s0 := fresh_request 0%Z "https://api.example.com" "GET ITEMS" "/my/../endpoint" in
  panicked (SendWithCtx 0 None s0) = None
  ∧ panicked (Send 0 s0) = None
  ∧ panicked (SendWithJSONResponse Ints 0 s0) = None.
Proof.
  intros env s0.
  apply (dispatch_of_plain_base_URL_never_panics Ints 0 None s0
           {| baseURL := "https://api.example.com"; Method := "GET ITEMS";
              Path := "/my/../endpoint"; Query := Some 0; Body := ""; Headers := Some 1;
              Timeout := 10 * Second |}
           "https" "api.example.com" "").
  - vm_compute. reflexivity.
  - reflexivity.
  - split; [by right|]. split; [vm_compute; reflexivity|].
    split; [vm_compute; reflexivity|]. by left.
Defined.

(** A second dispatch of a Request sends what the first one sent. *)
Lemma outgoing_request_is_determined_witness :
  let env := serving "" in
  let s0 := fresh_request 0%Z "https://api.example.com/v1" POST "/items" in
  let s1 := final_state ((SetHeader 0 "accept" "text/plain" ;; SetQuery 0 "q" 1%Z ;;
                          SetBody 0 "{}") s0) in
  let s2 := final_state (SendWithCtx 0 (Some context.Background) s1) in
  ∃ req req',
    trace s2 = EvDo req :: trace s1
    ∧ trace (final_state (SendWithCtx 0 (Some context.Background) s2)) = EvDo req' :: trace s2
    ∧ world s2 ≠ world s1
    ∧ req' = req.
Proof.
  intros env s0 s1 s2. eexists _, _.
  split; [vm_compute; reflexivity|]. split; [vm_compute; reflexivity|].
  split; [vm_compute; discriminate|].
  eapply (outgoing_request_is_determined 0 (Some context.Background) s1 s2
            {| baseURL := "https://api.example.com/v1"; Method := POST; Path := "/items";
               Query := Some 0; Body := "{}"; Headers := Some 1;
               Timeout := 10 * Second |}).
  - vm_compute. reflexivity.
  - vm_compute. reflexivity.
  - vm_compute. reflexivity.
  - vm_compute. reflexivity.
  - vm_compute. reflexivity.
  - vm_compute. reflexivity.
  - intros k k' [v Hk] [v' Hk'] _.
    assert (map_entries s1 (Some 1) = {["accept" := "text/plain"]}) as Hm
      by (vm_compute; reflexivity).
    cbn [Headers] in Hk, Hk'. rewrite Hm in Hk, Hk'.
    apply lookup_singleton_Some in Hk as [<- _].
    by apply lookup_singleton_Some in Hk' as [<- _].
Defined.
